(** * dirhash: a shallow embedding of [src/dirhash/__init__.py]

    The development follows the Python module top to bottom: exceptions,
    the [hashlib] interface, the pieces of [os.path] the module calls, the
    [Protocol] class, [get_match_patterns], [_get_filehash], [_parmap],
    [dirhash] and [included_paths].

    Representation choices.
    - A Python [str] is modelled by the sequence of its UTF-8 bytes, a Rocq
      [string].  Comparing two [str] by code points (what [sorted] does) and
      comparing their UTF-8 encodings byte by byte give the same order, so
      [String.le] is the order used by [sorted].  [str.encode('utf-8')] is
      then the change of type [list_byte_of_string].
    - [bytes] are [list byte].
    - A raised exception is the [Raise] branch of [result]; code that also
      mutates a dictionary or a set threads it through the monad [M].
    - The file system is a finite map from real paths to file contents. *)

From Stdlib Require Import String Ascii ZArith List Strings.Byte.
From stdpp Require Import base gmap sets list strings sorting.
From Equations Require Import Equations.
From Equations.Prop Require Import Logic.

Open Scope string_scope.
Open Scope list_scope.

(** ** Exceptions *)

(** The [ValueError]s the module (and [multiprocessing.Pool]) can raise; the
    message text is not modelled, only which [raise] statement fired. *)
Inductive value_error :=
| EntryPropertiesNotSupported   (* Protocol.__init__, first check  *)
| NameOrDataRequired            (* Protocol.__init__, second check *)
| InvalidOnCyclicLink           (* Protocol.__init__, third check  *)
| NothingToHash                 (* dir_apply                       *)
| NoPathSpecified               (* os.path.relpath('')             *)
| PoolProcesses.                (* Pool(jobs) with jobs < 1        *)

Inductive exn :=
| ValueError (why : value_error)
| IOError (filepath : string)   (* open(filepath, 'rb') failed      *)
| KeyError (key : string)       (* real_path_to_hash[path.real]     *)
| SymlinkRecursionError.        (* raised by the scanner            *)

Inductive result (A : Type) :=
| Ok (a : A)
| Raise (e : exn).
Arguments Ok {A} a.
Arguments Raise {A} e.

(** The digest a call produced, if it produced one. *)
Definition digest_of (r : result string) : option string :=
  match r with Ok d => Some d | Raise _ => None end.

(** Computations that may raise and that mutate a store of type [S]. *)
Definition M (S A : Type) : Type := S -> result (A * S).

Definition ret {S A} (a : A) : M S A := fun s => Ok (a, s).
Definition raise {S A} (e : exn) : M S A := fun _ => Raise e.
Definition bind {S A B} (m : M S A) (k : A -> M S B) : M S B :=
  fun s => match m s with
           | Ok (a, s') => k a s'
           | Raise e => Raise e
           end.
Definition lift {S A} (r : result A) : M S A :=
  fun s => match r with Ok a => Ok (a, s) | Raise e => Raise e end.

Notation "'let*' x ':=' m 'in' k" := (bind m (fun x => k))
  (at level 10, x name, m at level 100, k at level 200).

(** [[f(x) for x in l]], left to right, stopping at the first exception. *)
Definition traverse {S A B} (f : A -> M S B) : list A -> M S (list B) :=
  fix go (l : list A) : M S (list B) :=
    match l with
    | [] => ret []
    | x :: l' => let* y := f x in let* ys := go l' in ret (y :: ys)
    end.

(** ** Strings *)

Definition bytes := list byte.

(** [s.encode('utf-8')] of a string that holds text.  (A file name that is
    not valid UTF-8 reaches Python as a string with lone surrogates, which
    [encode] refuses with [UnicodeEncodeError]; such names are outside this
    model.) *)
Definition encode_utf8 (s : string) : bytes := list_byte_of_string s.

(** [sep.join(l)]. *)
Fixpoint str_join (sep : string) (l : list string) : string :=
  match l with
  | [] => ""
  | [x] => x
  | x :: l' => x +:+ sep +:+ str_join sep l'
  end.

(** [sorted(l)] on a list of [str]. *)
Definition sorted (l : list string) : list string := merge_sort String.le l.

(** [s.startswith(c)] and [s.endswith(c)] for a one-character [c]. *)
Definition startswith (s : string) (c : ascii) : bool :=
  match s with
  | String a _ => bool_decide (a = c)
  | EmptyString => false
  end.

Fixpoint endswith (s : string) (c : ascii) : bool :=
  match s with
  | EmptyString => false
  | String a EmptyString => bool_decide (a = c)
  | String _ s' => endswith s' c
  end.

(** The values that [str.format] renders in this module: strings, and the
    bound method that [_get_entry_properties] stores under the [is_link]
    key, of which only the text matters. *)
Inductive pyval :=
| PStr (s : string)
| PMethod (text : string).

(** [str(v)], which is what ['{}'.format(v)] produces. *)
Definition str_of (v : pyval) : string :=
  match v with
  | PStr s => s
  | PMethod text => text
  end.

(** ** The [hashlib] interface

    [hasher_factory(data)] gives a hash object already fed with [data]
    ([hasher_factory()] is [hnew []]); [update] feeds more bytes;
    [hexdigest] reads the digest. *)
Record HASH := {
  hstate : Type;
  hnew : bytes -> hstate;
  update : hstate -> bytes -> hstate;
  hexdigest : hstate -> string
}.

(** The contract of [hashlib]: "repeated calls are equivalent to a single
    call with the concatenation of all the arguments". *)
Definition update_concat (H : HASH) : Prop :=
  forall (h : hstate H) (a b : bytes),
    update H (update H h a) b = update H h (a ++ b).

(** ** Paths and scanned trees (the [scantree] collaborator) *)

(** Modelled from the spec: [scantree.RecursionPath] is not part of this
    repository; the record keeps what the module reads from it.  [is_dir]
    stands for [path.is_dir()] and [is_symlink] for [path.is_symlink()],
    the flag of the specification, which this module never calls.  What
    [_get_entry_properties] stores under the [is_link] key is the method
    [path.is_symlink] itself, and what [str.format] makes of it is its
    text, [str(path.is_symlink)]: the representation of a bound method,
    which shows the path object it belongs to.  That text is the scanner's
    and is kept as it is given, in [is_symlink_method]. *)
Record Path := {
  relative : string;
  real : string;
  name : string;
  is_dir : bool;
  is_symlink : bool;
  is_symlink_method : string
}.

(** The text of the method for a path object whose representation shows
    its root, its relative path and its real path. *)
Definition method_text (root relative real : string) : string :=
  "<bound method RecursionPath.is_symlink of RecursionPath(root='" +:+ root
  +:+ "', relative='" +:+ relative +:+ "', real='" +:+ real +:+ "')>".

(** [path.is_file()]: [_get_entry_properties] treats every entry that is not
    a directory as a file. *)
Definition is_file (p : Path) : bool := negb (is_dir p).

(** Modelled from the spec: the tree the scanner returns, already pruned by
    the filter.  A directory holds its sub-directories and its files; a
    cyclic link holds its own path and the path of its target. *)
Unset Elimination Schemes.
Inductive Tree :=
| TDir (path : Path) (directories : list Tree) (files : list Path)
| TCyclic (path target_path : Path).
Set Elimination Schemes.

(** [scantree.DirNode] and [scantree.CyclicLinkedDir], generic in what the
    directories [D] and the files [F] have been transformed into. *)
Inductive DirNode (D F : Type) :=
| Dir (path : Path) (directories : list D) (files : list F)
| CyclicLinkedDir (path target_path : Path).
Arguments Dir {D F} path directories files.
Arguments CyclicLinkedDir {D F} path target_path.

Definition node_path {D F} (n : DirNode D F) : Path :=
  match n with
  | Dir p _ _ => p
  | CyclicLinkedDir p _ => p
  end.

(** [dir_node.empty]: no files and no directories; a cyclic link is never
    reported empty. *)
Definition empty {D F} (n : DirNode D F) : bool :=
  match n with
  | Dir _ [] [] => true
  | _ => false
  end.

(** ** The parts of [os.path] ([posixpath]) the module calls

    Transcribed from CPython's [Lib/posixpath.py] and [Lib/genericpath.py].
    [os.getcwd()] is the parameter [cwd]. *)
Module posixpath.

Definition sep : ascii := "/"%char.

(** [s.split('/')]. *)
Fixpoint split (s : string) : list string :=
  match s with
  | EmptyString => [""]
  | String c s' =>
      if bool_decide (c = sep) then "" :: split s'
      else match split s' with
           | w :: ws => String c w :: ws
           | [] => [String c ""]
           end
  end.

(** One round of the loop of [join(a, *p)]. *)
Definition join_step (path b : string) : string :=
  if startswith b sep then b
  else if bool_decide (path = "") || endswith path sep then path +:+ b
  else path +:+ "/" +:+ b.

Definition join (a : string) (p : list string) : string :=
  fold_left join_step p a.

(** The number of slashes [normpath] keeps in front: POSIX allows one or
    two, and treats three or more as one. *)
Definition initial_slashes (path : string) : nat :=
  if startswith path sep then
    if String.prefix "//" path && negb (String.prefix "///" path)
    then 2 else 1
  else 0.

(** One round of the loop of [normpath] over the components. *)
Definition norm_step (initial : nat) (new_comps : list string)
    (comp : string) : list string :=
  if bool_decide (comp = "") || bool_decide (comp = ".") then new_comps
  else if negb (bool_decide (comp = ".."))
          || (bool_decide (initial = 0) && bool_decide (new_comps = []))
          || (negb (bool_decide (new_comps = []))
              && bool_decide (last new_comps = Some ".."))
       then new_comps ++ [comp]
       else removelast new_comps.

Definition normpath (path : string) : string :=
  if bool_decide (path = "") then "."
  else
    let initial := initial_slashes path in
    let comps := fold_left (norm_step initial) (split path) [] in
    let path := str_join "/" comps in
    let path := str_join "" (repeat "/" initial) +:+ path in
    if bool_decide (path = "") then "." else path.

Definition isabs (s : string) : bool := startswith s sep.

Definition abspath (cwd path : string) : string :=
  if isabs path then normpath path else normpath (join cwd [path]).

(** [genericpath.commonprefix] of two lists of components. *)
Fixpoint commonprefix (l1 l2 : list string) : list string :=
  match l1, l2 with
  | x :: l1', y :: l2' =>
      if bool_decide (x = y) then x :: commonprefix l1' l2' else []
  | _, _ => []
  end.

Definition relpath (cwd path start : string) : result string :=
  if bool_decide (path = "") then Raise (ValueError NoPathSpecified)
  else
    let start_list :=
      filter (fun x => x <> "") (split (abspath cwd start)) in
    let path_list :=
      filter (fun x => x <> "") (split (abspath cwd path)) in
    let i := length (commonprefix start_list path_list) in
    let rel_list :=
      repeat ".." (length start_list - i) ++ drop i path_list in
    match rel_list with
    | [] => Ok "."
    | a :: p => Ok (join a p)
    end.

End posixpath.

(** ** [class Protocol] *)

Module OnCyclicLink.
Definition RAISE : string := "raise".
Definition HASH_REFERENCE : string := "hash_reference".
Definition options : gset string := {[ RAISE; HASH_REFERENCE ]}.
End OnCyclicLink.

Module EntryProperties.
Definition NAME : string := "name".
Definition DATA : string := "data".
Definition IS_LINK : string := "is_link".
Definition options : gset string := {[ NAME; DATA; IS_LINK ]}.
Definition _DIRHASH : string := "dirhash".
End EntryProperties.

Definition _entry_property_separator : string :=
  String "000"%char EmptyString.
Definition _entry_descriptor_separator : string :=
  String "000"%char (String "000"%char EmptyString).

Record Protocol := {
  entry_properties : gset string;
  _include_name : bool;
  _include_data : bool;
  _include_is_link : bool;
  on_cyclic_link : string
}.

(** [Protocol.__init__(entry_properties, on_cyclic_link)]. *)
Definition Protocol_init (entry_properties : list string)
    (on_cyclic_link : string) : result Protocol :=
  let entry_properties : gset string := list_to_set entry_properties in
  if negb (bool_decide (entry_properties ⊆ EntryProperties.options)) then
    Raise (ValueError EntryPropertiesNotSupported)
  else if negb (bool_decide (EntryProperties.NAME ∈ entry_properties)
                || bool_decide (EntryProperties.DATA ∈ entry_properties)) then
    Raise (ValueError NameOrDataRequired)
  else if negb (bool_decide (on_cyclic_link ∈ OnCyclicLink.options)) then
    Raise (ValueError InvalidOnCyclicLink)
  else
    Ok {| entry_properties := entry_properties;
          _include_name :=
            bool_decide (EntryProperties.NAME ∈ entry_properties);
          _include_data :=
            bool_decide (EntryProperties.DATA ∈ entry_properties);
          _include_is_link :=
            bool_decide (EntryProperties.IS_LINK ∈ entry_properties);
          on_cyclic_link := on_cyclic_link |}.

(** The defaults of the signature of [__init__]. *)
Definition default_entry_properties : list string := ["name"; "data"].
Definition default_on_cyclic_link : string := "raise".

Definition _get_entry_properties (self : Protocol) (path : Path)
    (entry_hash : string) : list (string * pyval) :=
  let properties := [] in
  let properties :=
    if is_dir path then
      properties ++ [(EntryProperties._DIRHASH, PStr entry_hash)]
    else if _include_data self then
      properties ++ [(EntryProperties.DATA, PStr entry_hash)]
    else properties in
  let properties :=
    if _include_name self then
      properties ++ [(EntryProperties.NAME, PStr (name path))]
    else properties in
  let properties :=
    if _include_is_link self then
      properties ++ [(EntryProperties.IS_LINK,
                      PMethod (is_symlink_method path))]
    else properties in
  properties.

(** ['{}:{}'.format(name, value)]. *)
Definition format_property (p : string * pyval) : string :=
  fst p +:+ ":" +:+ str_of (snd p).

Definition _get_entry_descriptor (entry_properties : list (string * pyval))
    : string :=
  let entry_strings := map format_property entry_properties in
  str_join _entry_property_separator (sorted entry_strings).

Definition _get_cyclic_linked_dir_descriptor (cwd : string)
    (path target_path : Path) : result string :=
  let relpath := relative path in
  let target_relpath := relative target_path in
  posixpath.relpath cwd
    (posixpath.join "." [target_relpath])
    (posixpath.join "." [relpath]).

Definition get_descriptor (self : Protocol) (cwd : string)
    (dir_node : DirNode (Path * string) (Path * string)) : result string :=
  match dir_node with
  | CyclicLinkedDir path target_path =>
      _get_cyclic_linked_dir_descriptor cwd path target_path
  | Dir _ directories files =>
      let entries := directories ++ files in
      let entry_descriptors :=
        map (fun e => _get_entry_descriptor
                        (_get_entry_properties self (fst e) (snd e)))
            entries in
      Ok (str_join _entry_descriptor_separator (sorted entry_descriptors))
  end.

(** ** [class Filter] and [get_match_patterns] *)

(** Only [empty_dirs] is read by this module; the other fields go to the
    scanner. *)
Record Filter := {
  match_patterns : option (list string);
  linked_dirs : bool;
  linked_files : bool;
  empty_dirs : bool
}.

Definition Filter_default : Filter :=
  {| match_patterns := None; linked_dirs := true; linked_files := true;
     empty_dirs := false |}.

(** The local function [deduplicate]: the loop state is the set
    [items_set] and the list [dd_items]. *)
Definition deduplicate_step (st : gset string * list string)
    (item : string) : gset string * list string :=
  let '(items_set, dd_items) := st in
  if bool_decide (item ∉ items_set) then
    ({[ item ]} ∪ items_set, dd_items ++ [item])
  else (items_set, dd_items).

Definition deduplicate (items : list string) : list string :=
  snd (fold_left deduplicate_step items (∅, [])).

(** One round of the loop over [ignore_extensions]. *)
Definition extension_pattern (ext : string) : string :=
  let ext := if negb (startswith ext "."%char) then "." +:+ ext else ext in
  "*" +:+ ext.

Definition get_match_patterns (match_ ignore ignore_extensions
    : option (list string)) (ignore_hidden : bool) : list string :=
  let match_ := match match_ with None => ["*"] | Some l => l end in
  let ignore := match ignore with None => [] | Some l => l end in
  let ignore_extensions :=
    match ignore_extensions with None => [] | Some l => l end in
  let ignore :=
    if ignore_hidden then ignore ++ [".*"; ".*/"] else ignore in
  let ignore :=
    fold_left (fun ignore ext => ignore ++ [extension_pattern ext])
              ignore_extensions ignore in
  let match_spec := match_ ++ map (fun ign => "!" +:+ ign) ignore in
  deduplicate match_spec.

(** ** [_get_filehash] *)

(** [f.read(chunk_size)] on a file whose unread content is [f]: the chunk
    read and what remains.  The size -1 reads everything.  (A buffered
    reader refuses a size below -1 with [ValueError] and a size beyond the
    platform's limit with [OverflowError]; below -1 this definition reads
    as for -1, and it puts no upper limit.) *)
Definition read (chunk_size : Z) (f : bytes) : bytes * bytes :=
  if (chunk_size <? 0)%Z then (f, [])
  else (take (Z.to_nat chunk_size) f, drop (Z.to_nat chunk_size) f).

(** [for chunk in iter(lambda: f.read(chunk_size), b''): hasher.update(chunk)]:
    the loop ends at the first empty chunk. *)
Equations hash_chunks (H : HASH) (chunk_size : Z) (hasher : hstate H)
    (f : bytes) : hstate H by wf (length f) lt :=
hash_chunks H chunk_size hasher f with inspect (read chunk_size f) := {
  | exist _ ([], _) _ => hasher
  | exist _ (b :: chunk, f') e =>
      hash_chunks H chunk_size (update H hasher (b :: chunk)) f' }.
Next Obligation.
  clear hash_chunks. revert e. unfold read. destruct (chunk_size <? 0)%Z.
  - intros [= -> <-]. simpl. lia.
  - intros [= Ht <-]. destruct f as [|x f]; [by destruct (Z.to_nat _)|].
    destruct (Z.to_nat chunk_size) as [|n]; [done|].
    rewrite length_drop. simpl. lia.
Defined.

Section with_hasher.

(** The resolved algorithm, the content of the files by real path, and the
    working directory of the process. *)
Context (hasher_factory : HASH) (fs : gmap string bytes) (cwd : string).

(** The branch [cache is None]. *)
Definition _get_filehash (filepath : string) (chunk_size : Z)
    : result string :=
  let hasher := hnew hasher_factory [] in
  match fs !! filepath with
  | None => Raise (IOError filepath)
  | Some f =>
      Ok (hexdigest hasher_factory
            (hash_chunks hasher_factory chunk_size hasher f))
  end.

(** The branch [cache is not None]: the dictionary is the store. *)
Definition _get_filehash_cached (filepath : string) (chunk_size : Z)
    : M (gmap string string) string :=
  fun cache =>
    match cache !! filepath with
    | Some filehash => Ok (filehash, cache)
    | None =>
        match _get_filehash filepath chunk_size with
        | Ok filehash => Ok (filehash, <[filepath := filehash]> cache)
        | Raise e => Raise e
        end
    end.

(** ** [_parmap]

    [Pool(jobs)] refuses [jobs < 1]; [pool.map] returns the results in the
    order of the input once every worker is done, or raises. *)
Definition _parmap {A B} (func : A -> result B) (iterable : list A)
    (jobs : Z) : result (list B) :=
  let results := traverse (S := unit) (fun x => lift (func x)) iterable in
  if (jobs =? 1)%Z then
    match results tt with Ok (l, _) => Ok l | Raise e => Raise e end
  else if (jobs <? 1)%Z then Raise (ValueError PoolProcesses)
  else match results tt with Ok (l, _) => Ok l | Raise e => Raise e end.

(** ** The scanner *)

(** Modelled from the spec: [DirNode.apply], the post-order reduction of a
    scanned tree, sub-directories before files. *)
Fixpoint apply {S D F} (file_apply : Path -> M S F)
    (dir_apply : DirNode D F -> M S D) (t : Tree) : M S D :=
  match t with
  | TDir path directories files =>
      let* ds := traverse (apply file_apply dir_apply) directories in
      let* fs := traverse file_apply files in
      dir_apply (Dir path ds fs)
  | TCyclic path target_path => dir_apply (CyclicLinkedDir path target_path)
  end.

(** Modelled from the spec: [scantree(directory, ..., file_apply, dir_apply,
    allow_cyclic_links)].  The tree [t] is what the scanner finds under
    [directory] after filtering; the transforms are applied in post-order
    while scanning, and a cyclic link raises unless it is allowed. *)
Fixpoint scantree {S D F} (t : Tree) (file_apply : Path -> M S F)
    (dir_apply : DirNode D F -> M S D) (allow_cyclic_links : bool)
    : M S D :=
  match t with
  | TDir path directories files =>
      let* ds :=
        traverse (fun d => scantree d file_apply dir_apply allow_cyclic_links)
             directories in
      let* fs := traverse file_apply files in
      dir_apply (Dir path ds fs)
  | TCyclic path target_path =>
      if allow_cyclic_links
      then dir_apply (CyclicLinkedDir path target_path)
      else raise SymlinkRecursionError
  end.

(** The default [dir_apply] of the scanner: the node itself. *)
Definition identity_dir_apply {S} (n : DirNode Tree Path) : M S Tree :=
  ret (match n with
       | Dir path directories files => TDir path directories files
       | CyclicLinkedDir path target_path => TCyclic path target_path
       end).

(** Modelled from the spec: [DirNode.leafpaths], the enumeration of all leaf
    paths: files, empty directories and cyclic links, sorted by relative
    path. *)
Fixpoint leaves (t : Tree) : list Path :=
  match t with
  | TDir path directories files =>
      flat_map leaves directories ++ files
      ++ (if empty (Dir path directories files) then [path] else [])
  | TCyclic path _ => [path]
  end.

Definition path_le (p q : Path) : Prop := String.le (relative p) (relative q).

Definition leafpaths (t : Tree) : list Path := merge_sort path_le (leaves t).

(** ** [dirhash] *)

(** [_get_instance('protocol', protocol, Protocol)]: [None], keyword
    arguments, or an instance. *)
Inductive protocol_arg :=
| ProtocolNone
| ProtocolKwargs (entry_properties : option (list string))
                 (on_cyclic_link : option string)
| ProtocolInstance (p : Protocol).

Definition _get_instance_protocol (a : protocol_arg) : result Protocol :=
  match a with
  | ProtocolNone =>
      Protocol_init default_entry_properties default_on_cyclic_link
  | ProtocolKwargs eps ocl =>
      Protocol_init
        (match eps with Some l => l | None => default_entry_properties end)
        (match ocl with Some s => s | None => default_on_cyclic_link end)
  | ProtocolInstance p => Ok p
  end.

Definition _get_instance_filter (a : option Filter) : Filter :=
  match a with
  | None => Filter_default
  | Some f => f
  end.

(** The closure [dir_apply] of [dirhash]. *)
Definition dir_apply (filter_ : Filter) (protocol : Protocol)
    (dir_node : DirNode (Path * string) (Path * string))
    : result (Path * string) :=
  if negb (empty_dirs filter_)
     && (bool_decide (relative (node_path dir_node) = "") && empty dir_node)
  then Raise (ValueError NothingToHash)
  else
    match get_descriptor protocol cwd dir_node with
    | Raise e => Raise e
    | Ok descriptor =>
        let _dirhash :=
          hexdigest hasher_factory
            (hnew hasher_factory (encode_utf8 descriptor)) in
        Ok (node_path dir_node, _dirhash)
    end.

Definition allow_cyclic_links (protocol : Protocol) : bool :=
  negb (bool_decide (on_cyclic_link protocol = OnCyclicLink.RAISE)).

(** The branch [jobs == 1]: the closure [file_apply] and the call of the
    scanner; the store is the dictionary [cache]. *)
Definition file_apply_serial (chunk_size : Z) (path : Path)
    : M (gmap string string) (Path * string) :=
  let* h := _get_filehash_cached (real path) chunk_size in
  ret (path, h).

Definition dirhash_serial (t : Tree) (filter_ : Filter)
    (protocol : Protocol) (chunk_size : Z) : result string :=
  let cache : gmap string string := ∅ in
  match scantree t (file_apply_serial chunk_size)
                 (fun n => lift (dir_apply filter_ protocol n))
                 (allow_cyclic_links protocol) cache with
  | Ok ((_, dirhash_), _) => Ok dirhash_
  | Raise e => Raise e
  end.

(** The branch [jobs != 1].  [extract_real_paths] mutates the set
    [real_paths]; [dict(zip(real_paths, file_hashes))] inserts the pairs
    from left to right; the second [file_apply] reads the table. *)
Definition extract_real_paths (path : Path) : M (gset string) Path :=
  fun real_paths => Ok (path, {[ real path ]} ∪ real_paths).

Definition dict_of_pairs (l : list (string * string)) : gmap string string :=
  fold_left (fun d kv => <[fst kv := snd kv]> d) l ∅.

Definition file_apply_parallel (real_path_to_hash : gmap string string)
    (path : Path) : M unit (Path * string) :=
  match real_path_to_hash !! real path with
  | Some h => ret (path, h)
  | None => raise (KeyError (real path))
  end.

Definition dirhash_parallel (t : Tree) (filter_ : Filter)
    (protocol : Protocol) (chunk_size : Z) (jobs : Z) : result string :=
  let real_paths : gset string := ∅ in
  match scantree t extract_real_paths identity_dir_apply
                 (allow_cyclic_links protocol) real_paths with
  | Raise e => Raise e
  | Ok (root_node, real_paths) =>
      let real_paths := elements real_paths in
      match _parmap (fun p => _get_filehash p chunk_size) real_paths jobs with
      | Raise e => Raise e
      | Ok file_hashes =>
          let real_path_to_hash :=
            dict_of_pairs (zip real_paths file_hashes) in
          match apply (file_apply_parallel real_path_to_hash)
                      (fun n => lift (dir_apply filter_ protocol n))
                      root_node tt with
          | Ok ((_, dirhash_), _) => Ok dirhash_
          | Raise e => Raise e
          end
      end
  end.

(** [dirhash(directory, algorithm, filtering, protocol, chunk_size, jobs)],
    with the scan of [directory] given as the tree [t]. *)
Definition dirhash (t : Tree) (filtering : option Filter)
    (protocol : protocol_arg) (chunk_size : Z) (jobs : Z) : result string :=
  let filter_ := _get_instance_filter filtering in
  match _get_instance_protocol protocol with
  | Raise e => Raise e
  | Ok protocol =>
      if (jobs =? 1)%Z then dirhash_serial t filter_ protocol chunk_size
      else dirhash_parallel t filter_ protocol chunk_size jobs
  end.

(** ** [included_paths] *)

Definition included_path (path : Path) : string :=
  if is_file path then relative path
  else posixpath.join (relative path) ["."].

Definition included_paths (t : Tree) (filtering : option Filter)
    (protocol : protocol_arg) : result (list string) :=
  match _get_instance_protocol protocol with
  | Raise e => Raise e
  | Ok protocol =>
      let filter_ := _get_instance_filter filtering in
      match scantree (S := unit) t ret identity_dir_apply
                     (allow_cyclic_links protocol) tt with
      | Raise e => Raise e
      | Ok (root_node, _) => Ok (map included_path (leafpaths root_node))
      end
  end.

End with_hasher.

(** ** Two small hash objects to run the model on

    [hexdump] keeps everything it was fed and prints it in hexadecimal: it
    never collides.  [sum16] is an additive checksum: it collides on any two
    inputs with the same bytes in a different order.  Both satisfy the
    contract of [update]. *)

Definition hex_digit (n : N) : ascii :=
  match n with
  | 0 => "0" | 1 => "1" | 2 => "2" | 3 => "3" | 4 => "4" | 5 => "5"
  | 6 => "6" | 7 => "7" | 8 => "8" | 9 => "9" | 10 => "a" | 11 => "b"
  | 12 => "c" | 13 => "d" | 14 => "e" | _ => "f"
  end%N%char.

Definition hex_byte (b : byte) : string :=
  let n := Byte.to_N b in
  String (hex_digit (n / 16)) (String (hex_digit (n mod 16)) EmptyString).

Fixpoint hex_bytes (l : bytes) : string :=
  match l with
  | [] => ""
  | b :: l' => hex_byte b +:+ hex_bytes l'
  end.

Definition hexdump : HASH :=
  {| hstate := bytes;
     hnew := fun data => data;
     update := fun h data => h ++ data;
     hexdigest := hex_bytes |}.

Definition byte_sum (l : bytes) : N :=
  fold_right (fun b acc => (Byte.to_N b + acc)%N) 0%N l.

Definition hex16 (n : N) : string :=
  String (hex_digit (n / 4096 mod 16))
    (String (hex_digit (n / 256 mod 16))
       (String (hex_digit (n / 16 mod 16))
          (String (hex_digit (n mod 16)) EmptyString))).

Definition sum16 : HASH :=
  {| hstate := N;
     hnew := fun data => (byte_sum data mod 65536)%N;
     update := fun h data => ((h + byte_sum data) mod 65536)%N;
     hexdigest := hex16 |}.

(** A root with one file [a.txt] holding [hello]. *)
Definition a_txt : Path :=
  {| relative := "a.txt"; real := "/r/a.txt"; name := "a.txt";
     is_dir := false; is_symlink := false;
     is_symlink_method := method_text "/r" "a.txt" "/r/a.txt" |}.
Definition root_path : Path :=
  {| relative := ""; real := "/r"; name := "r";
     is_dir := true; is_symlink := false;
     is_symlink_method := method_text "/r" "" "/r" |}.
Definition hello_tree : Tree := TDir root_path [] [a_txt].
Definition hello_fs : gmap string bytes :=
  {[ "/r/a.txt" := list_byte_of_string "hello" ]}.

(** ** The specification's own definitions

    Written from the words of the specification, to be compared with the
    definitions above. *)
Module Spec.

Definition bool_as_string (b : bool) : string :=
  if b then "True" else "False".

(** The (key, value) pairs a child contributes under the selected entry
    properties. *)
Definition selected_pairs (entry_properties : gset string) (child : Path)
    (child_hash : string) : list (string * string) :=
  (if is_dir child then [("dirhash", child_hash)]
   else if bool_decide ("data" ∈ entry_properties)
        then [("data", child_hash)] else [])
  ++ (if bool_decide ("name" ∈ entry_properties)
      then [("name", name child)] else [])
  ++ (if bool_decide ("is_link" ∈ entry_properties)
      then [("is_link", bool_as_string (is_symlink child))] else []).

(** A pair rendered as [key:value]. *)
Definition render (kv : string * string) : string :=
  fst kv +:+ ":" +:+ snd kv.

(** [s] is [items] sorted lexicographically and joined with [sep]. *)
Definition sorted_join (sep : string) (items : list string) (s : string)
    : Prop :=
  exists l, l ≡ₚ items /\ Sorted String.le l /\ s = str_join sep l.

Definition child_descriptor (entry_properties : gset string)
    (child : Path * string) (s : string) : Prop :=
  sorted_join _entry_property_separator
    (map render (selected_pairs entry_properties (fst child) (snd child))) s.

Definition directory_descriptor (entry_properties : gset string)
    (children : list (Path * string)) (s : string) : Prop :=
  exists per_child,
    Forall2 (child_descriptor entry_properties) children per_child
    /\ sorted_join _entry_descriptor_separator per_child s.

(** Stable removal of duplicates: an item stays where it first occurs. *)
Fixpoint first_occurrences (l : list string) : list string :=
  match l with
  | [] => []
  | x :: l' => x :: filter (fun y => y <> x) (first_occurrences l')
  end.

(** The pattern list before duplicates are removed. *)
Definition negation (pattern : string) : string := "!" +:+ pattern.

Definition dotted (ext : string) : string :=
  match ext with
  | String "."%char _ => ext
  | _ => "." +:+ ext
  end.

Definition match_patterns (include ignore ignore_extensions
    : option (list string)) (ignore_hidden : bool) : list string :=
  default ["*"] include
  ++ map negation (default [] ignore)
  ++ (if ignore_hidden then [negation ".*"; negation ".*/"] else [])
  ++ map (fun ext => negation ("*" +:+ dotted ext))
         (default [] ignore_extensions).

(** What makes a [Protocol] configuration invalid. *)
Definition invalid_protocol (entry_properties : list string)
    (on_cyclic_link : string) : Prop :=
  (("name" ∉ entry_properties) /\ ("data" ∉ entry_properties))
  \/ Exists (fun p => p ∉ ["name"; "data"; "is_link"]) entry_properties
  \/ (on_cyclic_link ∉ ["raise"; "hash_reference"]).

End Spec.

(** ** Notions used in the statements *)

(** The reduction of a scanned tree without any cache or table: every file
    is hashed where it is met.  [None] stands for a raised exception. *)
Definition to_option {A} (r : result A) : option A :=
  match r with Ok a => Some a | Raise _ => None end.

Definition file_hash (H : HASH) (fs : gmap string bytes) (chunk_size : Z)
    (path : Path) : option (Path * string) :=
  match _get_filehash H fs (real path) chunk_size with
  | Ok h => Some (path, h)
  | Raise _ => None
  end.

Fixpoint tree_hash (H : HASH) (fs : gmap string bytes) (cwd : string)
    (filter_ : Filter) (protocol : Protocol) (chunk_size : Z)
    (allow : bool) (t : Tree) : option (Path * string) :=
  match t with
  | TDir path directories files =>
      ds ← mapM (tree_hash H fs cwd filter_ protocol chunk_size allow)
                directories;
      fs' ← mapM (file_hash H fs chunk_size) files;
      to_option (dir_apply H cwd filter_ protocol (Dir path ds fs'))
  | TCyclic path target_path =>
      if allow
      then to_option (dir_apply H cwd filter_ protocol
                        (CyclicLinkedDir path target_path))
      else None
  end.

(** The real paths of the files of a tree, and whether it has a cyclic
    link. *)
Fixpoint real_paths_of (t : Tree) : gset string :=
  match t with
  | TDir _ directories files =>
      ⋃ (map real_paths_of directories) ∪ list_to_set (map real files)
  | TCyclic _ _ => ∅
  end.

Fixpoint has_cyclic_link (t : Tree) : bool :=
  match t with
  | TDir _ directories _ => existsb has_cyclic_link directories
  | TCyclic _ _ => true
  end.

(** Two scans of the same directory that differ only in the order in which
    the children of each directory were listed. *)
Inductive tree_perm : Tree -> Tree -> Prop :=
| tree_perm_dir path ds ds' ds'' fs fs' :
    Forall2 tree_perm ds ds' -> ds' ≡ₚ ds'' -> fs ≡ₚ fs' ->
    tree_perm (TDir path ds fs) (TDir path ds'' fs')
| tree_perm_cyclic path target_path :
    tree_perm (TCyclic path target_path) (TCyclic path target_path).

(** [m], run from any store satisfying [I], returns [a] and keeps [I] when
    [o] is [Some a], and raises when [o] is [None]. *)
Definition agrees {S A} (I : S -> Prop) (m : M S A) (o : option A) : Prop :=
  forall s, I s ->
    match o with
    | Some a => exists s', m s = Ok (a, s') /\ I s'
    | None => exists e, m s = Raise e
    end.

(** Every entry of a cache or table is the hash of the file it is stored
    under. *)
Definition cache_ok (H : HASH) (fs : gmap string bytes) (chunk_size : Z)
    (cache : gmap string string) : Prop :=
  forall filepath filehash,
    cache !! filepath = Some filehash ->
    _get_filehash H fs filepath chunk_size = Ok filehash.

(** A root with two files and a sub-directory, and the same root listed in
    another order. *)
Definition b_txt : Path :=
  {| relative := "b.txt"; real := "/r/b.txt"; name := "b.txt";
     is_dir := false; is_symlink := false;
     is_symlink_method := method_text "/r" "b.txt" "/r/b.txt" |}.
Definition sub_path : Path :=
  {| relative := "sub"; real := "/r/sub"; name := "sub";
     is_dir := true; is_symlink := false;
     is_symlink_method := method_text "/r" "sub" "/r/sub" |}.
Definition c_txt : Path :=
  {| relative := "sub/c.txt"; real := "/r/sub/c.txt"; name := "c.txt";
     is_dir := false; is_symlink := false;
     is_symlink_method := method_text "/r" "sub/c.txt" "/r/sub/c.txt" |}.
Definition d_txt : Path :=
  {| relative := "sub/d.txt"; real := "/r/a.txt"; name := "d.txt";
     is_dir := false; is_symlink := true;
     is_symlink_method := method_text "/r" "sub/d.txt" "/r/a.txt" |}.
Definition sample_tree : Tree :=
  TDir root_path [TDir sub_path [] [c_txt; d_txt]] [a_txt; b_txt].
Definition sample_tree_listed_otherwise : Tree :=
  TDir root_path [TDir sub_path [] [d_txt; c_txt]] [b_txt; a_txt].
Definition sample_fs : gmap string bytes :=
  {[ "/r/a.txt" := list_byte_of_string "hello";
     "/r/b.txt" := list_byte_of_string "";
     "/r/sub/c.txt" := list_byte_of_string "some more bytes" ]}.

(** A node that is not the root of the scan: its relative path is not
    empty, and neither is that of any node below it. *)
Fixpoint below_root (t : Tree) : bool :=
  match t with
  | TDir path directories _ =>
      negb (bool_decide (relative path = "")) && forallb below_root directories
  | TCyclic path _ => negb (bool_decide (relative path = ""))
  end.

(** [m] never raises the "nothing to hash" error. *)
Definition never_nothing_to_hash {S A} (m : M S A) : Prop :=
  forall s, m s <> Raise (ValueError NothingToHash).

(** The leaves a reduction consumes: a log is added to the store; the file
    transform logs the path it is given, the directory transform logs the
    path of a node that is a cyclic link or has no children. *)
Definition is_leaf_node {D F} (n : DirNode D F) : bool :=
  match n with
  | CyclicLinkedDir _ _ => true
  | Dir _ _ _ => empty n
  end.

Definition logging_file_apply {S F} (file_apply : Path -> M S F)
    (path : Path) : M (S * list Path) F :=
  fun st =>
    match file_apply path (fst st) with
    | Ok (r, s') => Ok (r, (s', snd st ++ [path]))
    | Raise e => Raise e
    end.

Definition logging_dir_apply {S D F} (dir_apply : DirNode D F -> M S D)
    (n : DirNode D F) : M (S * list Path) D :=
  fun st =>
    match dir_apply n (fst st) with
    | Ok (r, s') =>
        Ok (r, (s', if is_leaf_node n then snd st ++ [node_path n]
                    else snd st))
    | Raise e => Raise e
    end.

(** The claim of the specification about [list_included_paths]: the output
    is sorted, and a directory leaf is its relative path followed by the
    separator and the marker. *)
Definition suffixed_with_marker (path : Path) (s : string) : Prop :=
  s = if is_file path then relative path else relative path +:+ "/.".

(** An empty root, and a root holding an empty directory [a] and a file
    [a-b], both scanned with [empty_dirs=True]. *)
Definition keep_empty_dirs : Filter :=
  {| match_patterns := None; linked_dirs := true; linked_files := true;
     empty_dirs := true |}.
Definition empty_root_tree : Tree := TDir root_path [] [].
Definition dir_a : Path :=
  {| relative := "a"; real := "/r/a"; name := "a";
     is_dir := true; is_symlink := false;
     is_symlink_method := method_text "/r" "a" "/r/a" |}.
Definition file_a_b : Path :=
  {| relative := "a-b"; real := "/r/a-b"; name := "a-b";
     is_dir := false; is_symlink := false;
     is_symlink_method := method_text "/r" "a-b" "/r/a-b" |}.
Definition dash_tree : Tree := TDir root_path [TDir dir_a [] []] [file_a_b].

(** A string without a separator, and a plain path component: one without a
    separator that is neither empty nor [.] nor [..].  Root-relative paths
    are plain components joined by the separator; the root is the empty
    path. *)
Fixpoint no_sep (s : string) : bool :=
  match s with
  | EmptyString => true
  | String a s' => negb (bool_decide (a = posixpath.sep)) && no_sep s'
  end.

Definition plain (c : string) : Prop :=
  no_sep c = true /\ c <> "" /\ c <> "." /\ c <> "..".

(** Relative-path arithmetic on components: climb out of what [start] does
    not share with [target], then descend into the rest of [target]; the
    current directory when nothing is left. *)
Definition relative_components (start target : list string) : list string :=
  let i := length (posixpath.commonprefix start target) in
  repeat ".." (length start - i) ++ drop i target.

Definition components_path (l : list string) : string :=
  match l with
  | [] => "."
  | _ => str_join "/" l
  end.

(** A directory [d] holding a link [d/link] back to [d]. *)
Definition d_path : Path :=
  {| relative := "d"; real := "/r/d"; name := "d";
     is_dir := true; is_symlink := false;
     is_symlink_method := method_text "/r" "d" "/r/d" |}.
Definition link_path : Path :=
  {| relative := "d/link"; real := "/r/d"; name := "link";
     is_dir := true; is_symlink := true;
     is_symlink_method := method_text "/r" "d/link" "/r/d" |}.
Definition cyclic_tree : Tree :=
  TDir root_path [TDir d_path [TCyclic link_path d_path] []] [].
Definition hash_reference : Protocol :=
  {| entry_properties := list_to_set default_entry_properties;
     _include_name := true; _include_data := true;
     _include_is_link := false; on_cyclic_link := "hash_reference" |}.

(** Components that [os.path.join] glues with one separator each. *)
Definition gluable (c : string) : Prop := no_sep c = true /\ c <> "".

(** The second half of the claim of the specification about cyclic links:
    the descriptor itself is what the parent receives for the link. *)
Definition cyclic_descriptor_used_literally : Prop :=
  forall (H : HASH) (cwd : string) (filter_ : Filter) (protocol : Protocol)
         (path target_path : Path) (d : string),
    get_descriptor protocol cwd (CyclicLinkedDir path target_path) = Ok d ->
    dir_apply H cwd filter_ protocol (CyclicLinkedDir path target_path)
    = Ok (path, d).

(** ** Renaming a file *)

(** The same file under another name, on the file system [fs] before and
    [fs'] after the renaming: the file is found at its new real path with
    the content it had at the old one, it is a file as before and a link as
    before, and its name has changed (with it the relative path, the real
    path and the text the scanner prints for it may change). *)
Definition file_renamed (fs fs' : gmap string bytes) (p p' : Path) : Prop :=
  fs !! real p = fs' !! real p' /\ is_dir p = false /\ is_dir p' = false
  /\ is_symlink p = is_symlink p' /\ name p <> name p'.

(** Two scans that differ by the renaming of one file, anywhere in the
    tree. *)
Inductive tree_renamed (fs fs' : gmap string bytes) : Tree -> Tree -> Prop :=
| renamed_here path ds fs1 p p' fs2 :
    file_renamed fs fs' p p' ->
    tree_renamed fs fs' (TDir path ds (fs1 ++ p :: fs2))
                        (TDir path ds (fs1 ++ p' :: fs2))
| renamed_below path ds1 d d' ds2 files :
    tree_renamed fs fs' d d' ->
    tree_renamed fs fs' (TDir path (ds1 ++ d :: ds2) files)
                        (TDir path (ds1 ++ d' :: ds2) files).

(** Nothing else has changed: a real path that both scans hold has the
    same content before and after. *)
Definition same_elsewhere (fs fs' : gmap string bytes) (t t' : Tree) : Prop :=
  forall k, k ∈ real_paths_of t -> k ∈ real_paths_of t' ->
            fs !! k = fs' !! k.

(** The claim of the specification: the digest changes if and only if
    [name] is among the entry properties. *)
Definition rename_changes_digest_iff_name : Prop :=
  forall (H : HASH) (fs fs' : gmap string bytes) (cwd : string)
         (t t' : Tree) (filtering : option Filter) (eps : list string)
         (ocl : string) (chunk_size jobs : Z) (d d' : string),
    tree_renamed fs fs' t t' -> same_elsewhere fs fs' t t' ->
    dirhash H fs cwd t filtering (ProtocolKwargs (Some eps) (Some ocl))
      chunk_size jobs = Ok d ->
    dirhash H fs' cwd t' filtering (ProtocolKwargs (Some eps) (Some ocl))
      chunk_size jobs = Ok d' ->
    (d <> d' <-> "name" ∈ eps).

(** The descriptor that a reduction of [t] hashes for the root node of [t],
    when the nodes below it have their results. *)
Definition node_descriptor (H : HASH) (fs : gmap string bytes)
    (cwd : string) (filter_ : Filter) (protocol : Protocol)
    (chunk_size : Z) (allow : bool) (t : Tree) : option string :=
  match t with
  | TDir path directories files =>
      ds ← mapM (tree_hash H fs cwd filter_ protocol chunk_size allow)
                directories;
      fs' ← mapM (file_hash H fs chunk_size) files;
      to_option (get_descriptor protocol cwd (Dir path ds fs'))
  | TCyclic path target_path =>
      if allow
      then to_option (get_descriptor protocol cwd
                        (CyclicLinkedDir path target_path))
      else None
  end.

(** The descriptors that a reduction of [t] hands to the hash function:
    that of every directory node, the nodes below a node first. *)
Fixpoint hashed_descriptors (H : HASH) (fs : gmap string bytes)
    (cwd : string) (filter_ : Filter) (protocol : Protocol)
    (chunk_size : Z) (allow : bool) (t : Tree) : list string :=
  (match t with
   | TDir _ directories _ =>
       flat_map (hashed_descriptors H fs cwd filter_ protocol chunk_size
                   allow) directories
   | TCyclic _ _ => []
   end)
  ++ match node_descriptor H fs cwd filter_ protocol chunk_size allow t with
     | Some d => [d]
     | None => []
     end.

(** The hash function gives one digest to two different descriptors, one
    of each list. *)
Definition collide (H : HASH) (l l' : list string) : Prop :=
  exists d d',
    d ∈ l /\ d' ∈ l' /\ d <> d'
    /\ hexdigest H (hnew H (encode_utf8 d))
       = hexdigest H (hnew H (encode_utf8 d')).

(** The character of the two separators. *)
Definition NUL : ascii := "000"%char.

Fixpoint nul_free (s : string) : bool :=
  match s with
  | EmptyString => true
  | String a s' => negb (bool_decide (a = NUL)) && nul_free s'
  end.

Definition nul_free_digests (H : HASH) : Prop :=
  forall h : hstate H, nul_free (hexdigest H h) = true.

(** No name in the tree holds a NUL character (no file name can), and the
    path of a directory node is a directory entry. *)
Fixpoint well_named (t : Tree) : bool :=
  match t with
  | TDir path directories files =>
      is_dir path && nul_free (name path)
      && forallb well_named directories
      && forallb (fun p => nul_free (name p)) files
  | TCyclic path _ => nul_free (name path)
  end.

(** No two NUL characters in a row and none at the end: such strings can be
    told apart again after they are joined with the double NUL. *)
Fixpoint separable (s : string) : bool :=
  match s with
  | EmptyString => true
  | String a s' =>
      (if bool_decide (a = NUL)
       then match s' with
            | EmptyString => false
            | String b _ => negb (bool_decide (b = NUL))
            end
       else true)
      && separable s'
  end.

(** A file [ab] renamed to [ba]. *)
Definition file_ab : Path :=
  {| relative := "ab"; real := "/r/ab"; name := "ab";
     is_dir := false; is_symlink := false;
     is_symlink_method := method_text "/r" "ab" "/r/ab" |}.
Definition file_ba : Path :=
  {| relative := "ba"; real := "/r/ba"; name := "ba";
     is_dir := false; is_symlink := false;
     is_symlink_method := method_text "/r" "ba" "/r/ba" |}.
Definition ab_tree : Tree := TDir root_path [] [file_ab].
Definition ba_tree : Tree := TDir root_path [] [file_ba].
Definition ab_fs : gmap string bytes :=
  {[ "/r/ab" := list_byte_of_string "content" ]}.
Definition ba_fs : gmap string bytes :=
  {[ "/r/ba" := list_byte_of_string "content" ]}.

(** The path of the root node of a tree. *)
Definition tree_path (t : Tree) : Path :=
  match t with
  | TDir path _ _ => path
  | TCyclic path _ => path
  end.

(** A string that starts with a character other than NUL. *)
Definition headed (s : string) : bool :=
  match s with
  | EmptyString => false
  | String b _ => negb (bool_decide (b = NUL))
  end.

(** The descriptor of an entry when [name] is hashed and [is_link] is not,
    written out: the hash under its key, then the name, in the order
    [sorted] puts them. *)
Definition hash_part (self : Protocol) (path : Path) (h : string) : string :=
  if is_dir path then "dirhash:" +:+ h +:+ _entry_property_separator
  else if _include_data self then "data:" +:+ h +:+ _entry_property_separator
  else "".

(** An absolute, normalised path: a separator, then plain components. *)
Definition absolute_path (cs : list string) : string :=
  "/" +:+ str_join "/" cs.

(** The descriptor of one entry of a directory, as [get_descriptor] builds
    it in its list comprehension. *)
Definition entry_descriptor_of (self : Protocol) (e : Path * string)
    : string :=
  _get_entry_descriptor (_get_entry_properties self (fst e) (snd e)).

(** An entry whose name and hash hold no NUL character. *)
Definition clean (e : Path * string) : Prop :=
  nul_free (name (fst e)) = true /\ nul_free (snd e) = true.

(** ** Notions used in the further properties *)

(** [m] raises only exceptions that satisfy [E]. *)
Definition raises_only {S A} (E : exn -> Prop) (m : M S A) : Prop :=
  forall s e, m s = Raise e -> E e.

(** What a reduction of a scanned tree may raise: the scanner's error on a
    cyclic link that is not allowed, the "nothing to hash" error of a call
    that excludes empty directories, and the error of opening a file of the
    tree that is not there. *)
Definition scan_error (fs : gmap string bytes) (allow empty_dirs : bool)
    (real_paths : gset string) (cyclic : bool) (e : exn) : Prop :=
  (e = SymlinkRecursionError /\ allow = false /\ cyclic = true)
  \/ (e = ValueError NothingToHash /\ empty_dirs = false)
  \/ (exists k, e = IOError k /\ k ∈ real_paths /\ fs !! k = None).

(** ** Scans of the same shape *)

(** Each directory lists as many sub-directories and files as its
    counterpart, in the same order; the paired directories are related by
    [same_dir] and the paired files by [same_file].  A cyclic link and its
    counterpart sit at the same place and lead to the same place. *)
Inductive tree_alike (same_dir same_file : Path -> Path -> Prop)
    : Tree -> Tree -> Prop :=
| alike_dir path path' ds ds' fs fs' :
    same_dir path path' ->
    Forall2 (tree_alike same_dir same_file) ds ds' ->
    Forall2 same_file fs fs' ->
    tree_alike same_dir same_file (TDir path ds fs) (TDir path' ds' fs')
| alike_cyclic path target_path path' target_path' :
    same_dir path path' ->
    relative path = relative path' ->
    relative target_path = relative target_path' ->
    tree_alike same_dir same_file
      (TCyclic path target_path) (TCyclic path' target_path').

(** Entries of the same kind, both directories or both files, whatever they
    are called and wherever they are. *)
Definition same_kind (p p' : Path) : Prop := is_dir p = is_dir p'.

(** A directory and its counterpart under other names: only the root of a
    scan has the empty relative path. *)
Definition renamed_dir (p p' : Path) : Prop :=
  same_kind p p' /\ (relative p = "" <-> relative p' = "").

(** A file of [fs] and its counterpart in [fs'], with the same content or
    both missing. *)
Definition same_content (fs fs' : gmap string bytes) (p p' : Path) : Prop :=
  same_kind p p' /\ fs !! real p = fs' !! real p'.

(** A file of a scan is not a directory. *)
Fixpoint files_are_files (t : Tree) : bool :=
  match t with
  | TDir _ directories files =>
      forallb files_are_files directories
      && forallb (fun p => negb (is_dir p)) files
  | TCyclic _ _ => true
  end.

(** The same file rewritten: as readable as before. *)
Definition rewritten (fs fs' : gmap string bytes) (p p' : Path) : Prop :=
  p = p' /\ is_dir p = false
  /\ (is_Some (fs !! real p) <-> is_Some (fs' !! real p)).

(** The result of a node and that of its counterpart: at their own paths,
    with the same digest. *)
Definition same_result (p p' : Path) (r r' : Path * string) : Prop :=
  fst r = p /\ fst r' = p' /\ snd r = snd r'.

(** A protocol that leaves the names out, and one that leaves the data
    out. *)
Definition data_only : Protocol :=
  {| entry_properties := {[ "data" ]};
     _include_name := false; _include_data := true;
     _include_is_link := false; on_cyclic_link := "raise" |}.
Definition name_only : Protocol :=
  {| entry_properties := {[ "name" ]};
     _include_name := true; _include_data := false;
     _include_is_link := false; on_cyclic_link := "raise" |}.

(** The sample under other names, elsewhere. *)
Definition other_root : Path :=
  {| relative := ""; real := "/s"; name := "s";
     is_dir := true; is_symlink := false;
     is_symlink_method := method_text "/s" "" "/s" |}.
Definition other_sub : Path :=
  {| relative := "dir"; real := "/s/dir"; name := "dir";
     is_dir := true; is_symlink := false;
     is_symlink_method := method_text "/s" "dir" "/s/dir" |}.
Definition other_a : Path :=
  {| relative := "x.md"; real := "/s/x.md"; name := "x.md";
     is_dir := false; is_symlink := false;
     is_symlink_method := method_text "/s" "x.md" "/s/x.md" |}.
Definition other_b : Path :=
  {| relative := "y.md"; real := "/s/y.md"; name := "y.md";
     is_dir := false; is_symlink := false;
     is_symlink_method := method_text "/s" "y.md" "/s/y.md" |}.
Definition other_c : Path :=
  {| relative := "dir/z.md"; real := "/s/dir/z.md"; name := "z.md";
     is_dir := false; is_symlink := false;
     is_symlink_method := method_text "/s" "dir/z.md" "/s/dir/z.md" |}.
Definition other_d : Path :=
  {| relative := "dir/w.md"; real := "/s/x.md"; name := "w.md";
     is_dir := false; is_symlink := true;
     is_symlink_method := method_text "/s" "dir/w.md" "/s/x.md" |}.
Definition other_tree : Tree :=
  TDir other_root [TDir other_sub [] [other_c; other_d]] [other_a; other_b].
Definition other_fs : gmap string bytes :=
  {[ "/s/x.md" := list_byte_of_string "hello";
     "/s/y.md" := list_byte_of_string "";
     "/s/dir/z.md" := list_byte_of_string "some more bytes" ]}.

(** The sample with other contents. *)
Definition rewritten_fs : gmap string bytes :=
  {[ "/r/a.txt" := list_byte_of_string "bye";
     "/r/b.txt" := list_byte_of_string "not empty";
     "/r/sub/c.txt" := list_byte_of_string "" ]}.

(** ** A directory found elsewhere *)

(** The same entry under another root: it has the relative path and the
    name it had and is a directory or a file as before; its real path and
    the text the scanner prints for it go with the root. *)
Definition moved (p p' : Path) : Prop :=
  relative p = relative p' /\ name p = name p' /\ is_dir p = is_dir p'.

(** A file of [fs] found in [fs'] under another root, with the content it
    had. *)
Definition moved_file (fs fs' : gmap string bytes) (p p' : Path) : Prop :=
  moved p p' /\ fs !! real p = fs' !! real p'.

(** The sample copied to [/s]. *)
Definition copy_sub : Path :=
  {| relative := "sub"; real := "/s/sub"; name := "sub";
     is_dir := true; is_symlink := false;
     is_symlink_method := method_text "/s" "sub" "/s/sub" |}.
Definition copy_a : Path :=
  {| relative := "a.txt"; real := "/s/a.txt"; name := "a.txt";
     is_dir := false; is_symlink := false;
     is_symlink_method := method_text "/s" "a.txt" "/s/a.txt" |}.
Definition copy_b : Path :=
  {| relative := "b.txt"; real := "/s/b.txt"; name := "b.txt";
     is_dir := false; is_symlink := false;
     is_symlink_method := method_text "/s" "b.txt" "/s/b.txt" |}.
Definition copy_c : Path :=
  {| relative := "sub/c.txt"; real := "/s/sub/c.txt"; name := "c.txt";
     is_dir := false; is_symlink := false;
     is_symlink_method := method_text "/s" "sub/c.txt" "/s/sub/c.txt" |}.
Definition copy_d : Path :=
  {| relative := "sub/d.txt"; real := "/s/a.txt"; name := "d.txt";
     is_dir := false; is_symlink := true;
     is_symlink_method := method_text "/s" "sub/d.txt" "/s/a.txt" |}.
Definition copy_fs : gmap string bytes :=
  {[ "/s/a.txt" := list_byte_of_string "hello";
     "/s/b.txt" := list_byte_of_string "";
     "/s/sub/c.txt" := list_byte_of_string "some more bytes" ]}.

(** * Properties *)

(** ** The model on concrete inputs *)

Example split_ex : posixpath.split "/a//b/" = [""; "a"; ""; "b"; ""].
Proof. reflexivity. Qed.

Example normpath_ex :
  posixpath.normpath "/home/u/./d/../e//f" = "/home/u/e/f"
  /\ posixpath.normpath "//a/.." = "//"
  /\ posixpath.normpath "a/../.." = "..".
Proof. repeat split; vm_compute; reflexivity. Qed.

Example relpath_ex :
  posixpath.relpath "/home/u" "./d" "./d/link" = Ok ".."
  /\ posixpath.relpath "/" "./" "./a/b" = Ok "../.."
  /\ posixpath.relpath "/w" "./a/c" "./a/b" = Ok "../c".
Proof. repeat split; vm_compute; reflexivity. Qed.

Example get_match_patterns_ex :
  get_match_patterns None (Some ["*.pyc"; ".*"]) (Some ["pyc"; ".txt"]) true
  = ["*"; "!*.pyc"; "!.*"; "!.*/"; "!*.txt"].
Proof. vm_compute. reflexivity. Qed.

(** ** [sorted] *)

Lemma sorted_Sorted l : Sorted String.le (sorted l).
Proof. apply (Sorted_merge_sort String.le). Qed.

Lemma sorted_Permutation l : sorted l ≡ₚ l.
Proof. apply (merge_sort_Permutation String.le). Qed.

Lemma Sorted_le_unique (l1 l2 : list string) :
  Sorted String.le l1 -> Sorted String.le l2 -> l1 ≡ₚ l2 -> l1 = l2.
Proof. apply (Sorted_unique String.le). Qed.

Lemma sorted_perm_eq l1 l2 : l1 ≡ₚ l2 -> sorted l1 = sorted l2.
Proof.
  intros Hp. apply Sorted_le_unique; auto using sorted_Sorted.
  by rewrite !sorted_Permutation.
Qed.

Lemma sorted_join_sorted sep items :
  Spec.sorted_join sep items (str_join sep (sorted items)).
Proof.
  exists (sorted items). auto using sorted_Sorted, sorted_Permutation.
Qed.

Lemma sorted_join_unique sep items s1 s2 :
  Spec.sorted_join sep items s1 -> Spec.sorted_join sep items s2 -> s1 = s2.
Proof.
  intros (l1 & Hp1 & Hs1 & ->) (l2 & Hp2 & Hs2 & ->).
  f_equal. apply Sorted_le_unique; auto. by rewrite Hp1, Hp2.
Qed.

(** ** [Protocol] *)

Lemma Protocol_init_flags eps ocl self :
  Protocol_init eps ocl = Ok self ->
  entry_properties self = list_to_set eps
  /\ on_cyclic_link self = ocl
  /\ _include_name self = bool_decide ("name" ∈ entry_properties self)
  /\ _include_data self = bool_decide ("data" ∈ entry_properties self)
  /\ _include_is_link self = bool_decide ("is_link" ∈ entry_properties self).
Proof.
  unfold Protocol_init. repeat case_match; try discriminate.
  intros [= <-]. simpl. auto.
Qed.

Lemma format_property_str k v :
  format_property (k, PStr v) = Spec.render (k, v).
Proof. reflexivity. Qed.

(** Without [is_link] the entry properties are the pairs of the
    specification. *)
Lemma entry_properties_selected eps ocl self path h :
  Protocol_init eps ocl = Ok self -> "is_link" ∉ eps ->
  map format_property (_get_entry_properties self path h)
  = map Spec.render (Spec.selected_pairs (list_to_set eps) path h).
Proof.
  intros (Heps & _ & Hn & Hd & Hl)%Protocol_init_flags Hlink.
  unfold _get_entry_properties, Spec.selected_pairs.
  rewrite Hn, Hd, Hl, Heps.
  rewrite (bool_decide_false ("is_link" ∈ _))
    by (by rewrite elem_of_list_to_set).
  clear. destruct (is_dir path); repeat case_bool_decide; reflexivity.
Qed.

Lemma entry_descriptor_spec eps ocl self child :
  Protocol_init eps ocl = Ok self -> "is_link" ∉ eps ->
  Spec.child_descriptor (list_to_set eps) child
    (_get_entry_descriptor (_get_entry_properties self (fst child) (snd child))).
Proof.
  intros Hinit Hlink. unfold Spec.child_descriptor, _get_entry_descriptor.
  rewrite (entry_properties_selected _ _ _ _ _ Hinit Hlink).
  apply sorted_join_sorted.
Qed.

Lemma child_descriptor_unique eps child s1 s2 :
  Spec.child_descriptor eps child s1 -> Spec.child_descriptor eps child s2 ->
  s1 = s2.
Proof. apply sorted_join_unique. Qed.

Lemma directory_descriptor_unique eps children s1 s2 :
  Spec.directory_descriptor eps children s1 ->
  Spec.directory_descriptor eps children s2 -> s1 = s2.
Proof.
  intros (l1 & Hf1 & Hj1) (l2 & Hf2 & Hj2).
  assert (l1 = l2) as ->; [|by eapply sorted_join_unique].
  clear Hj1 Hj2. revert l2 Hf2.
  induction Hf1 as [|c x cs l1 Hx _ IH]; intros l2 Hf2; inv Hf2; [done|].
  f_equal; eauto using child_descriptor_unique.
Qed.

(** X17.  The descriptor of a directory node is the one the specification
    describes as long as [is_link] is not selected: every child contributes
    its selected [key:value] strings, sorted and joined with the one-byte
    property separator; the per-child strings are sorted and joined with
    the longer separator.  That string is determined by the specification,
    and [dir_apply] returns the hex digest of a fresh hash object fed with
    its UTF-8 encoding (unless the node is the empty root of a call that
    excludes empty directories). *)
Theorem directory_descriptor_without_is_link
    (H : HASH) (cwd : string) (filter_ : Filter)
    (eps : list string) (ocl : string) (self : Protocol)
    (path : Path) (ds fs : list (Path * string)) :
  Protocol_init eps ocl = Ok self -> "is_link" ∉ eps ->
  exists s,
    get_descriptor self cwd (Dir path ds fs) = Ok s
    /\ Spec.directory_descriptor (list_to_set eps) (ds ++ fs) s
    /\ (forall s', Spec.directory_descriptor (list_to_set eps) (ds ++ fs) s'
                   -> s' = s)
    /\ dir_apply H cwd filter_ self (Dir path ds fs)
       = (if negb (empty_dirs filter_)
             && (bool_decide (relative path = "")
                 && bool_decide (ds ++ fs = []))
          then Raise (ValueError NothingToHash)
          else Ok (path, hexdigest H (hnew H (encode_utf8 s)))).
Proof.
  intros Hinit Hlink. eexists. split; [reflexivity|].
  assert (Spec.directory_descriptor (list_to_set eps) (ds ++ fs)
            (str_join _entry_descriptor_separator
               (sorted (map (fun e => _get_entry_descriptor
                   (_get_entry_properties self (fst e) (snd e))) (ds ++ fs)))))
    as Hspec.
  { eexists. split; [|apply sorted_join_sorted].
    induction (ds ++ fs) as [|c l IH]; constructor; auto.
    by eapply entry_descriptor_spec. }
  split; [exact Hspec|]. split.
  { intros s' Hs'. by eapply directory_descriptor_unique. }
  unfold dir_apply, get_descriptor, node_path.
  replace (empty (Dir path ds fs)) with (bool_decide (ds ++ fs = []))
    by (destruct ds, fs; reflexivity).
  by destruct (_ && _).
Qed.

(** The default protocol on a directory holding one file. *)
Lemma directory_descriptor_without_is_link_witness :
  exists self s,
    Protocol_init default_entry_properties default_on_cyclic_link = Ok self
    /\ get_descriptor self "/" (Dir root_path [] [(a_txt, "5d41")]) = Ok s
    /\ s = "data:5d41" +:+ _entry_property_separator +:+ "name:a.txt"
    /\ Spec.directory_descriptor (list_to_set default_entry_properties)
         [(a_txt, "5d41")] s.
Proof.
  destruct (directory_descriptor_without_is_link hexdump "/" Filter_default
              default_entry_properties default_on_cyclic_link _
              root_path [] [(a_txt, "5d41")] eq_refl)
    as (s & Hs & Hspec & _).
  { unfold default_entry_properties. set_solver. }
  eexists _, s. split; [reflexivity|]. split; [exact Hs|].
  split; [|exact Hspec].
  vm_compute in Hs. injection Hs as <-. reflexivity.
Defined.

(** C1.  Where [is_link] is selected the code departs from the claim: what
    [_get_entry_properties] puts under the key is the method
    [path.is_symlink], not what the method returns, so the descriptor holds
    the text of the method where the claim has [True] or [False].  For a
    directory that holds the one file [a.txt], under the entry properties
    [name] and [is_link], the descriptor of the code is not the one of the
    specification. *)
Theorem is_link_value_is_the_method :
  exists self s s_claim,
    Protocol_init ["name"; "is_link"] "raise" = Ok self
    /\ get_descriptor self "/" (Dir root_path [] [(a_txt, "5d41")]) = Ok s
    /\ s = "is_link:" +:+ is_symlink_method a_txt
           +:+ _entry_property_separator +:+ "name:a.txt"
    /\ Spec.directory_descriptor (list_to_set ["name"; "is_link"])
         [(a_txt, "5d41")] s_claim
    /\ s_claim = "is_link:False" +:+ _entry_property_separator
                 +:+ "name:a.txt"
    /\ s <> s_claim
    /\ ~ Spec.directory_descriptor (list_to_set ["name"; "is_link"])
           [(a_txt, "5d41")] s.
Proof.
  assert (Spec.directory_descriptor (list_to_set ["name"; "is_link"])
            [(a_txt, "5d41")]
            ("is_link:False" +:+ _entry_property_separator +:+ "name:a.txt"))
    as Hclaim.
  { exists ["is_link:False" +:+ _entry_property_separator +:+ "name:a.txt"].
    split.
    - constructor; [|constructor].
      exists ["is_link:False"; "name:a.txt"].
      split; [vm_compute; apply perm_swap|].
      split; [|done]. repeat constructor.
    - eexists. split; [done|]. split; [repeat constructor|done]. }
  eexists _, _, _. split; [reflexivity|]. split; [by vm_compute|].
  split; [by vm_compute|]. split; [exact Hclaim|]. split; [done|].
  assert (("is_link:" +:+ is_symlink_method a_txt
           +:+ _entry_property_separator +:+ "name:a.txt")
          <> ("is_link:False" +:+ _entry_property_separator
              +:+ "name:a.txt")) as Hne by (by vm_compute).
  split; [exact Hne|].
  intros Hs. apply Hne. by eapply directory_descriptor_unique.
Qed.

Lemma entry_properties_supported (eps : list string) :
  (list_to_set eps : gset string) ⊆ EntryProperties.options
  <-> Forall (fun p => p ∈ ["name"; "data"; "is_link"]) eps.
Proof.
  rewrite Forall_forall. unfold EntryProperties.options,
    EntryProperties.NAME, EntryProperties.DATA, EntryProperties.IS_LINK.
  split.
  - intros Hsub p Hp. assert (p ∈ ({[ "name"; "data"; "is_link" ]} : gset string))
      as Hin by (apply Hsub; by apply elem_of_list_to_set).
    set_solver.
  - intros Hall p Hp%elem_of_list_to_set. specialize (Hall p Hp). set_solver.
Qed.

Lemma on_cyclic_link_supported (ocl : string) :
  ocl ∈ OnCyclicLink.options <-> ocl ∈ ["raise"; "hash_reference"].
Proof.
  unfold OnCyclicLink.options, OnCyclicLink.RAISE,
    OnCyclicLink.HASH_REFERENCE. set_solver.
Qed.

Lemma Protocol_init_cases eps ocl :
  Protocol_init eps ocl =
  if decide (Forall (fun p => p ∈ ["name"; "data"; "is_link"]) eps) then
    if decide ("name" ∈ eps \/ "data" ∈ eps) then
      if decide (ocl ∈ ["raise"; "hash_reference"]) then
        Ok {| entry_properties := list_to_set eps;
              _include_name := bool_decide ("name" ∈ eps);
              _include_data := bool_decide ("data" ∈ eps);
              _include_is_link := bool_decide ("is_link" ∈ eps);
              on_cyclic_link := ocl |}
      else Raise (ValueError InvalidOnCyclicLink)
    else Raise (ValueError NameOrDataRequired)
  else Raise (ValueError EntryPropertiesNotSupported).
Proof.
  unfold Protocol_init.
  rewrite (bool_decide_ext _ _ (entry_properties_supported eps)).
  rewrite (bool_decide_ext _ _ (on_cyclic_link_supported ocl)).
  unfold EntryProperties.NAME, EntryProperties.DATA, EntryProperties.IS_LINK.
  rewrite !(bool_decide_ext _ _ (elem_of_list_to_set _ eps)).
  repeat case_decide; repeat case_bool_decide; simpl; try done; tauto.
Qed.

Lemma Protocol_init_invalid eps ocl :
  Spec.invalid_protocol eps ocl ->
  exists why, Protocol_init eps ocl = Raise (ValueError why).
Proof.
  rewrite Protocol_init_cases. intros Hbad.
  destruct (decide (Forall _ eps)) as [Hall|]; [|eauto].
  destruct (decide (_ \/ _)); [|eauto].
  destruct (decide (ocl ∈ _)); [|eauto].
  exfalso. destruct Hbad as [[Hn Hd]|[Hex|Hocl]]; [tauto| |done].
  apply Exists_exists in Hex as (p & Hp & Hnot).
  rewrite Forall_forall in Hall. naive_solver.
Qed.

Lemma Protocol_init_valid eps ocl :
  ~ Spec.invalid_protocol eps ocl ->
  exists self, Protocol_init eps ocl = Ok self.
Proof.
  rewrite Protocol_init_cases. unfold Spec.invalid_protocol. intros Hgood.
  destruct (decide (Forall _ eps)) as [Hall|Hall].
  - destruct (decide (_ \/ _)); [|exfalso; apply Hgood; left; tauto].
    destruct (decide (ocl ∈ _)); [eauto|].
    exfalso; apply Hgood. by right; right.
  - exfalso; apply Hgood. right; left.
    apply not_Forall_Exists; [intros ?; apply _|done].
Qed.

Lemma Protocol_init_value_error eps ocl e :
  Protocol_init eps ocl = Raise e -> exists why, e = ValueError why.
Proof.
  unfold Protocol_init. repeat case_match; intros [= <-]; eauto.
Qed.

(** C6.  [Protocol.__init__] raises exactly on the invalid configurations
    (neither [name] nor [data] selected, a property outside the three known
    ones, or an unknown cyclic-link policy); what it raises is a
    [ValueError]; otherwise it returns the protocol.  The error is raised
    when the protocol is constructed: [dirhash] and [included_paths] return
    it whatever the tree and the files are. *)
Theorem Protocol_init_raises_iff_invalid (eps : list string) (ocl : string) :
  ((exists why, Protocol_init eps ocl = Raise (ValueError why))
   <-> Spec.invalid_protocol eps ocl)
  /\ ((exists self, Protocol_init eps ocl = Ok self
                    /\ entry_properties self = list_to_set eps
                    /\ on_cyclic_link self = ocl)
      <-> ~ Spec.invalid_protocol eps ocl)
  /\ (forall e, Protocol_init eps ocl = Raise e ->
        (exists why, e = ValueError why)
        /\ forall H fs cwd t filtering chunk_size jobs,
             dirhash H fs cwd t filtering
               (ProtocolKwargs (Some eps) (Some ocl)) chunk_size jobs
             = Raise e
             /\ included_paths t filtering
                  (ProtocolKwargs (Some eps) (Some ocl)) = Raise e).
Proof.
  assert (forall self, Protocol_init eps ocl = Ok self ->
                       ~ Spec.invalid_protocol eps ocl) as Hok.
  { intros self Hs (why & Hw)%Protocol_init_invalid. congruence. }
  split; [|split].
  - split; [|apply Protocol_init_invalid].
    intros (why & Hw). destruct (decide (Spec.invalid_protocol eps ocl))
      as [|(self & Hs)%Protocol_init_valid]; [done|congruence].
  - split.
    + intros (self & Hs & _). eauto.
    + intros (self & Hs)%Protocol_init_valid. exists self.
      split; [done|]. apply Protocol_init_flags in Hs. tauto.
  - intros e He. split; [by eapply Protocol_init_value_error|].
    intros. unfold dirhash, included_paths. simpl. by rewrite He.
Qed.

(** ** [get_match_patterns] *)

Lemma deduplicate_loop (items : list string) (items_set : gset string)
    (dd_items : list string) :
  snd (fold_left deduplicate_step items (items_set, dd_items))
  = dd_items
    ++ filter (fun y => y ∉ items_set) (Spec.first_occurrences items).
Proof.
  revert items_set dd_items.
  induction items as [|x items IH]; intros items_set dd_items.
  { simpl. by rewrite app_nil_r. }
  cbn [fold_left Spec.first_occurrences].
  destruct (decide (x ∈ items_set)) as [Hx|Hx].
  - replace (deduplicate_step (items_set, dd_items) x)
      with (items_set, dd_items)
      by (unfold deduplicate_step; by rewrite bool_decide_false by auto).
    rewrite IH, filter_cons_False by auto.
    f_equal. rewrite list_filter_filter. apply list_filter_iff.
    intros y. split; [|tauto]. intros Hy. split; [done|]. by intros ->.
  - replace (deduplicate_step (items_set, dd_items) x)
      with ({[ x ]} ∪ items_set, dd_items ++ [x])
      by (unfold deduplicate_step; by rewrite bool_decide_true by auto).
    rewrite IH, filter_cons_True by done.
    rewrite <- app_assoc. simpl. do 2 f_equal.
    rewrite list_filter_filter. apply list_filter_iff. set_solver.
Qed.

Lemma filter_all {A} (P : A -> Prop) `{!forall x, Decision (P x)} (l : list A) :
  (forall x, P x) -> filter P l = l.
Proof.
  intros HP. induction l as [|x l IH]; [done|].
  by rewrite filter_cons_True, IH.
Qed.

Lemma deduplicate_first_occurrences items :
  deduplicate items = Spec.first_occurrences items.
Proof.
  unfold deduplicate. rewrite deduplicate_loop. simpl.
  apply filter_all. intros y. set_solver.
Qed.

Lemma first_occurrences_elem_of l x :
  x ∈ Spec.first_occurrences l <-> x ∈ l.
Proof.
  induction l as [|y l IH]; simpl; [done|].
  rewrite !elem_of_cons, list_elem_of_filter, IH.
  destruct (decide (x = y)); tauto.
Qed.

Lemma first_occurrences_NoDup l : NoDup (Spec.first_occurrences l).
Proof.
  induction l as [|y l IH]; simpl; constructor.
  - rewrite list_elem_of_filter. tauto.
  - by apply NoDup_filter.
Qed.

Lemma first_occurrences_snoc l x :
  Spec.first_occurrences (l ++ [x])
  = if decide (x ∈ l) then Spec.first_occurrences l
    else Spec.first_occurrences l ++ [x].
Proof.
  induction l as [|y l IH].
  { by rewrite decide_False by (by intros ?%elem_of_nil). }
  cbn [app Spec.first_occurrences]. rewrite IH.
  destruct (decide (x ∈ l)) as [Hin|Hin].
  - by rewrite decide_True by (by right).
  - rewrite filter_app. destruct (decide (x = y)) as [->|Hne].
    + rewrite decide_True by (by left).
      by rewrite filter_cons_False, filter_nil, app_nil_r by auto.
    + rewrite decide_False by (by intros [?|?]%elem_of_cons).
      by rewrite filter_cons_True by done.
Qed.

Lemma extension_pattern_dotted ext :
  extension_pattern ext = "*" +:+ Spec.dotted ext.
Proof.
  unfold extension_pattern, Spec.dotted, startswith.
  destruct ext as [|a ext]; [done|]. simpl.
  case_bool_decide as Ha; simpl.
  - by subst a.
  - repeat case_match; done.
Qed.

Lemma fold_left_append {A B} (f : B -> A) (l : list B) (acc : list A) :
  fold_left (fun acc x => acc ++ [f x]) l acc = acc ++ map f l.
Proof.
  revert acc. induction l as [|x l IH]; intros acc; simpl.
  - by rewrite app_nil_r.
  - by rewrite IH, <- app_assoc.
Qed.

(** C8.  [get_match_patterns] returns the include list (default [["*"]]),
    then every ignore pattern negated, then the two negated hidden-entry
    patterns when [ignore_hidden] is set, then one negated [*.<ext>] per
    ignored extension (a dot is put in front of an extension that has
    none); duplicates are removed and every pattern stays where it first
    occurs.  The function is pure: it takes no file system. *)
Theorem get_match_patterns_spec
    (match_ ignore ignore_extensions : option (list string))
    (ignore_hidden : bool) :
  let patterns :=
    Spec.match_patterns match_ ignore ignore_extensions ignore_hidden in
  get_match_patterns match_ ignore ignore_extensions ignore_hidden
  = Spec.first_occurrences patterns
  /\ NoDup (get_match_patterns match_ ignore ignore_extensions ignore_hidden)
  /\ (forall p,
        p ∈ get_match_patterns match_ ignore ignore_extensions ignore_hidden
        <-> p ∈ patterns)
  /\ (forall l p,
        Spec.first_occurrences (l ++ [p])
        = if decide (p ∈ l) then Spec.first_occurrences l
          else Spec.first_occurrences l ++ [p]).
Proof.
  intros patterns.
  assert (get_match_patterns match_ ignore ignore_extensions ignore_hidden
          = Spec.first_occurrences patterns) as ->.
  { unfold get_match_patterns, patterns, Spec.match_patterns.
    rewrite deduplicate_first_occurrences, fold_left_append.
    f_equal. rewrite map_app, map_map.
    rewrite (map_ext (fun x => "!" +:+ extension_pattern x)
                     (fun ext => Spec.negation ("*" +:+ Spec.dotted ext)))
      by (intros ext; by rewrite extension_pattern_dotted).
    destruct match_, ignore, ignore_hidden;
      rewrite ?map_app, <- ?app_assoc; reflexivity. }
  split; [done|]. split; [apply first_occurrences_NoDup|].
  split; [intros p; apply first_occurrences_elem_of|].
  apply first_occurrences_snoc.
Qed.

(** ** Induction on scanned trees *)

Lemma Tree_ind (P : Tree -> Prop) :
  (forall path directories files,
     Forall P directories -> P (TDir path directories files)) ->
  (forall path target_path, P (TCyclic path target_path)) ->
  forall t, P t.
Proof.
  intros Hdir Hcyc. fix IH 1. intros [path ds fs|path tp]; [|apply Hcyc].
  apply Hdir. induction ds as [|d ds IHds]; constructor; [apply IH|apply IHds].
Qed.

(** ** Running the store monad against the store-free reduction *)

Section agrees.
Context {S : Type} (I : S -> Prop).

Lemma agrees_ret {A} (a : A) : agrees I (ret a) (Some a).
Proof. intros s Hs. by exists s. Qed.

Lemma agrees_lift {A} (r : result A) : agrees I (lift r) (to_option r).
Proof. intros s Hs. destruct r; simpl; eauto. Qed.

Lemma agrees_bind {A B} (m : M S A) (o : option A) (k : A -> M S B)
    (ko : A -> option B) :
  agrees I m o -> (forall a, o = Some a -> agrees I (k a) (ko a)) ->
  agrees I (bind m k) (o ≫= ko).
Proof.
  intros Hm Hk s Hs. specialize (Hm s Hs). unfold bind.
  destruct o as [a|]; simpl.
  - destruct Hm as (s' & -> & Hs'). by apply Hk.
  - destruct Hm as (e & ->). eauto.
Qed.

Lemma agrees_traverse {A B} (f : A -> M S B) (g : A -> option B) l :
  Forall (fun x => agrees I (f x) (g x)) l ->
  agrees I (traverse f l) (mapM g l).
Proof.
  induction 1 as [|x l Hx _ IH]; [apply agrees_ret|].
  cbn [traverse mapM]. apply agrees_bind; [done|]. intros y _.
  apply (agrees_bind _ _ _ (fun k => mret (y :: k))); [done|].
  intros ys _. apply agrees_ret.
Qed.

End agrees.

(** *** The serial path *)

Section serial.
Context (H : HASH) (fs : gmap string bytes) (cwd : string)
  (filter_ : Filter) (protocol : Protocol) (chunk_size : Z).

Lemma file_apply_serial_agrees path :
  agrees (cache_ok H fs chunk_size) (file_apply_serial H fs chunk_size path) (file_hash H fs chunk_size path).
Proof.
  intros cache Hc. unfold file_apply_serial, bind, _get_filehash_cached,
    file_hash.
  destruct (cache !! real path) as [h|] eqn:Hget.
  - rewrite (Hc _ _ Hget). eauto.
  - destruct (_get_filehash H fs (real path) chunk_size) as [h|e] eqn:Hh;
      [|eauto].
    eexists. split; [reflexivity|]. intros k h' Hk.
    destruct (decide (k = real path)) as [->|Hne].
    + rewrite lookup_insert_eq in Hk. congruence.
    + rewrite lookup_insert_ne in Hk by done. eauto.
Qed.

Lemma scantree_serial_agrees allow t :
  agrees (cache_ok H fs chunk_size)
    (scantree t (file_apply_serial H fs chunk_size)
       (fun n => lift (dir_apply H cwd filter_ protocol n)) allow)
    (tree_hash H fs cwd filter_ protocol chunk_size allow t).
Proof.
  induction t as [path ds files IH|path tp] using Tree_ind.
  - cbn [scantree tree_hash].
    apply agrees_bind; [by apply agrees_traverse|]. intros ds' _.
    apply agrees_bind.
    { apply agrees_traverse, Forall_forall. intros p _.
      apply file_apply_serial_agrees. }
    intros fs' _. apply agrees_lift.
  - cbn [scantree tree_hash]. destruct allow; [apply agrees_lift|].
    intros s _. by eexists.
Qed.

Lemma dirhash_serial_tree_hash t :
  digest_of (dirhash_serial H fs cwd t filter_ protocol chunk_size)
  = snd <$> tree_hash H fs cwd filter_ protocol chunk_size
              (allow_cyclic_links protocol) t.
Proof.
  unfold dirhash_serial.
  pose proof (scantree_serial_agrees (allow_cyclic_links protocol) t ∅) as Ha.
  destruct (tree_hash _ _ _ _ _ _ _ t) as [[p d]|].
  - destruct Ha as (s' & -> & _); [|done]. by intros ?? ?%lookup_empty_Some.
  - destruct Ha as (e & ->); [|done]. by intros ?? ?%lookup_empty_Some.
Qed.

End serial.

(** *** The parallel path *)

Lemma traverse_extract_real_paths files real_paths :
  traverse extract_real_paths files real_paths
  = Ok (files, list_to_set (map real files) ∪ real_paths).
Proof.
  revert real_paths. induction files as [|p files IH]; intros real_paths.
  - simpl. unfold ret. do 2 f_equal. set_solver.
  - cbn [traverse]. unfold bind at 1. unfold extract_real_paths at 1.
    unfold bind at 1. rewrite IH. unfold ret. do 2 f_equal.
    cbn [map list_to_set]. set_solver.
Qed.

Lemma scantree_extract_real_paths allow t real_paths :
  scantree t extract_real_paths identity_dir_apply allow real_paths
  = if allow || negb (has_cyclic_link t)
    then Ok (t, real_paths_of t ∪ real_paths)
    else Raise SymlinkRecursionError.
Proof.
  revert real_paths.
  induction t as [path ds files IH|path tp] using Tree_ind;
    intros real_paths.
  - cbn [scantree has_cyclic_link real_paths_of].
    assert (forall rp,
      traverse (fun d => scantree d extract_real_paths identity_dir_apply
                           allow) ds rp
      = if allow || negb (existsb has_cyclic_link ds)
        then Ok (ds, ⋃ (map real_paths_of ds) ∪ rp)
        else Raise SymlinkRecursionError) as Hds.
    { clear real_paths. induction IH as [|d ds Hd _ IHds]; intros rp.
      - simpl. rewrite orb_true_r. unfold ret. do 2 f_equal. clear.
        set_solver.
      - cbn [traverse existsb map]. unfold bind at 1. rewrite Hd.
        rewrite negb_orb, orb_andb_distrib_r.
        destruct (allow || negb (has_cyclic_link d)); [|done].
        unfold bind at 1. rewrite IHds.
        destruct (allow || negb (existsb has_cyclic_link ds)); [|done].
        unfold ret. do 2 f_equal. rewrite union_list_cons.
        clear. set_solver. }
    unfold bind at 1. rewrite Hds.
    destruct (allow || negb (existsb has_cyclic_link ds)); [|done].
    unfold bind at 1. rewrite traverse_extract_real_paths.
    unfold identity_dir_apply, ret. do 2 f_equal.
    generalize (⋃ map real_paths_of ds).
    generalize (list_to_set (map real files) : gset string).
    clear. set_solver.
  - cbn [scantree has_cyclic_link real_paths_of]. destruct allow; simpl.
    + unfold ret. by rewrite union_empty_l_L.
    + done.
Qed.

Lemma _parmap_mapM {A B} (func : A -> result B) (l : list A) (jobs : Z) :
  (1 <= jobs)%Z ->
  match mapM (fun x => to_option (func x)) l with
  | Some results => _parmap func l jobs = Ok results
  | None => exists e, _parmap func l jobs = Raise e
  end.
Proof.
  intros Hjobs. unfold _parmap.
  assert (agrees (fun _ : unit => True)
            (traverse (fun x => lift (func x)) l)
            (mapM (fun x => to_option (func x)) l)) as Ha.
  { apply agrees_traverse, Forall_forall. intros x _. apply agrees_lift. }
  specialize (Ha tt I).
  replace (jobs <? 1)%Z with false by lia.
  destruct (mapM _ l) as [results|].
  - destruct Ha as ([] & -> & _). by destruct (jobs =? 1)%Z.
  - destruct Ha as (e & ->). exists e. by destruct (jobs =? 1)%Z.
Qed.

Lemma dict_of_pairs_spec H fs chunk_size keys vals :
  Forall2 (fun k v => _get_filehash H fs k chunk_size = Ok v) keys vals ->
  cache_ok H fs chunk_size (dict_of_pairs (zip keys vals))
  /\ forall k, k ∈ keys -> is_Some (dict_of_pairs (zip keys vals) !! k).
Proof.
  unfold dict_of_pairs. intros Hkv.
  assert (forall d : gmap string string,
    cache_ok H fs chunk_size d ->
    cache_ok H fs chunk_size
      (fold_left (fun d kv => <[fst kv := snd kv]> d) (zip keys vals) d)
    /\ forall k, k ∈ keys \/ is_Some (d !! k) ->
         is_Some (fold_left (fun d kv => <[fst kv := snd kv]> d)
                            (zip keys vals) d !! k)) as Hgen.
  { induction Hkv as [|k v keys vals Hk _ IH]; intros d Hd.
    - simpl. split; [done|]. intros k [?%elem_of_nil|?]; done.
    - cbn [zip zip_with fold_left fst snd].
      destruct (IH (<[k:=v]> d)) as [Hok Hdom].
      { intros k' v' Hk'. destruct (decide (k' = k)) as [->|Hne].
        - rewrite lookup_insert_eq in Hk'. congruence.
        - rewrite lookup_insert_ne in Hk' by done. eauto. }
      split; [done|]. intros k' Hk'. apply Hdom.
      destruct (decide (k' = k)) as [->|Hne].
      + right. rewrite lookup_insert_eq. eauto.
      + rewrite lookup_insert_ne by done.
        destruct Hk' as [[?|?]%elem_of_cons|?]; auto. done. }
  destruct (Hgen ∅) as [Hok Hdom]; [by intros ?? ?%lookup_empty_Some|].
  split; [done|]. auto.
Qed.

Section parallel.
Context (H : HASH) (fs : gmap string bytes) (cwd : string)
  (filter_ : Filter) (protocol : Protocol) (chunk_size : Z).

Lemma file_apply_parallel_agrees table path :
  cache_ok H fs chunk_size table -> is_Some (table !! real path) ->
  agrees (fun _ : unit => True) (file_apply_parallel table path)
         (file_hash H fs chunk_size path).
Proof.
  intros Hok [h Hh] s _. unfold file_apply_parallel, file_hash.
  rewrite Hh, (Hok _ _ Hh). by exists s.
Qed.

Lemma apply_parallel_agrees table t :
  cache_ok H fs chunk_size table ->
  (forall k, k ∈ real_paths_of t -> is_Some (table !! k)) ->
  agrees (fun _ : unit => True)
    (apply (file_apply_parallel table)
       (fun n => lift (dir_apply H cwd filter_ protocol n)) t)
    (tree_hash H fs cwd filter_ protocol chunk_size true t).
Proof.
  intros Hok. induction t as [path ds files IH|path tp] using Tree_ind;
    intros Hdom.
  - cbn [apply tree_hash]. cbn [real_paths_of] in Hdom.
    apply agrees_bind.
    { apply agrees_traverse. rewrite Forall_forall in *. intros d Hd.
      apply IH; [done|]. intros k Hk. apply Hdom.
      apply elem_of_union_l, elem_of_union_list.
      exists (real_paths_of d). split; [|done]. by apply list_elem_of_fmap_2. }
    intros ds' _. apply agrees_bind; [|intros; apply agrees_lift].
    apply agrees_traverse, Forall_forall. intros p Hp.
    apply file_apply_parallel_agrees; [done|]. apply Hdom.
    apply elem_of_union_r, elem_of_list_to_set. by apply list_elem_of_fmap_2.
  - cbn [apply tree_hash]. apply agrees_lift.
Qed.

Lemma tree_hash_cyclic_refused t :
  has_cyclic_link t = true ->
  tree_hash H fs cwd filter_ protocol chunk_size false t = None.
Proof.
  induction t as [path ds files IH|path tp] using Tree_ind; [|done].
  cbn [has_cyclic_link tree_hash]. intros (d & Hd & Hc)%existsb_exists.
  rewrite (mapM_None_2 _ ds); [done|].
  apply Exists_exists. exists d. rewrite Forall_forall in IH.
  apply list_elem_of_In in Hd. auto.
Qed.

Lemma tree_hash_no_cyclic allow t :
  has_cyclic_link t = false ->
  tree_hash H fs cwd filter_ protocol chunk_size allow t
  = tree_hash H fs cwd filter_ protocol chunk_size true t.
Proof.
  induction t as [path ds files IH|path tp] using Tree_ind; [|done].
  cbn [has_cyclic_link tree_hash]. intros Hc.
  rewrite (Forall_mapM_ext _ (tree_hash H fs cwd filter_ protocol
                                chunk_size true) ds); [done|].
  rewrite Forall_forall in *. intros d Hd. apply IH; [done|].
  destruct (has_cyclic_link d) eqn:Hcd; [|done].
  rewrite <- Hc. symmetry. apply existsb_exists. exists d.
  by rewrite <- list_elem_of_In.
Qed.

Lemma tree_hash_reads allow t r k :
  tree_hash H fs cwd filter_ protocol chunk_size allow t = Some r ->
  k ∈ real_paths_of t ->
  is_Some (to_option (_get_filehash H fs k chunk_size)).
Proof.
  revert r. induction t as [path ds files IH|path tp] using Tree_ind;
    intros r; cbn [tree_hash real_paths_of]; [|set_solver].
  intros Hr Hk.
  destruct (mapM _ ds) as [ds'|] eqn:Hds; [|done]. simpl in Hr.
  destruct (mapM _ files) as [fs'|] eqn:Hfs; [|done].
  apply elem_of_union in Hk as [Hk|Hk].
  - apply elem_of_union_list in Hk as (X & HX & Hk).
    apply list_elem_of_fmap in HX as (d & -> & Hd).
    assert (is_Some (mapM (tree_hash H fs cwd filter_ protocol chunk_size
                             allow) ds)) as Hsome by (rewrite Hds; eauto).
    apply mapM_is_Some_1 in Hsome. rewrite Forall_forall in IH, Hsome.
    destruct (Hsome d Hd) as [rd Hrd]. eauto.
  - apply elem_of_list_to_set, list_elem_of_fmap in Hk as (p & -> & Hp).
    assert (is_Some (mapM (file_hash H fs chunk_size) files)) as Hsome
      by (rewrite Hfs; eauto).
    apply mapM_is_Some_1 in Hsome. rewrite Forall_forall in Hsome.
    destruct (Hsome p Hp) as [rp Hrp]. unfold file_hash in Hrp.
    destruct (_get_filehash H fs (real p) chunk_size); [by eexists|done].
Qed.

(** Both paths return the digest of the store-free reduction. *)
Lemma dirhash_parallel_tree_hash t jobs :
  (1 < jobs)%Z ->
  digest_of (dirhash_parallel H fs cwd t filter_ protocol chunk_size jobs)
  = snd <$> tree_hash H fs cwd filter_ protocol chunk_size
              (allow_cyclic_links protocol) t.
Proof.
  intros Hjobs. unfold dirhash_parallel.
  rewrite scantree_extract_real_paths.
  destruct (allow_cyclic_links protocol || negb (has_cyclic_link t))
    eqn:Hallow.
  2: { apply orb_false_iff in Hallow as [-> Hc%negb_false_iff].
       by rewrite tree_hash_cyclic_refused. }
  assert (tree_hash H fs cwd filter_ protocol chunk_size
            (allow_cyclic_links protocol) t
          = tree_hash H fs cwd filter_ protocol chunk_size true t) as Htrue.
  { apply orb_true_iff in Hallow as [->|Hc%negb_true_iff]; [done|].
    by apply tree_hash_no_cyclic. }
  pose proof (_parmap_mapM (fun p => _get_filehash H fs p chunk_size)
                (elements (real_paths_of t ∪ ∅)) jobs ltac:(lia)) as Hpar.
  destruct (mapM _ (elements _)) as [file_hashes|] eqn:Hmap.
  - rewrite Hpar. apply mapM_Some_1 in Hmap.
    destruct (dict_of_pairs_spec H fs chunk_size
                (elements (real_paths_of t ∪ ∅)) file_hashes)
      as [Hok Hdom].
    { eapply Forall2_impl; [exact Hmap|]. intros k v Hkv. simpl in Hkv.
      destruct (_get_filehash H fs k chunk_size); simpl in Hkv;
        [congruence|discriminate]. }
    assert (forall k, k ∈ real_paths_of t ->
              is_Some (dict_of_pairs
                         (zip (elements (real_paths_of t ∪ ∅)) file_hashes)
                       !! k)) as Hdom'.
    { intros k Hk. apply Hdom, elem_of_elements. set_solver. }
    pose proof (apply_parallel_agrees _ t Hok Hdom' tt I) as Ha.
    rewrite Htrue.
    destruct (tree_hash _ _ _ _ _ _ true t) as [[p d]|].
    + by destruct Ha as ([] & -> & _).
    + by destruct Ha as (e & ->).
  - destruct Hpar as (e & ->). simpl. rewrite Htrue.
    destruct (tree_hash _ _ _ _ _ _ true t) as [r|] eqn:Hr; [|done].
    exfalso. apply mapM_None_1, Exists_exists in Hmap as (k & Hk & Hnone).
    destruct (tree_hash_reads true t r k Hr) as [h Hh]; [set_solver|].
    congruence.
Qed.

End parallel.

(** The digest of a call, whichever path it takes. *)
Lemma dirhash_tree_hash H fs cwd t filtering protocol chunk_size jobs :
  (1 <= jobs)%Z ->
  digest_of (dirhash H fs cwd t filtering protocol chunk_size jobs)
  = match _get_instance_protocol protocol with
    | Ok p =>
        snd <$> tree_hash H fs cwd (_get_instance_filter filtering) p
                  chunk_size (allow_cyclic_links p) t
    | Raise _ => None
    end.
Proof.
  intros Hjobs. unfold dirhash.
  destruct (_get_instance_protocol protocol) as [p|e]; [|done].
  destruct (jobs =? 1)%Z eqn:Hj.
  - apply dirhash_serial_tree_hash.
  - apply dirhash_parallel_tree_hash. lia.
Qed.

(** C3.  With more than one job, [dirhash] returns the digest that the
    serial call returns (and raises when the serial call raises).  The
    discovery scan of the parallel path hashes nothing: it returns the tree
    unchanged and the set of the real paths of its files, which is handed to
    the pool as a list without duplicates. *)
Theorem serial_parallel_same_digest
    (H : HASH) (fs : gmap string bytes) (cwd : string) (t : Tree)
    (filtering : option Filter) (protocol : protocol_arg)
    (chunk_size jobs : Z) :
  (1 < jobs)%Z ->
  digest_of (dirhash H fs cwd t filtering protocol chunk_size jobs)
  = digest_of (dirhash H fs cwd t filtering protocol chunk_size 1)
  /\ (forall allow root_node real_paths,
        scantree t extract_real_paths identity_dir_apply allow ∅
        = Ok (root_node, real_paths) ->
        root_node = t
        /\ real_paths = real_paths_of t
        /\ NoDup (elements real_paths)).
Proof.
  intros Hjobs. split.
  - by rewrite !dirhash_tree_hash by lia.
  - intros allow root_node real_paths.
    rewrite scantree_extract_real_paths.
    destruct (allow || negb (has_cyclic_link t)); [|done].
    intros [= <- <-]. split; [done|]. split; [|apply NoDup_elements].
    apply union_empty_r_L.
Qed.

Lemma serial_parallel_same_digest_witness :
  digest_of (dirhash sum16 hello_fs "/" hello_tree None ProtocolNone 2 4)
  = Some "0665"
  /\ digest_of (dirhash sum16 hello_fs "/" hello_tree None ProtocolNone 2 1)
     = Some "0665".
Proof.
  pose proof (serial_parallel_same_digest sum16 hello_fs "/" hello_tree None
                ProtocolNone 2 4 ltac:(lia)) as [Heq _].
  split; [rewrite Heq|]; vm_compute; reflexivity.
Defined.

(** ** Listing order *)

Lemma tree_perm_ind' (P : Tree -> Tree -> Prop) :
  (forall path ds ds' ds'' fs fs',
     Forall2 P ds ds' -> ds' ≡ₚ ds'' -> fs ≡ₚ fs' ->
     P (TDir path ds fs) (TDir path ds'' fs')) ->
  (forall path target_path,
     P (TCyclic path target_path) (TCyclic path target_path)) ->
  forall t t', tree_perm t t' -> P t t'.
Proof.
  intros Hdir Hcyc. fix IH 3. intros t t' [path ds ds' ds'' fs fs' Hds Hp Hf|].
  - apply (Hdir path ds ds' ds'' fs fs'); [|done..].
    clear Hp. induction Hds as [|d d' ds ds' Hd _ IHds]; constructor.
    + apply IH, Hd.
    + apply IHds.
  - apply Hcyc.
Qed.

Lemma mapM_Permutation {A B} (f : A -> option B) (l l' : list A) :
  l ≡ₚ l' ->
  match mapM f l with
  | Some k => exists k', mapM f l' = Some k' /\ k ≡ₚ k'
  | None => mapM f l' = None
  end.
Proof.
  induction 1 as [|x l l' _ IH|x y l|l1 l2 l3 _ IH1 _ IH2].
  - by exists [].
  - cbn [mapM]. destruct (f x) as [b|]; [|done]. simpl.
    destruct (mapM f l) as [k|].
    { destruct IH as (k' & -> & Hk). simpl. eauto. }
    { by rewrite IH. }
  - cbn [mapM].
    destruct (f x) as [bx|], (f y) as [b|], (mapM f l) as [k|];
      simpl; try done.
    eexists. split; [done|]. apply perm_swap.
  - destruct (mapM f l1) as [k1|].
    { destruct IH1 as (k2 & Hk2 & Hp12). rewrite Hk2 in IH2.
      destruct IH2 as (k3 & Hk3 & Hp23). exists k3. split; [done|].
      by etrans. }
    { by rewrite IH1 in IH2. }
Qed.

Lemma get_descriptor_Permutation self cwd path path' ds fs ds' fs' :
  ds ++ fs ≡ₚ ds' ++ fs' ->
  get_descriptor self cwd (Dir path ds fs)
  = get_descriptor self cwd (Dir path' ds' fs').
Proof.
  intros Hp. cbn [get_descriptor]. f_equal. f_equal.
  apply sorted_perm_eq. by apply Permutation_map.
Qed.

Lemma dir_apply_Permutation H cwd filter_ protocol path ds fs ds' fs' :
  ds ≡ₚ ds' -> fs ≡ₚ fs' ->
  dir_apply H cwd filter_ protocol (Dir path ds fs)
  = dir_apply H cwd filter_ protocol (Dir path ds' fs').
Proof.
  intros Hd Hf. unfold dir_apply.
  rewrite (get_descriptor_Permutation _ _ path path ds fs ds' fs')
    by (by apply Permutation_app).
  replace (empty (Dir path ds' fs')) with (empty (Dir path ds fs)); [done|].
  apply Permutation_length in Hd, Hf.
  by destruct ds, ds', fs, fs'.
Qed.

Lemma tree_hash_Permutation H fs cwd filter_ protocol chunk_size allow t t' :
  tree_perm t t' ->
  tree_hash H fs cwd filter_ protocol chunk_size allow t
  = tree_hash H fs cwd filter_ protocol chunk_size allow t'.
Proof.
  induction 1 as [path ds ds' ds'' files files' IH Hds Hfs|path tp]
    using tree_perm_ind'; [|done].
  cbn [tree_hash].
  rewrite (Forall2_mapM_ext _ (tree_hash H fs cwd filter_ protocol
                                 chunk_size allow) ds ds') by done.
  pose proof (mapM_Permutation
                (tree_hash H fs cwd filter_ protocol chunk_size allow)
                ds' ds'' Hds) as Hd.
  pose proof (mapM_Permutation (file_hash H fs chunk_size)
                files files' Hfs) as Hf.
  destruct (mapM _ ds') as [k|].
  - destruct Hd as (k' & -> & Hk). simpl.
    destruct (mapM _ files) as [kf|].
    + destruct Hf as (kf' & -> & Hkf). simpl.
      by rewrite (dir_apply_Permutation _ _ _ _ _ k kf k' kf').
    + by rewrite Hf.
  - by rewrite Hd.
Qed.

Lemma dirhash_no_pool H fs cwd t filtering protocol chunk_size jobs :
  (jobs < 1)%Z ->
  digest_of (dirhash H fs cwd t filtering protocol chunk_size jobs) = None.
Proof.
  intros Hjobs. unfold dirhash.
  destruct (_get_instance_protocol protocol) as [p|e]; [|done].
  replace (jobs =? 1)%Z with false by lia.
  unfold dirhash_parallel. rewrite scantree_extract_real_paths.
  destruct (_ || _); [|done]. unfold _parmap.
  replace (jobs =? 1)%Z with false by lia.
  by replace (jobs <? 1)%Z with true by lia.
Qed.

(** C2.  Listing the children of the directories of a tree in another order
    changes neither the descriptor of any directory nor the digest that
    [dirhash] returns. *)
Theorem listing_order_independence
    (H : HASH) (fs : gmap string bytes) (cwd : string)
    (filtering : option Filter) (protocol : protocol_arg)
    (chunk_size jobs : Z) (t t' : Tree) :
  tree_perm t t' ->
  digest_of (dirhash H fs cwd t filtering protocol chunk_size jobs)
  = digest_of (dirhash H fs cwd t' filtering protocol chunk_size jobs)
  /\ (forall self path ds files ds' files',
        ds ++ files ≡ₚ ds' ++ files' ->
        get_descriptor self cwd (Dir path ds files)
        = get_descriptor self cwd (Dir path ds' files')).
Proof.
  intros Hperm. split.
  - destruct (Z.lt_ge_cases jobs 1) as [Hlt|Hge].
    + by rewrite !dirhash_no_pool.
    + rewrite !dirhash_tree_hash by done.
      destruct (_get_instance_protocol protocol); [|done].
      by rewrite (tree_hash_Permutation _ _ _ _ _ _ _ t t').
  - intros. by apply get_descriptor_Permutation.
Qed.

Lemma sample_tree_perm : tree_perm sample_tree sample_tree_listed_otherwise.
Proof.
  apply (tree_perm_dir _ _ [TDir sub_path [] [d_txt; c_txt]]).
  - repeat constructor.
    apply (tree_perm_dir _ [] [] []); [constructor|done|apply perm_swap].
  - done.
  - apply perm_swap.
Qed.

Lemma listing_order_independence_witness :
  digest_of (dirhash hexdump sample_fs "/" sample_tree None ProtocolNone
               4 1)
  = digest_of (dirhash hexdump sample_fs "/" sample_tree_listed_otherwise
                 None ProtocolNone 4 1)
  /\ is_Some (digest_of (dirhash hexdump sample_fs "/" sample_tree None
                           ProtocolNone 4 1)).
Proof.
  split.
  - apply (listing_order_independence hexdump sample_fs "/" None
             ProtocolNone 4 1 _ _ sample_tree_perm).
  - vm_compute. eauto.
Defined.

(** ** Chunk size *)

Lemma read_positive chunk_size f :
  (0 < chunk_size)%Z ->
  read chunk_size f
  = (take (Z.to_nat chunk_size) f, drop (Z.to_nat chunk_size) f)
  /\ 0 < Z.to_nat chunk_size.
Proof.
  intros Hpos. unfold read. replace (chunk_size <? 0)%Z with false by lia.
  split; [done|lia].
Qed.

(** With a positive chunk size the loop feeds the hash object the whole
    content, whatever the size. *)
Lemma hash_chunks_positive H chunk_size hasher f :
  update_concat H -> (0 < chunk_size)%Z ->
  hash_chunks H chunk_size hasher f
  = match f with [] => hasher | _ => update H hasher f end.
Proof.
  intros Hlaw Hpos. revert Hpos.
  apply (hash_chunks_elim
           (fun H' chunk_size hasher f r =>
              update_concat H' -> (0 < chunk_size)%Z ->
              r = match f with [] => hasher | _ => update H' hasher f end));
    [| |exact Hlaw]; clear.
  - intros H cs hasher f b0 e _ _ Hpos.
    destruct (read_positive cs f Hpos) as [Hread Hn]. rewrite Hread in e.
    injection e as Htake _. destruct f; [done|].
    destruct (Z.to_nat cs); [lia|done].
  - intros H cs hasher f b chunk f' e IH _ Hlaw Hpos.
    destruct (read_positive cs f Hpos) as [Hread Hn]. rewrite Hread in e.
    injection e as Htake Hdrop. rewrite IH by done.
    rewrite <- (take_drop (Z.to_nat cs) f), Htake, Hdrop.
    destruct f' as [|b' f'].
    + by rewrite app_nil_r.
    + rewrite Hlaw. done.
Qed.

Lemma _get_filehash_positive H fs filepath chunk_size :
  update_concat H -> (0 < chunk_size)%Z ->
  _get_filehash H fs filepath chunk_size
  = match fs !! filepath with
    | None => Raise (IOError filepath)
    | Some [] => Ok (hexdigest H (hnew H []))
    | Some f => Ok (hexdigest H (update H (hnew H []) f))
    end.
Proof.
  intros Hlaw Hpos. unfold _get_filehash.
  destruct (fs !! filepath) as [f|]; [|done].
  rewrite hash_chunks_positive by done. by destruct f.
Qed.

Lemma traverse_ext {S A B} (f g : A -> M S B) (l : list A) :
  Forall (fun x => forall s, f x s = g x s) l ->
  forall s, traverse f l s = traverse g l s.
Proof.
  induction 1 as [|x l Hx _ IH]; intros s; [done|].
  cbn [traverse]. unfold bind at 1 3. rewrite Hx.
  destruct (g x s) as [[y s']|e]; [|done].
  unfold bind. by rewrite IH.
Qed.

Lemma scantree_ext {S D F} (file_apply file_apply' : Path -> M S F)
    (dir_apply : DirNode D F -> M S D) allow t :
  (forall p s, file_apply p s = file_apply' p s) ->
  forall s, scantree t file_apply dir_apply allow s
            = scantree t file_apply' dir_apply allow s.
Proof.
  intros Hfa. induction t as [path ds files IH|path tp] using Tree_ind;
    intros s; [|done].
  cbn [scantree]. unfold bind at 1 3. rewrite (traverse_ext _ _ _ IH).
  destruct (traverse _ ds s) as [[ds' s']|e]; [|done].
  unfold bind.
  rewrite (traverse_ext file_apply file_apply')
    by (apply Forall_forall; auto).
  done.
Qed.

Lemma apply_ext {S D F} (file_apply file_apply' : Path -> M S F)
    (dir_apply : DirNode D F -> M S D) t :
  (forall p s, file_apply p s = file_apply' p s) ->
  forall s, apply file_apply dir_apply t s = apply file_apply' dir_apply t s.
Proof.
  intros Hfa. induction t as [path ds files IH|path tp] using Tree_ind;
    intros s; [|done].
  cbn [apply]. unfold bind at 1 3. rewrite (traverse_ext _ _ _ IH).
  destruct (traverse _ ds s) as [[ds' s']|e]; [|done].
  unfold bind.
  rewrite (traverse_ext file_apply file_apply')
    by (apply Forall_forall; auto).
  done.
Qed.

Lemma _parmap_ext {A B} (f g : A -> result B) l jobs :
  (forall x, f x = g x) -> _parmap f l jobs = _parmap g l jobs.
Proof.
  intros Hfg. unfold _parmap.
  rewrite (traverse_ext (fun x => lift (f x)) (fun x => lift (g x)))
    by (apply Forall_forall; intros x _ s; by rewrite Hfg).
  done.
Qed.

Lemma dirhash_filehash_ext H fs cwd t filtering protocol cs1 cs2 jobs :
  (forall filepath,
     _get_filehash H fs filepath cs1 = _get_filehash H fs filepath cs2) ->
  dirhash H fs cwd t filtering protocol cs1 jobs
  = dirhash H fs cwd t filtering protocol cs2 jobs.
Proof.
  intros Hext. unfold dirhash.
  destruct (_get_instance_protocol protocol) as [p|e]; [|done].
  destruct (jobs =? 1)%Z.
  - unfold dirhash_serial.
    rewrite (scantree_ext (file_apply_serial H fs cs1)
                          (file_apply_serial H fs cs2)); [done|].
    intros q s. unfold file_apply_serial, bind, _get_filehash_cached.
    by rewrite Hext.
  - unfold dirhash_parallel.
    destruct (scantree t extract_real_paths _ _ _) as [[root rp]|e]; [|done].
    by rewrite (_parmap_ext _ (fun p => _get_filehash H fs p cs2)).
Qed.

(** C10.  For a hash object that keeps the contract of [update], and two
    positive chunk sizes, [_get_filehash] returns the same result: the hex
    digest of the whole content of the file.  So [dirhash] returns the same
    result for both chunk sizes. *)
Theorem chunk_size_independence
    (H : HASH) (fs : gmap string bytes) (cwd : string)
    (chunk_size chunk_size' : Z) :
  update_concat H -> (0 < chunk_size)%Z -> (0 < chunk_size')%Z ->
  (forall filepath,
     _get_filehash H fs filepath chunk_size
     = _get_filehash H fs filepath chunk_size'
     /\ forall f, fs !! filepath = Some f ->
          _get_filehash H fs filepath chunk_size
          = Ok (hexdigest H (match f with
                             | [] => hnew H []
                             | _ => update H (hnew H []) f
                             end)))
  /\ (forall t filtering protocol jobs,
        dirhash H fs cwd t filtering protocol chunk_size jobs
        = dirhash H fs cwd t filtering protocol chunk_size' jobs).
Proof.
  intros Hlaw Hpos Hpos'.
  assert (forall filepath,
            _get_filehash H fs filepath chunk_size
            = _get_filehash H fs filepath chunk_size') as Hext.
  { intros filepath. by rewrite !_get_filehash_positive. }
  split.
  - intros filepath. split; [done|]. intros f Hf.
    rewrite _get_filehash_positive, Hf by done. by destruct f.
  - intros. by apply dirhash_filehash_ext.
Qed.

Lemma sum16_update_concat : update_concat sum16.
Proof.
  intros h a b. simpl.
  assert (byte_sum (a ++ b) = (byte_sum a + byte_sum b)%N) as ->.
  { induction a as [|x a IH]; simpl; [done|]. rewrite IH. lia. }
  rewrite N.add_assoc. by rewrite N.Div0.add_mod_idemp_l.
Qed.

Lemma hexdump_update_concat : update_concat hexdump.
Proof. intros h a b. simpl. by rewrite <- app_assoc. Qed.

Lemma chunk_size_independence_witness :
  _get_filehash sum16 sample_fs "/r/sub/c.txt" 4
  = _get_filehash sum16 sample_fs "/r/sub/c.txt" 1048576
  /\ dirhash sum16 sample_fs "/" sample_tree None ProtocolNone 4 1
     = dirhash sum16 sample_fs "/" sample_tree None ProtocolNone 1048576 1
  /\ dirhash sum16 sample_fs "/" sample_tree None ProtocolNone 4 1
     = Ok "1402".
Proof.
  destruct (chunk_size_independence sum16 sample_fs "/" 4 1048576
              sum16_update_concat ltac:(lia) ltac:(lia)) as [Hfile Hdir].
  split; [apply Hfile|]. split; [apply Hdir|]. vm_compute. reflexivity.
Defined.

(** ** The empty root *)

Lemma never_nothing_bind {S A B} (m : M S A) (k : A -> M S B) :
  never_nothing_to_hash m ->
  (forall a s s', m s = Ok (a, s') -> never_nothing_to_hash (k a)) ->
  never_nothing_to_hash (bind m k).
Proof.
  intros Hm Hk s. unfold bind. specialize (Hm s).
  destruct (m s) as [[a s']|e] eqn:Hms; [exact (Hk a s s' Hms s')|].
  intros Heq. apply Hm. congruence.
Qed.

Lemma never_nothing_ret {S A} (a : A) :
  never_nothing_to_hash (S := S) (ret a).
Proof. by intros s. Qed.

Lemma never_nothing_traverse {S A B} (f : A -> M S B) (l : list A) :
  Forall (fun x => never_nothing_to_hash (f x)) l ->
  never_nothing_to_hash (traverse f l).
Proof.
  induction 1 as [|x l Hx _ IH]; [apply never_nothing_ret|].
  cbn [traverse]. apply never_nothing_bind; [done|]. intros y _ _ _.
  apply never_nothing_bind; [done|]. intros; apply never_nothing_ret.
Qed.

Lemma traverse_length {S A B} (f : A -> M S B) (l : list A) s l' s' :
  traverse f l s = Ok (l', s') -> length l' = length l.
Proof.
  revert s l' s'. induction l as [|x l IH]; intros s l' s'; cbn [traverse].
  - by intros [= <- _].
  - unfold bind at 1. destruct (f x s) as [[y s1]|e]; [|done].
    unfold bind at 1. destruct (traverse f l s1) as [[ys s2]|e] eqn:Hl;
      [|done].
    intros [= <- _]. simpl. f_equal. by eapply IH.
Qed.

Lemma join_dot_nonempty x : posixpath.join "." [x] <> "".
Proof.
  unfold posixpath.join, posixpath.join_step. cbn [fold_left].
  destruct (startswith x posixpath.sep) eqn:Hx; [by destruct x|done].
Qed.

(** The descriptor of a cyclic link is always defined: [relpath] is never
    called on an empty path. *)
Lemma cyclic_descriptor_total cwd path target_path :
  exists d, _get_cyclic_linked_dir_descriptor cwd path target_path = Ok d.
Proof.
  unfold _get_cyclic_linked_dir_descriptor, posixpath.relpath.
  rewrite bool_decide_false by apply join_dot_nonempty.
  case_match; eauto.
Qed.

Lemma get_descriptor_total self cwd n :
  exists d, get_descriptor self cwd n = Ok d.
Proof.
  destruct n; cbn [get_descriptor]; [eauto|apply cyclic_descriptor_total].
Qed.

Section empty_root.
Context (H : HASH) (fs : gmap string bytes) (cwd : string)
  (filter_ : Filter) (protocol : Protocol) (chunk_size : Z).

Lemma dir_apply_cases n :
  exists d,
    get_descriptor protocol cwd n = Ok d
    /\ dir_apply H cwd filter_ protocol n
       = if negb (empty_dirs filter_)
            && (bool_decide (relative (node_path n) = "") && empty n)
         then Raise (ValueError NothingToHash)
         else Ok (node_path n, hexdigest H (hnew H (encode_utf8 d))).
Proof.
  destruct (get_descriptor_total protocol cwd n) as [d Hd]. exists d.
  split; [done|]. unfold dir_apply. by rewrite Hd.
Qed.

Lemma dir_apply_nothing_to_hash n :
  dir_apply H cwd filter_ protocol n = Raise (ValueError NothingToHash) <->
  empty_dirs filter_ = false /\ relative (node_path n) = "" /\ empty n = true.
Proof.
  destruct (dir_apply_cases n) as (d & _ & ->).
  destruct (empty_dirs filter_); simpl; [naive_solver|].
  case_bool_decide; destruct (empty n); simpl; naive_solver.
Qed.

Lemma file_apply_serial_never_nothing path :
  never_nothing_to_hash (file_apply_serial H fs chunk_size path).
Proof.
  intros cache. unfold file_apply_serial, bind, _get_filehash_cached.
  destruct (cache !! real path); [done|].
  unfold _get_filehash. by destruct (fs !! real path).
Qed.

Lemma file_apply_parallel_never_nothing table path :
  never_nothing_to_hash (file_apply_parallel table path).
Proof. intros s. unfold file_apply_parallel. by case_match. Qed.

Lemma lift_dir_apply_never_nothing {S} n :
  relative (node_path n) <> "" \/ empty n = false ->
  never_nothing_to_hash (S := S) (lift (dir_apply H cwd filter_ protocol n)).
Proof.
  intros Hn s. unfold lift.
  destruct (dir_apply H cwd filter_ protocol n) as [r|e] eqn:Hd; [done|].
  intros [= ->]. apply dir_apply_nothing_to_hash in Hd as (_ & ? & ?).
  destruct Hn; congruence.
Qed.

(** Below the root, no directory raises the error, empty or not. *)
Lemma scantree_below_root_never_nothing {S}
    (file_apply : Path -> M S (Path * string)) allow t :
  (forall p, never_nothing_to_hash (file_apply p)) ->
  below_root t = true ->
  never_nothing_to_hash
    (scantree t file_apply
       (fun n => lift (dir_apply H cwd filter_ protocol n)) allow).
Proof.
  intros Hfa. induction t as [path ds files IH|path tp] using Tree_ind;
    cbn [below_root scantree].
  - intros [Hrel Hds]%andb_true_iff.
    apply negb_true_iff, bool_decide_eq_false in Hrel.
    apply never_nothing_bind.
    { apply never_nothing_traverse. rewrite Forall_forall in *.
      intros d Hd. apply IH; [done|].
      by apply (proj1 (forallb_forall _ _) Hds), list_elem_of_In. }
    intros ds' _ _ _. apply never_nothing_bind.
    { apply never_nothing_traverse, Forall_forall. auto. }
    intros fs' _ _ _. apply lift_dir_apply_never_nothing. by left.
  - intros Hrel%negb_true_iff%bool_decide_eq_false.
    destruct allow; [|by intros s].
    apply lift_dir_apply_never_nothing. by left.
Qed.

Lemma apply_below_root_never_nothing {S}
    (file_apply : Path -> M S (Path * string)) t :
  (forall p, never_nothing_to_hash (file_apply p)) ->
  below_root t = true ->
  never_nothing_to_hash
    (apply file_apply (fun n => lift (dir_apply H cwd filter_ protocol n)) t).
Proof.
  intros Hfa. induction t as [path ds files IH|path tp] using Tree_ind;
    cbn [below_root apply].
  - intros [Hrel Hds]%andb_true_iff.
    apply negb_true_iff, bool_decide_eq_false in Hrel.
    apply never_nothing_bind.
    { apply never_nothing_traverse. rewrite Forall_forall in *.
      intros d Hd. apply IH; [done|].
      by apply (proj1 (forallb_forall _ _) Hds), list_elem_of_In. }
    intros ds' _ _ _. apply never_nothing_bind.
    { apply never_nothing_traverse, Forall_forall. auto. }
    intros fs' _ _ _. apply lift_dir_apply_never_nothing. by left.
  - intros Hrel%negb_true_iff%bool_decide_eq_false.
    apply lift_dir_apply_never_nothing. by left.
Qed.

Lemma apply_scantree {S D F} (file_apply : Path -> M S F)
    (dir_apply : DirNode D F -> M S D) t s :
  apply file_apply dir_apply t s = scantree t file_apply dir_apply true s.
Proof.
  revert s. induction t as [path ds files IH|path tp] using Tree_ind;
    intros s; [|done].
  cbn [apply scantree]. unfold bind at 1 3.
  by rewrite (traverse_ext _ _ _ IH).
Qed.

(** The root raises the error only when it has no children. *)
Lemma scantree_root_never_nothing {S}
    (file_apply : Path -> M S (Path * string)) allow path ds files :
  (forall p, never_nothing_to_hash (file_apply p)) ->
  forallb below_root ds = true ->
  ds <> [] \/ files <> [] ->
  never_nothing_to_hash
    (scantree (TDir path ds files) file_apply
       (fun n => lift (dir_apply H cwd filter_ protocol n)) allow).
Proof.
  intros Hfa Hds Hne. cbn [scantree].
  apply never_nothing_bind.
  { apply never_nothing_traverse, Forall_forall. intros d Hd.
    apply scantree_below_root_never_nothing; [done|].
    by apply (proj1 (forallb_forall _ _) Hds), list_elem_of_In. }
  intros ds' s s' Hlen%traverse_length. apply never_nothing_bind.
  { apply never_nothing_traverse, Forall_forall. auto. }
  intros fs' s1 s1' Hlen'%traverse_length.
  apply lift_dir_apply_never_nothing. right.
  destruct ds', fs'; try done.
  destruct ds, files; simpl in *; try done. by destruct Hne.
Qed.

Lemma scantree_empty_root {S}
    (file_apply : Path -> M S (Path * string)) allow path s :
  empty_dirs filter_ = false -> relative path = "" ->
  scantree (TDir path [] []) file_apply
    (fun n => lift (dir_apply H cwd filter_ protocol n)) allow s
  = Raise (ValueError NothingToHash).
Proof.
  intros He Hrel. cbn [scantree traverse]. unfold bind, ret, lift.
  by rewrite (proj2 (dir_apply_nothing_to_hash (Dir path [] []))).
Qed.

Lemma traverse_lift_raise {S A B} (f : A -> result B) (l : list A)
    (s : S) e :
  traverse (fun x => lift (f x)) l s = Raise e ->
  exists x, x ∈ l /\ f x = Raise e.
Proof.
  induction l as [|x l IH]; cbn [traverse]; [done|].
  unfold bind at 1. unfold lift at 1.
  destruct (f x) as [y|e'] eqn:Hx.
  - unfold bind at 1. destruct (traverse _ l s) as [[ys s']|e''] eqn:Hl;
      [done|].
    intros [= ->]. destruct IH as (x' & Hin & Hx'); [done|].
    exists x'. split; [by right|done].
  - intros [= ->]. exists x. split; [by left|done].
Qed.

Lemma _parmap_raise {A B} (f : A -> result B) l jobs e :
  _parmap f l jobs = Raise e ->
  e = ValueError PoolProcesses \/ exists x, x ∈ l /\ f x = Raise e.
Proof.
  unfold _parmap.
  destruct (traverse _ l tt) as [[ys []]|e'] eqn:Htr.
  - repeat case_match; try done. intros [= <-]. by left.
  - apply traverse_lift_raise in Htr.
    repeat case_match; intros [= <-]; auto.
Qed.

Lemma dirhash_serial_nothing_to_hash path ds files :
  empty_dirs filter_ = false -> relative path = "" ->
  forallb below_root ds = true ->
  dirhash_serial H fs cwd (TDir path ds files) filter_ protocol chunk_size
  = Raise (ValueError NothingToHash)
  <-> ds = [] /\ files = [].
Proof.
  intros He Hrel Hbelow. unfold dirhash_serial. split.
  - intros Hr. destruct (decide (ds = [])) as [->|Hds];
      [destruct (decide (files = [])) as [->|Hfs]; [done|]|]; exfalso.
    all: eapply (scantree_root_never_nothing
                   (file_apply_serial H fs chunk_size)
                   (allow_cyclic_links protocol) path);
      [apply file_apply_serial_never_nothing|exact Hbelow| |];
      [|destruct (scantree _ _ _ _ ∅) as [[[q d] c]|e] eqn:Hs;
         [done|injection Hr as ->; exact Hs]]; auto.
  - intros [-> ->]. by rewrite scantree_empty_root.
Qed.

Lemma dirhash_parallel_nothing_to_hash path ds files jobs :
  empty_dirs filter_ = false -> relative path = "" ->
  forallb below_root ds = true -> (1 <= jobs)%Z ->
  dirhash_parallel H fs cwd (TDir path ds files) filter_ protocol chunk_size
    jobs
  = Raise (ValueError NothingToHash)
  <-> ds = [] /\ files = [].
Proof.
  intros He Hrel Hbelow Hjobs. unfold dirhash_parallel.
  rewrite scantree_extract_real_paths. split.
  - destruct (_ || _); [|done].
    destruct (_parmap _ _ jobs) as [hashes|e] eqn:Hpar.
    + intros Hr. destruct (decide (ds = [])) as [->|Hds];
        [destruct (decide (files = [])) as [->|Hfs]; [done|]|]; exfalso.
      all: eapply (scantree_root_never_nothing
                     (file_apply_parallel
                        (dict_of_pairs (zip (elements
                           (real_paths_of (TDir path _ files) ∪ ∅)) hashes)))
                     true path);
        [apply file_apply_parallel_never_nothing|exact Hbelow| |];
        [|rewrite <- apply_scantree;
          destruct (apply _ _ _ tt) as [[[q d] c]|e] eqn:Hs;
          [done|injection Hr as ->; exact Hs]]; auto.
    + intros [= ->]. exfalso.
      apply _parmap_raise in Hpar as [Hp|(x & _ & Hx)]; [done|].
      unfold _get_filehash in Hx. by destruct (fs !! x).
  - intros [-> ->]. cbn [has_cyclic_link existsb negb].
    rewrite orb_true_r.
    assert (elements (real_paths_of (TDir path [] []) ∪ ∅) = []) as ->.
    { apply elements_empty_iff. cbn [real_paths_of map]. set_solver. }
    unfold _parmap. cbn [traverse]. unfold ret.
    replace (jobs <? 1)%Z with false by lia.
    assert (forall r : result (list string),
              (if (jobs =? 1)%Z then r else r) = r) as ->
      by (intros r; by destruct (jobs =? 1)%Z).
    cbn [zip zip_with]. rewrite apply_scantree.
    by rewrite scantree_empty_root.
Qed.

End empty_root.

(** C5.  In a call that excludes empty directories, on a scan whose root has
    the empty relative path and whose other nodes do not, [dirhash] raises
    the "nothing to hash" error exactly when the root has no children;
    below the root no directory raises it, even an empty one. *)
Theorem nothing_to_hash_iff_root_empty
    (H : HASH) (fs : gmap string bytes) (cwd : string)
    (filtering : option Filter) (protocol : protocol_arg) (p : Protocol)
    (chunk_size jobs : Z) (path : Path) (ds : list Tree)
    (files : list Path) :
  _get_instance_protocol protocol = Ok p ->
  empty_dirs (_get_instance_filter filtering) = false ->
  relative path = "" ->
  forallb below_root ds = true ->
  (1 <= jobs)%Z ->
  (dirhash H fs cwd (TDir path ds files) filtering protocol chunk_size jobs
   = Raise (ValueError NothingToHash)
   <-> ds = [] /\ files = [])
  /\ (forall d allow cache,
        d ∈ ds ->
        scantree d (file_apply_serial H fs chunk_size)
          (fun n => lift (dir_apply H cwd (_get_instance_filter filtering)
                            p n)) allow cache
        <> Raise (ValueError NothingToHash))
  /\ (forall d table,
        d ∈ ds ->
        apply (file_apply_parallel table)
          (fun n => lift (dir_apply H cwd (_get_instance_filter filtering)
                            p n)) d tt
        <> Raise (ValueError NothingToHash)).
Proof.
  intros Hp He Hrel Hbelow Hjobs. split; [|split].
  - unfold dirhash. rewrite Hp. destruct (jobs =? 1)%Z.
    + by apply dirhash_serial_nothing_to_hash.
    + by apply dirhash_parallel_nothing_to_hash.
  - intros d allow cache Hd.
    apply scantree_below_root_never_nothing.
    + apply file_apply_serial_never_nothing.
    + by apply (proj1 (forallb_forall _ _) Hbelow), list_elem_of_In.
  - intros d table Hd.
    apply apply_below_root_never_nothing.
    + apply file_apply_parallel_never_nothing.
    + by apply (proj1 (forallb_forall _ _) Hbelow), list_elem_of_In.
Qed.

Lemma nothing_to_hash_iff_root_empty_witness :
  dirhash hexdump sample_fs "/" (TDir root_path [] []) None ProtocolNone 4 1
  = Raise (ValueError NothingToHash)
  /\ dirhash hexdump sample_fs "/" (TDir root_path [] []) None ProtocolNone
       4 3
     = Raise (ValueError NothingToHash)
  /\ dirhash hexdump sample_fs "/"
       (TDir root_path [TDir sub_path [] []] [a_txt]) None ProtocolNone 4 1
     <> Raise (ValueError NothingToHash).
Proof.
  split; [|split].
  - apply (nothing_to_hash_iff_root_empty hexdump sample_fs "/" None
             ProtocolNone _ 4 1 root_path [] [] eq_refl eq_refl eq_refl
             eq_refl ltac:(lia)).
    done.
  - apply (nothing_to_hash_iff_root_empty hexdump sample_fs "/" None
             ProtocolNone _ 4 3 root_path [] [] eq_refl eq_refl eq_refl
             eq_refl ltac:(lia)).
    done.
  - intros Hr.
    apply (nothing_to_hash_iff_root_empty hexdump sample_fs "/" None
             ProtocolNone _ 4 1 root_path [TDir sub_path [] []] [a_txt]
             eq_refl eq_refl eq_refl eq_refl ltac:(lia)) in Hr.
    by destruct Hr.
Defined.

(** ** [included_paths] *)

Lemma leafpaths_Permutation t : leafpaths t ≡ₚ leaves t.
Proof. apply (merge_sort_Permutation path_le). Qed.

Lemma included_path_directory path :
  is_file path = false ->
  included_path path
  = if bool_decide (relative path = "") then "."
    else if endswith (relative path) "/"%char then relative path +:+ "."
         else relative path +:+ "/.".
Proof.
  intros Hf. unfold included_path. rewrite Hf.
  unfold posixpath.join, posixpath.join_step. cbn [fold_left startswith].
  rewrite bool_decide_false by done.
  case_bool_decide as Hrel; [rewrite Hrel; reflexivity|].
  cbn [orb]. unfold posixpath.sep.
  by destruct (endswith (relative path) "/"%char).
Qed.

Lemma scantree_identity {S} allow t (s : S) :
  scantree t ret identity_dir_apply allow s
  = if allow || negb (has_cyclic_link t) then Ok (t, s)
    else Raise SymlinkRecursionError.
Proof.
  revert s. induction t as [path ds files IH|path tp] using Tree_ind;
    intros s.
  - cbn [scantree has_cyclic_link].
    assert (forall s : S,
      traverse (fun d => scantree d ret identity_dir_apply allow) ds s
      = if allow || negb (existsb has_cyclic_link ds) then Ok (ds, s)
        else Raise SymlinkRecursionError) as Hds.
    { clear s. induction IH as [|d ds Hd _ IHds]; intros s.
      - simpl. by rewrite orb_true_r.
      - cbn [traverse existsb]. unfold bind at 1. rewrite Hd.
        rewrite negb_orb, orb_andb_distrib_r.
        destruct (allow || negb (has_cyclic_link d)); [|done].
        unfold bind at 1. rewrite IHds.
        by destruct (allow || negb (existsb has_cyclic_link ds)). }
    unfold bind at 1. rewrite Hds.
    destruct (allow || negb (existsb has_cyclic_link ds)); [|done].
    unfold bind.
    assert (forall s : S, traverse ret files s = Ok (files, s)) as ->.
    { clear. induction files as [|p files IH]; intros s; [done|].
      cbn [traverse]. unfold bind, ret in *. by rewrite IH. }
    done.
  - cbn [scantree has_cyclic_link]. by destruct allow.
Qed.

(** A reduction with the log consumes the leaves of the tree, in
    post-order, and is otherwise the reduction without the log. *)
Lemma scantree_logging {S D F} (file_apply : Path -> M S F)
    (dir_apply : DirNode D F -> M S D) allow t s log :
  scantree t (logging_file_apply file_apply) (logging_dir_apply dir_apply)
    allow (s, log)
  = match scantree t file_apply dir_apply allow s with
    | Ok (r, s') => Ok (r, (s', log ++ leaves t))
    | Raise e => Raise e
    end.
Proof.
  revert s log. induction t as [path ds files IH|path tp] using Tree_ind;
    intros s log.
  - cbn [scantree leaves].
    assert (forall s log,
      traverse (fun d => scantree d (logging_file_apply file_apply)
                           (logging_dir_apply dir_apply) allow) ds (s, log)
      = match traverse (fun d => scantree d file_apply dir_apply allow) ds s
        with
        | Ok (r, s') => Ok (r, (s', log ++ flat_map leaves ds))
        | Raise e => Raise e
        end) as Hds.
    { clear s log. induction IH as [|d ds Hd _ IHds]; intros s log.
      - simpl. unfold ret. by rewrite app_nil_r.
      - cbn [traverse flat_map]. unfold bind. rewrite Hd.
        destruct (scantree d file_apply dir_apply allow s) as [[r s1]|e];
          [|done].
        unfold bind. rewrite IHds.
        destruct (traverse _ ds s1) as [[rs s2]|e]; [|done].
        unfold ret. by rewrite <- app_assoc. }
    assert (forall s log,
      traverse (logging_file_apply file_apply) files (s, log)
      = match traverse file_apply files s with
        | Ok (r, s') => Ok (r, (s', log ++ files))
        | Raise e => Raise e
        end) as Hfs.
    { clear. induction files as [|p files IHf]; intros s log.
      - simpl. unfold ret. by rewrite app_nil_r.
      - cbn [traverse]. unfold bind.
        unfold logging_file_apply at 1. cbn [fst snd].
        destruct (file_apply p s) as [[r s1]|e]; [|done].
        unfold bind. rewrite IHf.
        destruct (traverse file_apply files s1) as [[rs s2]|e]; [|done].
        unfold ret. by rewrite <- app_assoc. }
    unfold bind. rewrite Hds.
    destruct (traverse _ ds s) as [[ds' s1]|e] eqn:Htd; [|done].
    unfold bind. rewrite Hfs.
    destruct (traverse file_apply files s1) as [[fs' s2]|e] eqn:Htf; [|done].
    unfold logging_dir_apply. cbn [fst snd].
    destruct (dir_apply (Dir path ds' fs') s2) as [[r s3]|e]; [|done].
    apply traverse_length in Htd, Htf.
    do 3 f_equal. cbn [is_leaf_node node_path].
    replace (empty (Dir path ds' fs')) with (empty (Dir path ds files))
      by (by destruct ds, ds', files, fs').
    rewrite <- !app_assoc.
    destruct (empty (Dir path ds files)); [done|]. by rewrite !app_nil_r.
  - cbn [scantree leaves]. destruct allow; [|done].
    unfold logging_dir_apply. cbn [fst snd is_leaf_node node_path].
    by destruct (dir_apply _ s) as [[r s']|e].
Qed.

(** C9, as the code has it.  [included_paths] raises what the construction
    of the protocol raises, raises on a cyclic link that is not allowed, and
    otherwise returns one string for every leaf that the scanner
    enumerates: the relative path of a file and
    [os.path.join(relative, '.')] of a directory, which is [relative/.]
    below the root and [.] for the root.  The leaves are those of the scan,
    which every reduction of the tree that completes has consumed, the two
    of [dirhash] among them; [included_paths] itself reduces nothing, so it
    returns the list also where [dirhash] raises on an empty root or on a
    file that cannot be opened. *)
Theorem included_paths_spec (t : Tree) (filtering : option Filter)
    (protocol : protocol_arg) :
  included_paths t filtering protocol
  = match _get_instance_protocol protocol with
    | Raise e => Raise e
    | Ok p =>
        if allow_cyclic_links p || negb (has_cyclic_link t)
        then Ok (map included_path (leafpaths t))
        else Raise SymlinkRecursionError
    end
  /\ leafpaths t ≡ₚ leaves t
  /\ (forall path,
        included_path path
        = if is_file path then relative path
          else if bool_decide (relative path = "") then "."
          else if endswith (relative path) "/"%char
               then relative path +:+ "."
               else relative path +:+ "/.")
  /\ (forall S D F (file_apply : Path -> M S F)
             (dir_apply : DirNode D F -> M S D) allow s,
        scantree t (logging_file_apply file_apply)
          (logging_dir_apply dir_apply) allow (s, [])
        = match scantree t file_apply dir_apply allow s with
          | Ok (r, s') => Ok (r, (s', leaves t))
          | Raise e => Raise e
          end).
Proof.
  split; [|split; [|split]].
  - unfold included_paths.
    destruct (_get_instance_protocol protocol) as [p|e]; [|done].
    rewrite scantree_identity. by destruct (_ || _).
  - apply leafpaths_Permutation.
  - intros path. destruct (is_file path) eqn:Hf.
    + unfold included_path. by rewrite Hf.
    + by apply included_path_directory.
  - intros. by rewrite scantree_logging.
Qed.

(** The claim as the specification states it fails on an empty root kept by
    [empty_dirs=True]: the only entry is a directory, and it is [.], with no
    separator in front of the marker. *)
Lemma included_paths_root_not_suffixed :
  included_paths empty_root_tree (Some keep_empty_dirs) ProtocolNone = Ok ["."]
  /\ leafpaths empty_root_tree = [root_path]
  /\ ~ (forall t filtering protocol out,
          included_paths t filtering protocol = Ok out ->
          Sorted String.le out
          /\ Forall2 suffixed_with_marker (leafpaths t) out).
Proof.
  split; [by vm_compute|]. split; [by vm_compute|].
  intros Hclaim.
  destruct (Hclaim empty_root_tree (Some keep_empty_dirs) ProtocolNone ["."])
    as [_ Hsuffix]; [by vm_compute|].
  inv Hsuffix. unfold suffixed_with_marker in *. simpl in *. discriminate.
Qed.

(** The order of the output is the order of the leaves, not the order of
    the strings: [a/.] comes before [a-b]. *)
Example included_paths_dash :
  included_paths dash_tree (Some keep_empty_dirs) ProtocolNone
  = Ok ["a/."; "a-b"]
  /\ ~ Sorted String.le ["a/."; "a-b"].
Proof.
  split; [by vm_compute|]. intros Hs. inv Hs.
  match goal with Hh : HdRel _ _ _ |- _ => inv Hh end.
  match goal with Hle : String.le _ _ |- _ => by vm_compute in Hle end.
Qed.

(** ** Relative-path arithmetic *)

Lemma append_nil_l s : "" +:+ s = s.
Proof. reflexivity. Qed.

Lemma append_cons a s t : String a s +:+ t = String a (s +:+ t).
Proof. reflexivity. Qed.

Lemma append_nil_r s : s +:+ "" = s.
Proof. induction s as [|a s IH]; [done|]. by rewrite append_cons, IH. Qed.

Lemma append_assoc s t u : (s +:+ t) +:+ u = s +:+ (t +:+ u).
Proof.
  induction s as [|a s IH]; [done|]. by rewrite !append_cons, IH.
Qed.

Lemma split_cons_sep s : posixpath.split (String "/" s) = "" :: posixpath.split s.
Proof. reflexivity. Qed.

Lemma split_nonempty s : posixpath.split s <> [].
Proof.
  induction s as [|a s IH]; [done|]. cbn [posixpath.split].
  case_bool_decide; [done|]. by destruct (posixpath.split s).
Qed.

Lemma split_no_sep c : no_sep c = true -> posixpath.split c = [c].
Proof.
  induction c as [|a c IH]; [done|]. cbn [no_sep posixpath.split].
  intros [Ha Hc]%andb_true_iff. apply negb_true_iff in Ha. rewrite Ha.
  by rewrite IH.
Qed.

Lemma split_append_sep c s :
  no_sep c = true ->
  posixpath.split (c +:+ "/" +:+ s) = c :: posixpath.split s.
Proof.
  induction c as [|a c IH]; [done|]. cbn [no_sep].
  intros [Ha Hc]%andb_true_iff. apply negb_true_iff in Ha.
  rewrite append_cons. cbn [posixpath.split]. rewrite Ha. by rewrite IH.
Qed.

Lemma split_str_join l :
  l <> [] -> Forall (fun c => no_sep c = true) l ->
  posixpath.split (str_join "/" l) = l.
Proof.
  intros Hne Hl. induction Hl as [|c l Hc Hl IH]; [done|].
  destruct l as [|c' l]; [by apply split_no_sep|].
  cbn [str_join]. rewrite split_append_sep by done. f_equal. by apply IH.
Qed.

Lemma str_join_cons sep x l :
  l <> [] -> str_join sep (x :: l) = x +:+ sep +:+ str_join sep l.
Proof. by destruct l. Qed.

Lemma str_join_app sep l1 l2 :
  l1 <> [] -> l2 <> [] ->
  str_join sep (l1 ++ l2) = str_join sep l1 +:+ sep +:+ str_join sep l2.
Proof.
  intros H1 H2. induction l1 as [|x l1 IH]; [done|].
  destruct l1 as [|y l1].
  - cbn [app]. by rewrite str_join_cons.
  - change ((x :: y :: l1) ++ l2) with (x :: (y :: l1) ++ l2).
    rewrite (str_join_cons sep x ((y :: l1) ++ l2)) by (by simpl).
    rewrite IH by done.
    rewrite (str_join_cons sep x (y :: l1)) by done.
    by rewrite !append_assoc.
Qed.

Lemma plain_no_sep c : plain c -> no_sep c = true.
Proof. by intros [? _]. Qed.

Lemma norm_step_plain n acc c :
  plain c -> posixpath.norm_step n acc c = acc ++ [c].
Proof.
  intros (_ & H1 & H2 & H3). unfold posixpath.norm_step.
  by rewrite !bool_decide_false by done.
Qed.

Lemma fold_norm_step_plain n acc l :
  Forall plain l -> fold_left (posixpath.norm_step n) l acc = acc ++ l.
Proof.
  intros Hl. revert acc. induction Hl as [|c l Hc _ IH]; intros acc.
  - by rewrite app_nil_r.
  - cbn [fold_left]. rewrite norm_step_plain, IH by done.
    by rewrite <- app_assoc.
Qed.

Lemma norm_step_skip n acc c :
  c = "" \/ c = "." -> posixpath.norm_step n acc c = acc.
Proof. by intros [-> | ->]. Qed.

Lemma endswith_append s t c :
  t <> "" -> endswith (s +:+ t) c = endswith t c.
Proof.
  intros Ht. induction s as [|a s IH]; [done|].
  rewrite append_cons. cbn [endswith]. rewrite IH.
  destruct (s +:+ t) eqn:Hst; [|done].
  by destruct s, t.
Qed.

Lemma endswith_no_sep c : no_sep c = true -> endswith c "/"%char = false.
Proof.
  induction c as [|a c IH]; [done|]. cbn [no_sep endswith].
  intros [Ha Hc]%andb_true_iff. apply negb_true_iff in Ha.
  destruct c; [done|by apply IH].
Qed.

Lemma startswith_no_sep c : no_sep c = true -> startswith c "/"%char = false.
Proof.
  destruct c as [|a c]; [done|]. cbn [no_sep startswith].
  by intros [Ha%negb_true_iff _]%andb_true_iff.
Qed.

Lemma plain_nonempty c : plain c -> c <> "".
Proof. by intros (_ & ? & _). Qed.

Lemma startswith_append s t c :
  s <> "" -> startswith (s +:+ t) c = startswith s c.
Proof. by destruct s. Qed.

Lemma startswith_str_join l :
  Forall plain l -> startswith (str_join "/" l) "/"%char = false.
Proof.
  intros Hl. destruct Hl as [|c l Hc Hl]; [done|].
  destruct l as [|c' l].
  - by apply startswith_no_sep, plain_no_sep.
  - rewrite str_join_cons by done.
    rewrite startswith_append by by apply plain_nonempty.
    by apply startswith_no_sep, plain_no_sep.
Qed.

Lemma plain_gluable c : plain c -> gluable c.
Proof. by intros (? & ? & _). Qed.

Lemma str_join_nonempty l :
  l <> [] -> Forall gluable l -> str_join "/" l <> "".
Proof.
  intros Hne Hl. destruct Hl as [|c l [_ Hc] _]; [done|].
  destruct l; [done|]. rewrite str_join_cons by done. by destruct c.
Qed.

Lemma endswith_str_join l :
  l <> [] -> Forall gluable l -> endswith (str_join "/" l) "/"%char = false.
Proof.
  intros Hne Hl. induction Hl as [|c l [Hc Hc'] Hl IH]; [done|].
  destruct l as [|c' l]; [by apply endswith_no_sep|].
  rewrite str_join_cons by done. rewrite <- append_assoc.
  rewrite endswith_append by (by apply str_join_nonempty).
  by apply IH.
Qed.

Lemma join_str_join a p :
  Forall gluable (a :: p) -> posixpath.join a p = str_join "/" (a :: p).
Proof.
  unfold posixpath.join. intros Hall.
  assert (forall pre, pre <> [] -> Forall gluable pre -> Forall gluable p ->
            fold_left posixpath.join_step p (str_join "/" pre)
            = str_join "/" (pre ++ p)) as Hgen.
  { clear. induction p as [|b p IH]; intros pre Hne Hpre Hp.
    - by rewrite app_nil_r.
    - inv Hp. cbn [fold_left].
      match goal with Hb : gluable b |- _ => destruct Hb as [Hb Hb'] end.
      unfold posixpath.join_step at 2.
      rewrite startswith_no_sep by done.
      rewrite bool_decide_false by (by apply str_join_nonempty).
      unfold posixpath.sep. rewrite endswith_str_join by done. cbn [orb].
      replace (str_join "/" pre +:+ "/" +:+ b)
        with (str_join "/" (pre ++ [b])) by (by rewrite str_join_app).
      rewrite (IH (pre ++ [b])).
      + by rewrite <- app_assoc.
      + by destruct pre.
      + apply Forall_app. split; [done|]. by repeat constructor.
      + done. }
  inv Hall. apply (Hgen [a]); [done| |done]. by constructor.
Qed.

Lemma commonprefix_app cs l1 l2 :
  posixpath.commonprefix (cs ++ l1) (cs ++ l2)
  = cs ++ posixpath.commonprefix l1 l2.
Proof.
  induction cs as [|c cs IH]; [done|]. cbn [app posixpath.commonprefix].
  by rewrite bool_decide_true, IH by done.
Qed.

Lemma prefix_slash s : String.prefix "/" s = startswith s "/"%char.
Proof.
  destruct s as [|a r]; [done|]. cbn [String.prefix startswith].
  destruct (ascii_dec "/" a) as [Heq|Hne].
  - subst a. rewrite bool_decide_true by done. by destruct r.
  - rewrite bool_decide_false; [done|]. intros ->. by apply Hne.
Qed.

Lemma prefix_double_slash s :
  String.prefix "//" (String "/" s) = startswith s "/"%char.
Proof.
  change (String.prefix "//" (String "/" s))
    with (if ascii_dec "/" "/" then String.prefix "/" s else false).
  destruct (ascii_dec "/" "/"); [apply prefix_slash|done].
Qed.

Section relpath.
Context (cs : list string) (Hcs : Forall plain cs).

Notation cwd := (absolute_path cs).

Lemma join_dot l :
  Forall plain l ->
  posixpath.join "." [str_join "/" l] = "./" +:+ str_join "/" l.
Proof.
  intros Hl. unfold posixpath.join, posixpath.join_step. cbn [fold_left].
  unfold posixpath.sep. by rewrite startswith_str_join.
Qed.

Lemma abspath_dot l :
  Forall plain l ->
  posixpath.abspath cwd ("./" +:+ str_join "/" l)
  = "/" +:+ str_join "/" (cs ++ l).
Proof.
  intros Hl. unfold posixpath.abspath.
  change (posixpath.isabs ("./" +:+ str_join "/" l)) with false.
  cbv iota.
  set (l' := match l with [] => [""] | _ => l end).
  assert (posixpath.join cwd ["./" +:+ str_join "/" l]
          = "/" +:+ str_join "/" (cs ++ "." :: l')) as ->.
  { assert ("./" +:+ str_join "/" l = str_join "/" ("." :: l')) as ->.
    { subst l'. destruct l; reflexivity. }
    unfold posixpath.join, posixpath.join_step. cbn [fold_left].
    rewrite str_join_cons by (subst l'; by destruct l).
    change (startswith ("." +:+ _) posixpath.sep) with false. cbv iota.
    rewrite bool_decide_false by done. cbn [orb].
    assert (Forall gluable cs) as Hg
      by (eapply Forall_impl; [exact Hcs|apply plain_gluable]).
    destruct cs as [|c cs'] eqn:Hcs'.
    - unfold absolute_path. cbn [app].
      rewrite (str_join_cons "/" "." l') by (subst l'; by destruct l).
      reflexivity.
    - unfold absolute_path. unfold posixpath.sep.
      rewrite endswith_append by (by apply str_join_nonempty).
      rewrite endswith_str_join by done.
      rewrite (str_join_app "/" (c :: cs') ("." :: l')) by done.
      rewrite (str_join_cons "/" "." l') by (subst l'; by destruct l).
      by rewrite !append_assoc. }
  assert (Forall (fun c => no_sep c = true) (cs ++ "." :: l')) as Hsep.
  { apply Forall_app. split.
    - eapply Forall_impl; [exact Hcs|apply plain_no_sep].
    - constructor; [done|]. subst l'. destruct l as [|c l0].
      + by repeat constructor.
      + eapply Forall_impl; [exact Hl|apply plain_no_sep]. }
  assert (startswith (str_join "/" (cs ++ "." :: l')) "/"%char = false)
    as Hstart.
  { assert (l' <> []) as Hl' by (subst l'; by destruct l).
    destruct Hcs as [|c cs' Hc _].
    - cbn [app]. by rewrite str_join_cons.
    - rewrite <- app_comm_cons, str_join_cons by (by destruct cs').
      rewrite startswith_append by (by apply plain_nonempty).
      by apply startswith_no_sep, plain_no_sep. }
  unfold posixpath.normpath.
  rewrite bool_decide_false by done.
  assert (posixpath.initial_slashes
            ("/" +:+ str_join "/" (cs ++ "." :: l')) = 1) as ->.
  { unfold posixpath.initial_slashes.
    change (startswith ("/" +:+ _) posixpath.sep) with true. cbv iota.
    rewrite append_cons, append_nil_l, prefix_double_slash.
    unfold posixpath.sep in Hstart. by rewrite Hstart. }
  rewrite append_cons, append_nil_l, split_cons_sep.
  rewrite split_str_join by (done || by destruct cs).
  cbn [fold_left]. rewrite norm_step_skip by auto.
  rewrite fold_left_app, (fold_norm_step_plain 1 [] cs Hcs).
  cbn [fold_left app]. rewrite norm_step_skip by auto.
  assert (fold_left (posixpath.norm_step 1) l' cs = cs ++ l) as ->.
  { subst l'. destruct l as [|c l0].
    - cbn [fold_left]. rewrite norm_step_skip by auto. by rewrite app_nil_r.
    - by apply fold_norm_step_plain. }
  by rewrite bool_decide_false by done.
Qed.

Lemma abspath_components l :
  Forall plain l ->
  filter (fun x => x <> "")
         (posixpath.split ("/" +:+ str_join "/" (cs ++ l)))
  = cs ++ l.
Proof.
  intros Hl. rewrite append_cons, append_nil_l, split_cons_sep.
  rewrite filter_cons_False by auto.
  assert (Forall plain (cs ++ l)) as Hall by (by apply Forall_app).
  destruct (cs ++ l) as [|c rest] eqn:Hcl; [done|].
  rewrite split_str_join
    by (done || (eapply Forall_impl; [exact Hall|apply plain_no_sep])).
  clear Hcl. induction Hall as [|x k Hx _ IH]; [done|].
  rewrite filter_cons_True by (by apply plain_nonempty). by rewrite IH.
Qed.

(** The descriptor of a cyclic link, on paths made of plain components:
    the relative path from the link to its target, whatever the working
    directory is. *)
Lemma cyclic_descriptor_components l tg path target_path :
  Forall plain l -> Forall plain tg ->
  relative path = str_join "/" l ->
  relative target_path = str_join "/" tg ->
  _get_cyclic_linked_dir_descriptor cwd path target_path
  = Ok (components_path (relative_components l tg)).
Proof.
  intros Hl Htg Hrel Htrel. unfold _get_cyclic_linked_dir_descriptor.
  rewrite Hrel, Htrel, !join_dot by done.
  unfold posixpath.relpath. rewrite bool_decide_false by done.
  rewrite !abspath_dot, !abspath_components by done.
  rewrite commonprefix_app, !length_app.
  replace (length cs + length l
           - (length cs + length (posixpath.commonprefix l tg)))
    with (length l - length (posixpath.commonprefix l tg)) by lia.
  rewrite drop_app_add'  by done.
  fold (relative_components l tg).
  assert (Forall gluable (relative_components l tg)) as Hg.
  { unfold relative_components. apply Forall_app. split.
    - apply Forall_forall. intros x Hx%list_elem_of_In%repeat_spec.
      by subst x.
    - apply Forall_drop. eapply Forall_impl; [exact Htg|apply plain_gluable]. }
  destruct (relative_components l tg) as [|a p]; [done|].
  by rewrite join_str_join.
Qed.

End relpath.

(** C4, as the code has it.  On root-relative paths made of plain
    components (the root being the empty path), the descriptor of a cyclic
    link is the relative path from the link to its target, computed by
    [os.path.relpath] after both paths are put behind [.]; it does not
    depend on the working directory.  [dir_apply] hashes that descriptor
    like the descriptor of any directory, and the hex digest is what the
    parent receives for the link, under the key [dirhash] when the link is a
    directory entry. *)
Theorem cyclic_link_descriptor_hashed
    (H : HASH) (filter_ : Filter) (protocol : Protocol)
    (cs l tg : list string) (path target_path : Path) :
  Forall plain cs -> Forall plain l -> Forall plain tg ->
  relative path = str_join "/" l ->
  relative target_path = str_join "/" tg ->
  let cwd := "/" +:+ str_join "/" cs in
  let d := components_path (relative_components l tg) in
  let digest := hexdigest H (hnew H (encode_utf8 d)) in
  get_descriptor protocol cwd (CyclicLinkedDir path target_path) = Ok d
  /\ dir_apply H cwd filter_ protocol (CyclicLinkedDir path target_path)
     = Ok (path, digest)
  /\ (forall S (file_apply : Path -> M S (Path * string)) (s : S),
        on_cyclic_link protocol = OnCyclicLink.HASH_REFERENCE ->
        scantree (TCyclic path target_path) file_apply
          (fun n => lift (dir_apply H cwd filter_ protocol n))
          (allow_cyclic_links protocol) s
        = Ok ((path, digest), s))
  /\ (is_dir path = true ->
      head (map format_property (_get_entry_properties protocol path digest))
      = Some ("dirhash:" +:+ digest)).
Proof.
  intros Hcs Hl Htg Hrel Htrel cwd d digest.
  assert (get_descriptor protocol cwd (CyclicLinkedDir path target_path)
          = Ok d) as Hd.
  { cbn [get_descriptor]. by apply cyclic_descriptor_components. }
  assert (dir_apply H cwd filter_ protocol (CyclicLinkedDir path target_path)
          = Ok (path, digest)) as Hda.
  { unfold dir_apply. rewrite Hd. cbn [empty node_path].
    by rewrite !andb_false_r. }
  split; [done|]. split; [done|]. split.
  - intros S file_apply s Hocl. cbn [scantree].
    unfold allow_cyclic_links. rewrite Hocl. cbn. unfold lift.
    by rewrite Hda.
  - intros Hdir. unfold _get_entry_properties. rewrite Hdir.
    by destruct (_include_name protocol), (_include_is_link protocol).
Qed.

Lemma cyclic_link_descriptor_hashed_witness :
  get_descriptor hash_reference "/home/u" (CyclicLinkedDir link_path d_path)
  = Ok ".."
  /\ dir_apply hexdump "/home/u" Filter_default hash_reference
       (CyclicLinkedDir link_path d_path)
     = Ok (link_path, "2e2e")
  /\ get_descriptor hash_reference "/home/u"
       (CyclicLinkedDir d_path root_path)
     = Ok "..".
Proof.
  assert (forall c, c ∈ ["home"; "u"; "d"; "link"] -> plain c) as Hplain.
  { intros c Hc. repeat (apply elem_of_cons in Hc as [->|Hc]; [by vm_compute|]).
    by apply elem_of_nil in Hc. }
  assert (forall k, k ⊆ ["home"; "u"; "d"; "link"] -> Forall plain k)
    as Hall.
  { intros k Hk. apply Forall_forall. auto. }
  destruct (cyclic_link_descriptor_hashed hexdump Filter_default
              hash_reference ["home"; "u"] ["d"; "link"] ["d"]
              link_path d_path) as (Hd & Hda & _);
    [apply Hall; set_solver..|reflexivity|reflexivity|].
  destruct (cyclic_link_descriptor_hashed hexdump Filter_default
              hash_reference ["home"; "u"] ["d"] []
              d_path root_path) as (Hd' & _);
    [apply Hall; set_solver..|reflexivity|reflexivity|].
  split; [exact Hd|]. split; [exact Hda|exact Hd'].
Defined.

(** The claim as the specification states it fails: the parent of a cyclic
    link does not receive the descriptor [..] but its digest, here the
    hexadecimal dump [2e2e]. *)
Lemma cyclic_descriptor_not_used_literally :
  get_descriptor hash_reference "/" (CyclicLinkedDir link_path d_path)
  = Ok ".."
  /\ dir_apply hexdump "/" Filter_default hash_reference
       (CyclicLinkedDir link_path d_path)
     = Ok (link_path, "2e2e")
  /\ get_descriptor hash_reference "/" (Dir d_path [(link_path, "2e2e")] [])
     = Ok ("dirhash:2e2e" +:+ _entry_property_separator +:+ "name:link")
  /\ ~ cyclic_descriptor_used_literally.
Proof.
  split; [by vm_compute|]. split; [by vm_compute|]. split; [by vm_compute|].
  intros Hclaim.
  specialize (Hclaim hexdump "/" Filter_default hash_reference link_path
                d_path ".." ltac:(by vm_compute)).
  vm_compute in Hclaim. discriminate.
Qed.

(** ** Joined strings and the entries of a directory *)

Lemma mapM_app {A B} (f : A -> option B) (l1 l2 : list A) :
  mapM f (l1 ++ l2)
  = k1 ← mapM f l1; k2 ← mapM f l2; Some (k1 ++ k2).
Proof.
  induction l1 as [|x l1 IH].
  - simpl. by destruct (mapM f l2).
  - cbn [app mapM]. destruct (f x) as [y|]; [|done]. simpl.
    rewrite IH. destruct (mapM f l1) as [k1|]; [|done]. simpl.
    by destruct (mapM f l2).
Qed.

Lemma mapM_cons {A B} (f : A -> option B) (x : A) (l : list A) :
  mapM f (x :: l) = y ← f x; k ← mapM f l; Some (y :: k).
Proof. reflexivity. Qed.

(** *** Telling joined strings apart *)

Lemma length_append s t :
  String.length (s +:+ t) = String.length s + String.length t.
Proof.
  induction s as [|a s IH]; [done|]. rewrite append_cons. simpl. by rewrite IH.
Qed.

Lemma append_inj_r s s' t : s +:+ t = s' +:+ t -> s = s'.
Proof.
  revert s'. induction s as [|a s IH]; intros [|a' s'] Heq; [done| | |].
  - apply (f_equal String.length) in Heq.
    rewrite !length_append in Heq. simpl in Heq. lia.
  - apply (f_equal String.length) in Heq.
    rewrite !length_append in Heq. simpl in Heq. lia.
  - rewrite !append_cons in Heq. injection Heq as -> Heq. f_equal. auto.
Qed.

Lemma nul_free_app s t : nul_free (s +:+ t) = nul_free s && nul_free t.
Proof.
  induction s as [|a s IH]; [done|]. rewrite append_cons. cbn [nul_free].
  by rewrite IH, andb_assoc.
Qed.

Lemma nul_free_separable s : nul_free s = true -> separable s = true.
Proof.
  induction s as [|a s IH]; [done|]. cbn [nul_free separable].
  intros [Ha Hs]%andb_true_iff. apply negb_true_iff in Ha. rewrite Ha.
  by apply IH.
Qed.

Lemma separable_app s t :
  nul_free s = true -> separable t = true -> separable (s +:+ t) = true.
Proof.
  intros Hs Ht. induction s as [|a s IH]; [done|].
  rewrite append_cons. cbn [nul_free separable] in *.
  apply andb_true_iff in Hs as [Ha Hs]. apply negb_true_iff in Ha.
  rewrite Ha. by apply IH.
Qed.

Lemma separable_glue s t :
  nul_free s = true -> headed t = true -> separable t = true ->
  separable (s +:+ _entry_property_separator +:+ t) = true.
Proof.
  intros Hs Hh Ht. apply separable_app; [done|].
  destruct t as [|b t]; [done|]. unfold _entry_property_separator.
  rewrite append_cons, append_nil_l.
  change (separable (String "000" (String b t)))
    with (negb (bool_decide (b = NUL)) && separable (String b t)).
  cbn [headed] in Hh. by rewrite Hh.
Qed.

Lemma separable_inj x y r1 r2 :
  separable x = true -> separable y = true ->
  x +:+ _entry_descriptor_separator +:+ r1
  = y +:+ _entry_descriptor_separator +:+ r2 ->
  x = y /\ r1 = r2.
Proof.
  unfold _entry_descriptor_separator. revert y.
  induction x as [|a x IH]; intros [|b y] Hx Hy Heq.
  - rewrite !append_nil_l, !append_cons, !append_nil_l in Heq.
    by injection Heq.
  - exfalso. rewrite append_nil_l, !append_cons, append_nil_l in Heq.
    injection Heq as <- Heq. cbn [separable] in Hy.
    destruct y as [|c y]; [done|].
    rewrite append_cons in Heq. injection Heq as <- _.
    by rewrite bool_decide_true in Hy.
  - exfalso. rewrite append_nil_l, !append_cons, append_nil_l in Heq.
    injection Heq as -> Heq. cbn [separable] in Hx.
    destruct x as [|c x]; [done|].
    rewrite append_cons in Heq. injection Heq as -> _.
    by rewrite bool_decide_true in Hx.
  - rewrite !(append_cons _ _ (_ +:+ _)) in Heq. injection Heq as -> Heq.
    cbn [separable] in Hx, Hy.
    apply andb_true_iff in Hx as [_ Hx]. apply andb_true_iff in Hy as [_ Hy].
    destruct (IH y Hx Hy Heq) as [-> ->]. done.
Qed.

Lemma str_join_inj l1 l2 :
  Forall (fun s => separable s = true) l1 ->
  Forall (fun s => separable s = true) l2 ->
  length l1 = length l2 ->
  str_join _entry_descriptor_separator l1
  = str_join _entry_descriptor_separator l2 ->
  l1 = l2.
Proof.
  intros H1. revert l2. induction H1 as [|x l1 Hx Hl1 IH];
    intros l2 H2 Hlen Heq.
  { by destruct l2. }
  destruct H2 as [|y l2 Hy Hl2]; [done|].
  destruct l1 as [|x' l1], l2 as [|y' l2]; try done.
  { simpl in Heq. by subst. }
  rewrite !str_join_cons in Heq by done.
  destruct (separable_inj _ _ _ _ Hx Hy Heq) as [-> Hrest].
  f_equal. apply IH; [done|simpl in *; lia|done].
Qed.

Lemma Permutation_same_tail {A} (x y : A) (l : list A) :
  x :: l ≡ₚ y :: l -> x = y.
Proof.
  induction l as [|z l IH]; intros Hp.
  - apply Permutation_length_1 in Hp. done.
  - apply IH. apply (Permutation_cons_inv (a := z)).
    etrans; [apply perm_swap|]. etrans; [exact Hp|]. apply perm_swap.
Qed.

Lemma sorted_differs_at (l1 l2 : list string) e e' :
  sorted (l1 ++ e :: l2) = sorted (l1 ++ e' :: l2) -> e = e'.
Proof.
  intros Hs. apply (Permutation_same_tail e e' (l1 ++ l2)).
  rewrite !Permutation_middle.
  by rewrite <- (sorted_Permutation (l1 ++ e :: l2)), Hs, sorted_Permutation.
Qed.

Lemma encode_utf8_inj s s' : encode_utf8 s = encode_utf8 s' -> s = s'.
Proof.
  unfold encode_utf8. intros Heq.
  by rewrite <- (string_of_list_byte_of_string s), Heq,
    string_of_list_byte_of_string.
Qed.

(** *** The descriptor of an entry when [name] is hashed and [is_link] is
    not *)

Section named.
Context (self : Protocol) (Hname : _include_name self = true)
  (Hlink : _include_is_link self = false).

Lemma entry_descriptor_named path h :
  _get_entry_descriptor (_get_entry_properties self path h)
  = hash_part self path h +:+ "name:" +:+ name path.
Proof.
  unfold _get_entry_properties, hash_part, _get_entry_descriptor.
  rewrite Hname, Hlink.
  destruct (is_dir path), (_include_data self); cbv iota;
    rewrite ?append_assoc; vm_compute; reflexivity.
Qed.

Lemma entry_descriptor_name_inj p p' h :
  is_dir p = is_dir p' ->
  _get_entry_descriptor (_get_entry_properties self p h)
  = _get_entry_descriptor (_get_entry_properties self p' h) ->
  name p = name p'.
Proof.
  intros Hd. rewrite !entry_descriptor_named.
  unfold hash_part. rewrite <- Hd.
  intros Heq. rewrite <- !append_assoc in Heq.
  by apply String.app_inj in Heq.
Qed.

Lemma entry_descriptor_hash_inj p h h' :
  is_dir p = true ->
  _get_entry_descriptor (_get_entry_properties self p h)
  = _get_entry_descriptor (_get_entry_properties self p h') ->
  h = h'.
Proof.
  intros Hd. rewrite !entry_descriptor_named.
  unfold hash_part. rewrite Hd. rewrite !append_assoc.
  intros Heq%String.app_inj. by apply append_inj_r in Heq.
Qed.

Lemma entry_descriptor_separable p h :
  nul_free (name p) = true -> nul_free h = true ->
  separable (_get_entry_descriptor (_get_entry_properties self p h)) = true.
Proof.
  intros Hn Hh. rewrite entry_descriptor_named.
  assert (separable ("name:" +:+ name p) = true
          /\ headed ("name:" +:+ name p) = true) as [Hsn Hhn].
  { split; [|done]. apply nul_free_separable. by rewrite nul_free_app. }
  unfold hash_part. destruct (is_dir p); [|destruct (_include_data self)].
  - rewrite !append_assoc. rewrite <- (append_assoc "dirhash:" h).
    apply separable_glue; [|done..]. by rewrite nul_free_app.
  - rewrite !append_assoc. rewrite <- (append_assoc "data:" h).
    apply separable_glue; [|done..]. by rewrite nul_free_app.
  - done.
Qed.

End named.

(** *** The reduction when [name] is hashed *)

Lemma to_option_Some {A} (r : result A) (a : A) :
  to_option r = Some a -> r = Ok a.
Proof. destruct r; simpl; congruence. Qed.

Lemma Forall2_transfer {A B} (P : A -> B -> Prop) (Q : B -> Prop) l k :
  Forall2 P l k -> (forall x y, x ∈ l -> P x y -> Q y) -> Forall Q k.
Proof.
  induction 1 as [|x y l k Hxy _ IH]; intros HQ; constructor.
  - apply (HQ x); [by left|done].
  - apply IH. intros x' y' Hx'. apply HQ. by right.
Qed.

Section results.
Context (H : HASH) (fs : gmap string bytes) (cwd : string)
  (filter_ : Filter) (protocol : Protocol) (chunk_size : Z) (allow : bool)
  (Hname : _include_name protocol = true)
  (Hlink : _include_is_link protocol = false) (Hnf : nul_free_digests H).

Notation entry_descriptor := (entry_descriptor_of protocol).


Lemma dir_apply_result n r :
  dir_apply H cwd filter_ protocol n = Ok r ->
  fst r = node_path n /\ nul_free (snd r) = true.
Proof.
  destruct (dir_apply_cases H cwd filter_ protocol n) as (d & _ & ->).
  destruct (_ && _); [done|]. intros [= <-]. split; [done|apply Hnf].
Qed.

Lemma tree_hash_result t r :
  tree_hash H fs cwd filter_ protocol chunk_size allow t = Some r ->
  fst r = tree_path t /\ nul_free (snd r) = true.
Proof.
  destruct t as [path ds files|path tp]; cbn [tree_hash tree_path].
  - destruct (mapM _ ds) as [ds'|]; [|done]. simpl.
    destruct (mapM _ files) as [fs'|]; [|done]. simpl.
    intros Hr%to_option_Some. by apply dir_apply_result in Hr.
  - destruct allow; [|done].
    intros Hr%to_option_Some. by apply dir_apply_result in Hr.
Qed.

Lemma file_hash_result p r :
  file_hash H fs chunk_size p = Some r ->
  fst r = p /\ nul_free (snd r) = true.
Proof.
  unfold file_hash, _get_filehash. destruct (fs !! real p); [|done].
  intros [= <-]. split; [done|apply Hnf].
Qed.

Lemma well_named_path t :
  well_named t = true -> nul_free (name (tree_path t)) = true.
Proof.
  destruct t; cbn [well_named tree_path]; [|done].
  rewrite !andb_true_iff. tauto.
Qed.

Lemma children_clean path ds files ds' fs' :
  well_named (TDir path ds files) = true ->
  mapM (tree_hash H fs cwd filter_ protocol chunk_size allow) ds
  = Some ds' ->
  mapM (file_hash H fs chunk_size) files = Some fs' ->
  Forall clean (ds' ++ fs').
Proof.
  cbn [well_named]. rewrite !andb_true_iff.
  intros [[_ Hds] Hfs] Hmd Hmf. apply Forall_app. split.
  - apply mapM_Some_1 in Hmd. eapply Forall2_transfer; [exact Hmd|].
    intros d r Hd Hr. apply tree_hash_result in Hr as [Hp Hh].
    split; [|done]. rewrite Hp. apply well_named_path.
    by apply (proj1 (forallb_forall _ _) Hds), list_elem_of_In.
  - apply mapM_Some_1 in Hmf. eapply Forall2_transfer; [exact Hmf|].
    intros p r Hp Hr. apply file_hash_result in Hr as [Hq Hh].
    split; [|done]. rewrite Hq.
    by apply (proj1 (forallb_forall _ _) Hfs), list_elem_of_In.
Qed.

Lemma clean_separable l :
  Forall clean l ->
  Forall (fun s => separable s = true) (sorted (map entry_descriptor l)).
Proof.
  intros Hl. rewrite sorted_Permutation. apply Forall_fmap.
  eapply Forall_impl; [exact Hl|]. intros e [Hn Hh]. simpl.
  by apply entry_descriptor_separable.
Qed.

(** Two directories whose entries differ in one place, by the descriptor,
    get different digests. *)
End results.

Lemma hexdump_nul_free_digests : nul_free_digests hexdump.
Proof.
  intros l. simpl. induction l as [|b l IH]; [done|]. cbn [hex_bytes].
  rewrite nul_free_app, IH, andb_true_r. by destruct b; vm_compute.
Qed.

(** * Further properties of the module *)

(** ** The chunked read of [_get_filehash] *)

(** X1.  With a positive chunk size, the loop of [_get_filehash] feeds the
    hash object the content of the file in order, in pieces that are never
    empty and never longer than the chunk size, all but the last exactly as
    long as the chunk size; no contract of the hash object is needed. *)
Theorem hash_chunks_feeds_pieces
    (H : HASH) (chunk_size : Z) (hasher : hstate H) (f : bytes) :
  (0 < chunk_size)%Z ->
  exists pieces last,
    concat pieces ++ last = f
    /\ Forall (fun c => Z.of_nat (length c) = chunk_size) pieces
    /\ (Z.of_nat (length last) <= chunk_size)%Z
    /\ hash_chunks H chunk_size hasher f
       = match last with
         | [] => fold_left (update H) pieces hasher
         | _ => update H (fold_left (update H) pieces hasher) last
         end.
Proof.
  intros Hpos. revert Hpos.
  apply (hash_chunks_elim
           (fun H' chunk_size hasher f r =>
              (0 < chunk_size)%Z ->
              exists pieces last,
                concat pieces ++ last = f
                /\ Forall (fun c => Z.of_nat (length c) = chunk_size) pieces
                /\ (Z.of_nat (length last) <= chunk_size)%Z
                /\ r = match last with
                       | [] => fold_left (update H') pieces hasher
                       | _ => update H' (fold_left (update H') pieces hasher)
                                last
                       end)); clear.
  - intros H cs hasher f b0 e _ Hpos.
    destruct (read_positive cs f Hpos) as [Hread Hn]. rewrite Hread in e.
    injection e as Htake _. exists [], []. simpl.
    split; [|split; [done|split; [lia|done]]].
    destruct f; [done|]. destruct (Z.to_nat cs); [lia|done].
  - intros H cs hasher f b chunk f' e IH _ Hpos.
    destruct (read_positive cs f Hpos) as [Hread Hn]. rewrite Hread in e.
    injection e as Htake Hdrop.
    destruct (IH Hpos) as (pieces & last & Hcat & Hall & Hlast & Hr).
    assert (length (b :: chunk) <= Z.to_nat cs) as Hlen
      by (rewrite <- Htake, length_take; lia).
    destruct (decide (length (b :: chunk) = Z.to_nat cs)) as [Hfull|Hshort].
    + exists ((b :: chunk) :: pieces), last.
      split; [|split; [|split; [done|done]]].
      * cbn [concat]. rewrite <- app_assoc, Hcat.
        by rewrite <- Htake, <- Hdrop, take_drop.
      * constructor; [lia|done].
    + assert (f' = []) as ->.
      { rewrite <- Hdrop. apply drop_ge.
        rewrite <- Htake, length_take in Hshort. lia. }
      exists [], (b :: chunk).
      split; [|split; [done|split; [lia|]]].
      * simpl. rewrite <- (take_drop (Z.to_nat cs) f), Htake, Hdrop.
        by rewrite app_nil_r.
      * rewrite Hr. destruct pieces as [|c pieces], last as [|x last];
          simpl in *; try done.
        -- inv Hall. destruct c; simpl in *; [lia|done].
        -- inv Hall. destruct c; simpl in *; [lia|done].
Qed.

Lemma hash_chunks_feeds_pieces_witness :
  hash_chunks hexdump 2 [] (list_byte_of_string "hello")
  = list_byte_of_string "hello"
  /\ exists pieces last,
       concat pieces ++ last = list_byte_of_string "hello"
       /\ Forall (fun c => Z.of_nat (length c) = 2%Z) pieces.
Proof.
  split; [by vm_compute|].
  destruct (hash_chunks_feeds_pieces hexdump 2 []
              (list_byte_of_string "hello") ltac:(lia))
    as (pieces & last & Hcat & Hall & _).
  by exists pieces, last.
Defined.

(** X2.  A chunk size of zero reads nothing: [f.read(0)] is empty, the loop
    ends at once, and every readable file gets the digest of no data,
    whatever it holds; a file that cannot be opened still raises. *)
Theorem chunk_size_zero_ignores_content
    (H : HASH) (fs : gmap string bytes) (filepath : string) :
  (forall hasher f, hash_chunks H 0 hasher f = hasher)
  /\ _get_filehash H fs filepath 0
     = match fs !! filepath with
       | Some _ => Ok (hexdigest H (hnew H []))
       | None => Raise (IOError filepath)
       end.
Proof.
  assert (forall hasher f, hash_chunks H 0 hasher f = hasher) as Hzero.
  { intros hasher f.
    assert (forall cs, cs = 0%Z -> hash_chunks H cs hasher f = hasher) as Hg;
      [|by apply Hg].
    intros cs.
    apply (hash_chunks_elim
             (fun H' chunk_size hasher f r => chunk_size = 0%Z -> r = hasher)).
    - done.
    - intros H' cs' h g b chunk g' e _ _ ->. by unfold read in e. }
  split; [done|]. unfold _get_filehash.
  destruct (fs !! filepath); [|done]. by rewrite Hzero.
Qed.

(** X3.  The chunk size -1 reads the whole file in one piece: one [update]
    with the full content, and none for an empty file. *)
Theorem chunk_size_minus_one_reads_all
    (H : HASH) (chunk_size : Z) (hasher : hstate H) (f : bytes) :
  chunk_size = (-1)%Z ->
  hash_chunks H chunk_size hasher f
  = match f with [] => hasher | _ => update H hasher f end.
Proof.
  apply (hash_chunks_elim
           (fun H' chunk_size hasher f r =>
              chunk_size = (-1)%Z ->
              r = match f with [] => hasher | _ => update H' hasher f end));
    clear.
  - intros H cs hasher f b0 e _ Hneg. unfold read in e.
    replace (cs <? 0)%Z with true in e by lia. by injection e as ->.
  - intros H cs hasher f b chunk f' e IH _ Hneg. unfold read in e.
    replace (cs <? 0)%Z with true in e by lia. injection e as -> <-.
    by rewrite IH.
Qed.

Lemma chunk_size_minus_one_reads_all_witness :
  hash_chunks hexdump (-1) [] (list_byte_of_string "hello")
  = list_byte_of_string "hello".
Proof.
  by rewrite (chunk_size_minus_one_reads_all hexdump (-1) []
                (list_byte_of_string "hello") eq_refl).
Defined.

(** ** The cache of [_get_filehash] *)

(** X4.  After a successful call with a cache, the cache holds the returned
    hash under the file path and is unchanged elsewhere; from then on the
    file is not read again: the same call returns the same hash and leaves
    the cache alone, whatever the file system and the chunk size have
    become. *)
Theorem _get_filehash_cached_round_trip
    (H : HASH) (fs : gmap string bytes) (filepath : string)
    (chunk_size : Z) (cache cache' : gmap string string) (h : string) :
  _get_filehash_cached H fs filepath chunk_size cache = Ok (h, cache') ->
  cache' !! filepath = Some h
  /\ (forall k, k <> filepath -> cache' !! k = cache !! k)
  /\ (cache !! filepath = None ->
      _get_filehash H fs filepath chunk_size = Ok h)
  /\ (forall fs' chunk_size',
        _get_filehash_cached H fs' filepath chunk_size' cache'
        = Ok (h, cache')).
Proof.
  unfold _get_filehash_cached.
  destruct (cache !! filepath) as [h0|] eqn:Hget.
  - intros [= ? ?]. subst h0 cache'.
    split; [done|]. split; [done|]. split; [done|].
    intros fs' cs'. by rewrite Hget.
  - destruct (_get_filehash H fs filepath chunk_size) as [h0|e]; [|done].
    intros [= ? ?]. subst h0 cache'. rewrite lookup_insert_eq.
    split; [done|]. split; [|split; [done|]].
    + intros k Hk. by rewrite lookup_insert_ne.
    + done.
Qed.

Lemma _get_filehash_cached_round_trip_witness :
  exists h cache',
    _get_filehash_cached hexdump hello_fs "/r/a.txt" 2 ∅ = Ok (h, cache')
    /\ cache' !! "/r/a.txt" = Some h
    /\ _get_filehash_cached hexdump ∅ "/r/a.txt" 0 cache' = Ok (h, cache').
Proof.
  destruct (_get_filehash_cached hexdump hello_fs "/r/a.txt" 2 ∅)
    as [[h cache']|e] eqn:Hcall; [|by vm_compute in Hcall].
  exists h, cache'.
  destruct (_get_filehash_cached_round_trip hexdump hello_fs "/r/a.txt" 2 ∅
              cache' h Hcall) as (Hl & _ & _ & Hagain).
  split; [done|]. split; [done|]. apply Hagain.
Defined.

(** A failed call raises for the file it could not open. *)
Lemma _get_filehash_raise H fs filepath chunk_size e :
  _get_filehash H fs filepath chunk_size = Raise e ->
  e = IOError filepath /\ fs !! filepath = None.
Proof.
  unfold _get_filehash. destruct (fs !! filepath); [done|].
  by intros [= <-].
Qed.

Section serial_cache.
Context (H : HASH) (fs : gmap string bytes) (cwd : string)
  (filter_ : Filter) (protocol : Protocol) (chunk_size : Z) (allow : bool).

Lemma file_apply_serial_dom path cache r cache' :
  file_apply_serial H fs chunk_size path cache = Ok (r, cache') ->
  dom cache' = {[ real path ]} ∪ dom cache.
Proof.
  unfold file_apply_serial, bind, _get_filehash_cached.
  destruct (cache !! real path) as [h|] eqn:Hget.
  - intros [= _ <-]. apply elem_of_dom_2 in Hget. set_solver.
  - destruct (_get_filehash H fs (real path) chunk_size); [|done].
    intros [= _ <-]. by rewrite dom_insert_L.
Qed.

Lemma traverse_dom {A B} (f : A -> M (gmap string string) B)
    (g : A -> gset string) (l : list A) :
  Forall (fun x => forall c y c', f x c = Ok (y, c') -> dom c' = g x ∪ dom c)
         l ->
  forall c ys c',
    traverse f l c = Ok (ys, c') -> dom c' = ⋃ (map g l) ∪ dom c.
Proof.
  induction 1 as [|x l Hx _ IH]; intros c ys c'.
  - intros [= _ <-]. simpl. set_solver.
  - cbn [traverse map]. unfold bind at 1.
    destruct (f x c) as [[y c1]|e] eqn:Hfx; [|done].
    unfold bind at 1.
    destruct (traverse f l c1) as [[ys' c2]|e] eqn:Hl; [|done].
    intros [= _ <-]. rewrite (IH _ _ _ Hl), (Hx _ _ _ Hfx).
    rewrite union_list_cons. clear. set_solver.
Qed.

Lemma scantree_serial_dom t cache r cache' :
  scantree t (file_apply_serial H fs chunk_size)
    (fun n => lift (dir_apply H cwd filter_ protocol n)) allow cache
  = Ok (r, cache') ->
  dom cache' = real_paths_of t ∪ dom cache.
Proof.
  revert cache r cache'.
  induction t as [path ds files IH|path tp] using Tree_ind;
    intros cache r cache'; cbn [scantree real_paths_of].
  - unfold bind at 1.
    destruct (traverse _ ds cache) as [[ds' c1]|e] eqn:Hds; [|done].
    unfold bind at 1.
    destruct (traverse _ files c1) as [[fs' c2]|e] eqn:Hfs; [|done].
    unfold lift. destruct (dir_apply _ _ _ _ _); [|done].
    intros [= _ <-].
    apply (traverse_dom _ real_paths_of) in Hds;
      [|eapply Forall_impl; [exact IH|]; simpl; eauto].
    apply (traverse_dom _ (fun p => {[ real p ]})) in Hfs;
      [|apply Forall_forall; intros p _ c y c';
        apply file_apply_serial_dom].
    rewrite Hfs, Hds.
    assert (⋃ map (fun p : Path => {[real p]}) files
            = (list_to_set (map real files) : gset string)) as ->.
    { clear. induction files as [|p files IH]; [done|].
      cbn [map list_to_set]. rewrite union_list_cons. by rewrite IH. }
    generalize (⋃ map real_paths_of ds).
    generalize (list_to_set (map real files) : gset string).
    clear. set_solver.
  - destruct allow; [|done]. unfold lift.
    destruct (dir_apply _ _ _ _ _); [|done].
    intros [= _ <-]. set_solver.
Qed.

End serial_cache.

(** X5.  When the serial branch of [dirhash] succeeds, the cache it leaves
    holds exactly the real paths of the files of the tree, each one with the
    hash of that file: a file reached through several paths is stored
    once. *)
Theorem serial_cache_after_run
    (H : HASH) (fs : gmap string bytes) (cwd : string) (t : Tree)
    (filter_ : Filter) (protocol : Protocol) (chunk_size : Z)
    (r : Path * string) (cache : gmap string string) :
  scantree t (file_apply_serial H fs chunk_size)
    (fun n => lift (dir_apply H cwd filter_ protocol n))
    (allow_cyclic_links protocol) ∅
  = Ok (r, cache) ->
  dom cache = real_paths_of t
  /\ (forall k h, cache !! k = Some h ->
                  _get_filehash H fs k chunk_size = Ok h)
  /\ dirhash_serial H fs cwd t filter_ protocol chunk_size = Ok (snd r).
Proof.
  intros Hrun. split; [|split].
  - apply scantree_serial_dom in Hrun. rewrite Hrun, dom_empty_L.
    set_solver.
  - pose proof (scantree_serial_agrees H fs cwd filter_ protocol chunk_size
                  (allow_cyclic_links protocol) t ∅) as Ha.
    destruct (tree_hash _ _ _ _ _ _ _ t) as [r0|].
    + destruct Ha as (c & Hc & Hok); [by intros ?? ?%lookup_empty_Some|].
      rewrite Hrun in Hc. by injection Hc as _ <-.
    + destruct Ha as (e & He); [by intros ?? ?%lookup_empty_Some|].
      by rewrite Hrun in He.
  - unfold dirhash_serial. rewrite Hrun. by destruct r.
Qed.

Lemma serial_cache_after_run_witness :
  exists r cache,
    scantree sample_tree (file_apply_serial hexdump sample_fs 4)
      (fun n => lift (dir_apply hexdump "/" Filter_default hash_reference n))
      (allow_cyclic_links hash_reference) ∅
    = Ok (r, cache)
    /\ dom cache = real_paths_of sample_tree
    /\ size cache = 3.
Proof.
  destruct (scantree sample_tree (file_apply_serial hexdump sample_fs 4)
              (fun n => lift (dir_apply hexdump "/" Filter_default
                                hash_reference n))
              (allow_cyclic_links hash_reference) ∅)
    as [[r cache]|e] eqn:Hrun; [|by vm_compute in Hrun].
  exists r, cache. split; [done|].
  destruct (serial_cache_after_run hexdump sample_fs "/" sample_tree
              Filter_default hash_reference 4 r cache Hrun) as (Hdom & _).
  split; [done|]. rewrite <- size_dom, Hdom. by vm_compute.
Defined.

(** ** What [dirhash] raises *)

Lemma raises_only_mono {S A} (E E' : exn -> Prop) (m : M S A) :
  (forall e, E e -> E' e) -> raises_only E m -> raises_only E' m.
Proof. intros HE Hm s e He. eauto. Qed.

Lemma raises_only_ret {S A} (E : exn -> Prop) (a : A) :
  raises_only (S := S) E (ret a).
Proof. by intros s e. Qed.

Lemma raises_only_bind {S A B} (E : exn -> Prop) (m : M S A)
    (k : A -> M S B) :
  raises_only E m -> (forall a, raises_only E (k a)) ->
  raises_only E (bind m k).
Proof.
  intros Hm Hk s e. unfold bind.
  destruct (m s) as [[a s']|e'] eqn:Hms.
  - apply Hk.
  - intros [= <-]. by eapply Hm.
Qed.

Lemma raises_only_traverse {S A B} (E : exn -> Prop) (f : A -> M S B) l :
  Forall (fun x => raises_only E (f x)) l -> raises_only E (traverse f l).
Proof.
  induction 1 as [|x l Hx _ IH]; [apply raises_only_ret|].
  cbn [traverse]. apply raises_only_bind; [done|]. intros y.
  apply raises_only_bind; [done|]. intros ys. apply raises_only_ret.
Qed.

Lemma scan_error_mono fs allow ed (K K' : gset string) (c c' : bool) e :
  K ⊆ K' -> (c = true -> c' = true) ->
  scan_error fs allow ed K c e -> scan_error fs allow ed K' c' e.
Proof.
  intros HK Hc [(-> & -> & Hcyc)|[(-> & ->)|(k & -> & Hk & Hnone)]].
  - left. auto.
  - right; left. auto.
  - right; right. exists k. auto.
Qed.

Section raises.
Context (H : HASH) (fs : gmap string bytes) (cwd : string)
  (filter_ : Filter) (protocol : Protocol) (chunk_size : Z) (allow : bool).

Lemma dir_apply_raise n e :
  dir_apply H cwd filter_ protocol n = Raise e ->
  e = ValueError NothingToHash /\ empty_dirs filter_ = false.
Proof.
  intros Hr.
  destruct (dir_apply_cases H cwd filter_ protocol n) as (d & _ & Hd).
  rewrite Hr in Hd. destruct (negb (empty_dirs filter_) && _) eqn:Hc;
    [|done].
  injection Hd as ->. split; [done|].
  apply andb_true_iff in Hc as [Hc _]. by apply negb_true_iff in Hc.
Qed.

Lemma lift_dir_apply_raises {S} K c n :
  raises_only (S := S) (scan_error fs allow (empty_dirs filter_) K c)
    (lift (dir_apply H cwd filter_ protocol n)).
Proof.
  intros s e. unfold lift.
  destruct (dir_apply H cwd filter_ protocol n) as [r|e'] eqn:Hd; [done|].
  intros [= <-]. apply dir_apply_raise in Hd as [-> Hed].
  right; left. done.
Qed.

Lemma file_apply_serial_raises path K c :
  real path ∈ K ->
  raises_only (scan_error fs allow (empty_dirs filter_) K c)
    (file_apply_serial H fs chunk_size path).
Proof.
  intros HK cache e. unfold file_apply_serial, bind, _get_filehash_cached.
  destruct (cache !! real path); [done|].
  destruct (_get_filehash H fs (real path) chunk_size) as [h|e'] eqn:Hh;
    [done|].
  intros [= <-]. apply _get_filehash_raise in Hh as [-> Hnone].
  right; right. eauto.
Qed.

Lemma file_apply_parallel_raises table path K c :
  is_Some (table !! real path) ->
  raises_only (scan_error fs allow (empty_dirs filter_) K c)
    (file_apply_parallel table path).
Proof.
  intros [h Hh] s e. unfold file_apply_parallel. by rewrite Hh.
Qed.

Lemma child_real_paths path ds files d :
  d ∈ ds -> real_paths_of d ⊆ real_paths_of (TDir path ds files).
Proof.
  intros Hd k Hk. cbn [real_paths_of].
  apply elem_of_union_l, elem_of_union_list.
  exists (real_paths_of d). split; [|done]. by apply list_elem_of_fmap_2.
Qed.

Lemma file_real_path path ds files p :
  p ∈ files -> real p ∈ real_paths_of (TDir path ds files).
Proof.
  intros Hp. cbn [real_paths_of].
  apply elem_of_union_r, elem_of_list_to_set. by apply list_elem_of_fmap_2.
Qed.

Lemma child_has_cyclic_link path ds files d :
  d ∈ ds -> has_cyclic_link d = true ->
  has_cyclic_link (TDir path ds files) = true.
Proof.
  intros Hd Hc. cbn [has_cyclic_link]. apply existsb_exists.
  exists d. by rewrite <- list_elem_of_In.
Qed.

(** A reduction raises nothing but the errors of [scan_error], as long as
    the file transform does. *)
Lemma scantree_raises {S} (file_apply : Path -> M S (Path * string)) t :
  (forall K c p, real p ∈ K -> real p ∈ real_paths_of t ->
     raises_only (scan_error fs allow (empty_dirs filter_) K c)
       (file_apply p)) ->
  raises_only
    (scan_error fs allow (empty_dirs filter_) (real_paths_of t)
       (has_cyclic_link t))
    (scantree t file_apply
       (fun n => lift (dir_apply H cwd filter_ protocol n)) allow).
Proof.
  induction t as [path ds files IH|path tp] using Tree_ind; intros Hfa.
  - cbn [scantree]. apply raises_only_bind.
    { apply raises_only_traverse. rewrite Forall_forall in *.
      intros d Hd.
      eapply raises_only_mono;
        [|apply IH; [done|]; intros K c p HK Hp; apply Hfa; [done|];
          by eapply child_real_paths].
      intros e. apply scan_error_mono.
      - by eapply child_real_paths.
      - by eapply child_has_cyclic_link. }
    intros ds'. apply raises_only_bind.
    { apply raises_only_traverse, Forall_forall. intros p Hp.
      apply Hfa; by eapply file_real_path. }
    intros fs'. apply lift_dir_apply_raises.
  - cbn [scantree].
    pose proof (fun n => lift_dir_apply_raises (S := S)
                  (real_paths_of (TCyclic path tp))
                  (has_cyclic_link (TCyclic path tp)) n) as Hl.
    destruct allow.
    + apply Hl.
    + intros s e [= <-]. left. done.
Qed.

End raises.

Lemma scan_error_allow fs allow ed K c e :
  scan_error fs true ed K c e -> scan_error fs allow ed K c e.
Proof.
  intros [(_ & [=] & _)|[?|?]]; [right; left|right; right]; done.
Qed.

Lemma _get_instance_protocol_value_error protocol e :
  _get_instance_protocol protocol = Raise e -> exists why, e = ValueError why.
Proof.
  destruct protocol as [|eps ocl|p]; cbn [_get_instance_protocol];
    [apply Protocol_init_value_error..|done].
Qed.

Lemma dirhash_serial_raises H fs cwd t filter_ protocol chunk_size e :
  dirhash_serial H fs cwd t filter_ protocol chunk_size = Raise e ->
  scan_error fs (allow_cyclic_links protocol) (empty_dirs filter_)
    (real_paths_of t) (has_cyclic_link t) e.
Proof.
  unfold dirhash_serial.
  destruct (scantree _ _ _ _ _) as [[[p d] cache]|e'] eqn:Hs; [done|].
  intros [= <-]. revert Hs. apply scantree_raises.
  intros K c p HK _. by apply file_apply_serial_raises.
Qed.

Lemma dirhash_parallel_raises H fs cwd t filter_ protocol chunk_size jobs e :
  dirhash_parallel H fs cwd t filter_ protocol chunk_size jobs = Raise e ->
  (e = ValueError PoolProcesses /\ (jobs < 1)%Z)
  \/ scan_error fs (allow_cyclic_links protocol) (empty_dirs filter_)
       (real_paths_of t) (has_cyclic_link t) e.
Proof.
  unfold dirhash_parallel. rewrite scantree_extract_real_paths.
  destruct (allow_cyclic_links protocol || negb (has_cyclic_link t))
    eqn:Hallow.
  2: { apply orb_false_iff in Hallow as [Ha Hc%negb_false_iff].
       intros [= <-]. right; left. done. }
  destruct (_parmap _ _ jobs) as [file_hashes|e'] eqn:Hpar.
  - assert (1 <= jobs)%Z as Hjobs.
    { unfold _parmap in Hpar. destruct (jobs =? 1)%Z eqn:H1; [lia|].
      destruct (jobs <? 1)%Z eqn:H2; [done|lia]. }
    pose proof (_parmap_mapM (fun p => _get_filehash H fs p chunk_size)
                  (elements (real_paths_of t ∪ ∅)) jobs Hjobs) as Hm.
    destruct (mapM _ (elements _)) as [results|] eqn:Hmap.
    2: { destruct Hm as (e' & He'). congruence. }
    assert (results = file_hashes) as -> by congruence.
    apply mapM_Some_1 in Hmap.
    destruct (dict_of_pairs_spec H fs chunk_size
                (elements (real_paths_of t ∪ ∅)) file_hashes)
      as [_ Hdom].
    { eapply Forall2_impl; [exact Hmap|]. intros k v Hkv. simpl in Hkv.
      destruct (_get_filehash H fs k chunk_size); simpl in Hkv;
        [congruence|discriminate]. }
    destruct (apply _ _ t tt) as [[[p d] []]|e'] eqn:Ha; [done|].
    intros [= <-]. right. rewrite apply_scantree in Ha.
    apply (scan_error_allow _ (allow_cyclic_links protocol)).
    revert Ha. apply scantree_raises. intros K c p HK Hp.
    apply file_apply_parallel_raises, Hdom, elem_of_elements.
    revert Hp. generalize (real_paths_of t). clear. set_solver.
  - intros [= <-]. unfold _parmap in Hpar.
    destruct (traverse _ _ tt) as [[ys []]|e''] eqn:Htr.
    + destruct (jobs =? 1)%Z; [done|].
      destruct (jobs <? 1)%Z eqn:H2; [|done].
      injection Hpar as <-. left. split; [done|lia].
    + apply traverse_lift_raise in Htr as (k & Hk & Hr).
      apply _get_filehash_raise in Hr as [-> Hnone].
      destruct (jobs =? 1)%Z eqn:H1.
      * injection Hpar as <-. right; right; right. exists k.
        split; [done|]. split; [|done].
        apply elem_of_elements in Hk. revert Hk.
        generalize (real_paths_of t). clear. set_solver.
      * destruct (jobs <? 1)%Z eqn:H2; injection Hpar as <-.
        -- left. split; [done|lia].
        -- right; right; right. exists k.
           split; [done|]. split; [|done].
           apply elem_of_elements in Hk. revert Hk.
           generalize (real_paths_of t). clear. set_solver.
Qed.

(** What [dirhash] raises in this model: the error of the protocol, that of
    the pool, or one of [scan_error]. *)
Lemma dirhash_raise_cases (H : HASH) (fs : gmap string bytes) (cwd : string)
    (t : Tree) (filtering : option Filter) (protocol : protocol_arg)
    (chunk_size jobs : Z) (e : exn) :
  dirhash H fs cwd t filtering protocol chunk_size jobs = Raise e ->
  (exists why, e = ValueError why
               /\ _get_instance_protocol protocol = Raise e)
  \/ (exists p, _get_instance_protocol protocol = Ok p
        /\ ((e = ValueError PoolProcesses /\ (jobs < 1)%Z)
            \/ scan_error fs (allow_cyclic_links p)
                 (empty_dirs (_get_instance_filter filtering))
                 (real_paths_of t) (has_cyclic_link t) e)).
Proof.
  intros Hr. unfold dirhash in Hr.
  destruct (_get_instance_protocol protocol) as [p|e'] eqn:Hp.
  - right. exists p. split; [done|].
    destruct (jobs =? 1)%Z.
    + right. by eapply dirhash_serial_raises.
    + by eapply dirhash_parallel_raises.
  - injection Hr as ->. left.
    destruct (_get_instance_protocol_value_error _ _ Hp) as [why ->].
    eauto.
Qed.

(** X6.  The look-up [real_path_to_hash[path.real]] of the parallel branch
    never fails.  Once the pool has returned the file hashes, the table
    holds the real path of every file of the tree, with the hash of that
    file; so whatever [dirhash] raises, it is not the [KeyError] of the
    look-up. *)
Theorem parallel_lookup_never_fails (H : HASH) (fs : gmap string bytes)
    (cwd : string) (t : Tree) (filtering : option Filter)
    (protocol : protocol_arg) (chunk_size jobs : Z) :
  (forall file_hashes k,
     _parmap (fun p => _get_filehash H fs p chunk_size)
       (elements (real_paths_of t)) jobs = Ok file_hashes ->
     k ∈ real_paths_of t ->
     exists h,
       dict_of_pairs (zip (elements (real_paths_of t)) file_hashes) !! k
       = Some h
       /\ _get_filehash H fs k chunk_size = Ok h)
  /\ (forall k,
        dirhash H fs cwd t filtering protocol chunk_size jobs
        <> Raise (KeyError k)).
Proof.
  split.
  - intros file_hashes k Hpar Hk.
    assert (1 <= jobs)%Z as Hjobs.
    { unfold _parmap in Hpar. destruct (jobs =? 1)%Z eqn:H1; [lia|].
      destruct (jobs <? 1)%Z eqn:H2; [done|lia]. }
    pose proof (_parmap_mapM (fun p => _get_filehash H fs p chunk_size)
                  (elements (real_paths_of t)) jobs Hjobs) as Hm.
    destruct (mapM _ (elements _)) as [results|] eqn:Hmap.
    2: { destruct Hm as (e' & He'). congruence. }
    assert (results = file_hashes) as -> by congruence.
    apply mapM_Some_1 in Hmap.
    destruct (dict_of_pairs_spec H fs chunk_size
                (elements (real_paths_of t)) file_hashes) as [Hok Hdom].
    { eapply Forall2_impl; [exact Hmap|]. intros k' v Hkv. simpl in Hkv.
      destruct (_get_filehash H fs k' chunk_size); simpl in Hkv;
        [congruence|discriminate]. }
    destruct (Hdom k) as [h Hh]; [by apply elem_of_elements|].
    exists h. split; [done|]. by apply Hok.
  - intros k Hr. apply dirhash_raise_cases in Hr
      as [(why & [=] & _)|(p & _ & [[[=] _]|Hs])].
    destruct Hs as [([=] & _)|[([=] & _)|(k' & [=] & _)]].
Qed.

Lemma parallel_lookup_never_fails_witness :
  exists h,
    dict_of_pairs (zip (elements (real_paths_of hello_tree)) ["68656c6c6f"])
    !! real a_txt = Some h
    /\ _get_filehash hexdump hello_fs (real a_txt) 4 = Ok h.
Proof.
  apply (proj1 (parallel_lookup_never_fails hexdump hello_fs "/" hello_tree
                  None ProtocolNone 4 2)); by vm_compute.
Defined.

(** X7.  With less than one job the directory is still scanned, so an
    invalid protocol or a cyclic link that is not allowed is reported first;
    otherwise the call ends in the error of the pool, and no file is
    opened. *)
Theorem dirhash_pool_refused (H : HASH) (fs : gmap string bytes)
    (cwd : string) (t : Tree) (filtering : option Filter)
    (protocol : protocol_arg) (chunk_size jobs : Z) :
  (jobs < 1)%Z ->
  dirhash H fs cwd t filtering protocol chunk_size jobs
  = match _get_instance_protocol protocol with
    | Raise e => Raise e
    | Ok p =>
        if allow_cyclic_links p || negb (has_cyclic_link t)
        then Raise (ValueError PoolProcesses)
        else Raise SymlinkRecursionError
    end.
Proof.
  intros Hjobs. unfold dirhash.
  destruct (_get_instance_protocol protocol) as [p|e]; [|done].
  replace (jobs =? 1)%Z with false by lia.
  unfold dirhash_parallel. rewrite scantree_extract_real_paths.
  destruct (_ || _); [|done]. unfold _parmap.
  replace (jobs =? 1)%Z with false by lia.
  by replace (jobs <? 1)%Z with true by lia.
Qed.

Lemma dirhash_pool_refused_witness :
  dirhash hexdump ∅ "/" sample_tree None ProtocolNone 4 0
  = Raise (ValueError PoolProcesses)
  /\ dirhash hexdump sample_fs "/" cyclic_tree None ProtocolNone 4 (-1)
     = Raise SymlinkRecursionError.
Proof.
  split.
  - by rewrite (dirhash_pool_refused hexdump ∅ "/" sample_tree None
                  ProtocolNone 4 0) by lia.
  - by rewrite (dirhash_pool_refused hexdump sample_fs "/" cyclic_tree None
                  ProtocolNone 4 (-1)) by lia.
Defined.

(** X8.  Under the policy [raise] a tree with a cyclic link has no digest,
    whatever the other arguments; when [jobs] is not 1 the error is the
    scanner's, raised before any file is hashed. *)
Theorem cyclic_link_refused (H : HASH) (fs : gmap string bytes)
    (cwd : string) (t : Tree) (filtering : option Filter)
    (protocol : protocol_arg) (chunk_size jobs : Z) (p : Protocol) :
  _get_instance_protocol protocol = Ok p ->
  on_cyclic_link p = OnCyclicLink.RAISE ->
  has_cyclic_link t = true ->
  digest_of (dirhash H fs cwd t filtering protocol chunk_size jobs) = None
  /\ (jobs <> 1%Z ->
      dirhash H fs cwd t filtering protocol chunk_size jobs
      = Raise SymlinkRecursionError).
Proof.
  intros Hp Hpol Hc.
  assert (allow_cyclic_links p = false) as Hallow.
  { unfold allow_cyclic_links. by rewrite bool_decide_true. }
  split.
  - destruct (Z.lt_ge_cases jobs 1) as [Hj|Hj].
    + by apply dirhash_no_pool.
    + rewrite dirhash_tree_hash, Hp, Hallow by done.
      by rewrite tree_hash_cyclic_refused.
  - intros Hj. unfold dirhash. rewrite Hp.
    replace (jobs =? 1)%Z with false by lia.
    unfold dirhash_parallel. rewrite scantree_extract_real_paths.
    by rewrite Hallow, Hc.
Qed.

Lemma cyclic_link_refused_witness :
  digest_of (dirhash hexdump sample_fs "/" cyclic_tree None ProtocolNone 4 1)
  = None
  /\ dirhash hexdump sample_fs "/" cyclic_tree None ProtocolNone 4 2
     = Raise SymlinkRecursionError.
Proof.
  split.
  - apply (cyclic_link_refused hexdump sample_fs "/" cyclic_tree None
             ProtocolNone 4 1 _ eq_refl); by vm_compute.
  - apply (cyclic_link_refused hexdump sample_fs "/" cyclic_tree None
             ProtocolNone 4 2 _ eq_refl); [by vm_compute..|lia].
Defined.

(** X9.  Every file of the tree is opened, whether or not the protocol
    includes [data]: when one of them cannot be opened there is no digest. *)
Theorem unreadable_file_no_digest (H : HASH) (fs : gmap string bytes)
    (cwd : string) (t : Tree) (filtering : option Filter)
    (protocol : protocol_arg) (chunk_size jobs : Z) (k : string) :
  k ∈ real_paths_of t -> fs !! k = None ->
  digest_of (dirhash H fs cwd t filtering protocol chunk_size jobs) = None.
Proof.
  intros Hk Hnone.
  destruct (Z.lt_ge_cases jobs 1) as [Hj|Hj]; [by apply dirhash_no_pool|].
  rewrite dirhash_tree_hash by done.
  destruct (_get_instance_protocol protocol) as [p|e]; [|done].
  destruct (tree_hash _ _ _ _ _ _ _ t) as [r|] eqn:Hr; [|done].
  destruct (tree_hash_reads _ _ _ _ _ _ _ _ _ k Hr Hk) as [h Hh].
  unfold _get_filehash in Hh. by rewrite Hnone in Hh.
Qed.

Lemma unreadable_file_no_digest_witness :
  digest_of (dirhash hexdump hello_fs "/" sample_tree None
               (ProtocolKwargs (Some ["name"]) None) 4 1) = None.
Proof.
  apply (unreadable_file_no_digest hexdump hello_fs "/" sample_tree None
           (ProtocolKwargs (Some ["name"]) None) 4 1 (real b_txt));
    by vm_compute.
Defined.

(** ** What the digest does not depend on *)

Lemma tree_alike_ind' (same_dir same_file : Path -> Path -> Prop)
    (P : Tree -> Tree -> Prop) :
  (forall path path' ds ds' fs fs',
     same_dir path path' -> Forall2 (tree_alike same_dir same_file) ds ds' ->
     Forall2 P ds ds' -> Forall2 same_file fs fs' ->
     P (TDir path ds fs) (TDir path' ds' fs')) ->
  (forall path tp path' tp',
     same_dir path path' -> relative path = relative path' ->
     relative tp = relative tp' ->
     P (TCyclic path tp) (TCyclic path' tp')) ->
  forall t t', tree_alike same_dir same_file t t' -> P t t'.
Proof.
  intros Hdir Hcyc. fix IH 3.
  intros t t' [path path' ds ds' fs fs' Hp Hds Hfs|path tp path' tp' Hp Hr Ht].
  - apply Hdir; [done..| |done].
    induction Hds as [|d d' ds ds' Hd _ IHds]; constructor.
    + apply IH, Hd.
    + apply IHds.
  - by apply Hcyc.
Qed.

Lemma tree_alike_path (same_dir same_file : Path -> Path -> Prop) t t' :
  tree_alike same_dir same_file t t' -> same_dir (tree_path t) (tree_path t').
Proof. by intros [|]. Qed.

Lemma mapM_Forall2 {A A' B B'} (R : A -> A' -> Prop) (Q : B -> B' -> Prop)
    (f : A -> option B) (g : A' -> option B') l l' :
  Forall2 (fun x x' => R x x' /\ option_Forall2 Q (f x) (g x')) l l' ->
  option_Forall2 (Forall2 Q) (mapM f l) (mapM g l').
Proof.
  induction 1 as [|x x' l l' [_ Hx] _ IH]; [by repeat constructor|].
  cbn [mapM]. destruct Hx as [y y' Hy|]; [|constructor]. simpl.
  destruct IH as [k k' Hk|]; constructor. by constructor.
Qed.

Lemma Forall2_map_eq {A A' B} (f : A -> B) (g : A' -> B) l l' :
  Forall2 (fun x x' => f x = g x') l l' -> map f l = map g l'.
Proof. induction 1; simpl; congruence. Qed.

Section alike.
Context (H : HASH) (fs fs' : gmap string bytes) (cwd : string)
  (filter_ : Filter) (protocol : Protocol) (chunk_size : Z) (allow : bool)
  (same_dir same_file : Path -> Path -> Prop).

Notation entry_descriptor := (entry_descriptor_of protocol).

Hypothesis same_dir_descriptor : forall p p' h,
  same_dir p p' ->
  entry_descriptor (p, h) = entry_descriptor (p', h)
  /\ (relative p = "" <-> relative p' = "").

Hypothesis same_file_descriptor : forall p p',
  same_file p p' ->
  option_Forall2 (fun e e' => entry_descriptor e = entry_descriptor e')
    (file_hash H fs chunk_size p) (file_hash H fs' chunk_size p').

Lemma dir_apply_alike path path' ds files ds2 files2 :
  map entry_descriptor (ds ++ files) = map entry_descriptor (ds2 ++ files2) ->
  (relative path = "" <-> relative path' = "") ->
  option_Forall2 (same_result path path')
    (to_option (dir_apply H cwd filter_ protocol (Dir path ds files)))
    (to_option (dir_apply H cwd filter_ protocol (Dir path' ds2 files2))).
Proof.
  intros Hmap Hrel. unfold dir_apply. cbn [get_descriptor node_path].
  fold entry_descriptor. rewrite Hmap.
  replace (empty (Dir path' ds2 files2)) with (empty (Dir path ds files)).
  2: { apply (f_equal length) in Hmap.
       rewrite !length_map, !length_app in Hmap.
       destruct ds, files, ds2, files2; simpl in *; done || lia. }
  replace (bool_decide (relative path' = ""))
    with (bool_decide (relative path = "")) by (by apply bool_decide_ext).
  destruct (_ && _); constructor. done.
Qed.

Lemma tree_hash_alike t t' :
  tree_alike same_dir same_file t t' ->
  option_Forall2 (same_result (tree_path t) (tree_path t'))
    (tree_hash H fs cwd filter_ protocol chunk_size allow t)
    (tree_hash H fs' cwd filter_ protocol chunk_size allow t').
Proof.
  induction 1 as [path path' ds ds' files files' Hp Hds IH Hfs
                 |path tp path' tp' Hp Hr Ht] using tree_alike_ind'.
  - cbn [tree_hash tree_path].
    assert (option_Forall2
              (Forall2 (fun e e' => entry_descriptor e = entry_descriptor e'))
              (mapM (tree_hash H fs cwd filter_ protocol chunk_size allow) ds)
              (mapM (tree_hash H fs' cwd filter_ protocol chunk_size allow)
                 ds')) as Hd.
    { apply (mapM_Forall2 (tree_alike same_dir same_file)).
      clear Hfs. induction Hds as [|d d' ds ds' Hd Hds IHds];
        [constructor|].
      apply Forall2_cons_1 in IH as [IHd IH]. constructor; [|by apply IHds].
      split; [done|].
      destruct IHd as [[q h] [q' h'] (Hq & Hq' & Hh)|]; constructor.
      simpl in Hq, Hq', Hh. subst q q' h'.
      by apply same_dir_descriptor, tree_alike_path with same_file. }
    assert (option_Forall2
              (Forall2 (fun e e' => entry_descriptor e = entry_descriptor e'))
              (mapM (file_hash H fs chunk_size) files)
              (mapM (file_hash H fs' chunk_size) files')) as Hf.
    { apply (mapM_Forall2 same_file).
      eapply Forall2_impl; [exact Hfs|]. intros p p' Hpp. split; [done|].
      by apply same_file_descriptor. }
    destruct Hd as [k k' Hk|]; [|constructor]. simpl.
    destruct Hf as [l l' Hl|]; [|constructor]. simpl.
    apply dir_apply_alike; [|by apply (same_dir_descriptor _ _ "")].
    apply Forall2_map_eq, Forall2_app; done.
  - cbn [tree_hash tree_path]. destruct allow; [|constructor].
    unfold dir_apply. cbn [node_path empty get_descriptor].
    rewrite !andb_false_r.
    unfold _get_cyclic_linked_dir_descriptor. rewrite Hr, Ht.
    destruct (posixpath.relpath _ _ _); constructor. done.
Qed.

(** The same for a root whose own path is not looked at. *)
Lemma dir_hash_alike path path' ds ds' files files' :
  (relative path = "" <-> relative path' = "") ->
  Forall2 (tree_alike same_dir same_file) ds ds' ->
  Forall2 same_file files files' ->
  option_Forall2 (same_result path path')
    (tree_hash H fs cwd filter_ protocol chunk_size allow
       (TDir path ds files))
    (tree_hash H fs' cwd filter_ protocol chunk_size allow
       (TDir path' ds' files')).
Proof.
  intros Hrel Hds Hfs. cbn [tree_hash].
  assert (option_Forall2
            (Forall2 (fun e e' => entry_descriptor e = entry_descriptor e'))
            (mapM (tree_hash H fs cwd filter_ protocol chunk_size allow) ds)
            (mapM (tree_hash H fs' cwd filter_ protocol chunk_size allow)
               ds')) as Hd.
  { apply (mapM_Forall2 (tree_alike same_dir same_file)).
    eapply Forall2_impl; [exact Hds|]. intros d d' Hdd. split; [done|].
    destruct (tree_hash_alike d d' Hdd)
      as [[q h] [q' h'] (Hq & Hq' & Hh)|]; constructor.
    simpl in Hq, Hq', Hh. subst q q' h'.
    by apply same_dir_descriptor, tree_alike_path with same_file. }
  assert (option_Forall2
            (Forall2 (fun e e' => entry_descriptor e = entry_descriptor e'))
            (mapM (file_hash H fs chunk_size) files)
            (mapM (file_hash H fs' chunk_size) files')) as Hf.
  { apply (mapM_Forall2 same_file).
    eapply Forall2_impl; [exact Hfs|]. intros p p' Hpp. split; [done|].
    by apply same_file_descriptor. }
  destruct Hd as [k k' Hk|]; [|constructor]. simpl.
  destruct Hf as [l l' Hl|]; [|constructor]. simpl.
  apply dir_apply_alike; [|done].
  apply Forall2_map_eq, Forall2_app; done.
Qed.

Lemma tree_hash_alike_digest t t' :
  tree_alike same_dir same_file t t' ->
  snd <$> tree_hash H fs cwd filter_ protocol chunk_size allow t
  = snd <$> tree_hash H fs' cwd filter_ protocol chunk_size allow t'.
Proof.
  intros Ht. destruct (tree_hash_alike t t' Ht) as [r r' (_ & _ & Hr)|];
    [|done].
  simpl. by rewrite Hr.
Qed.

End alike.

Lemma entry_descriptor_same_kind protocol p p' h :
  _include_name protocol = false -> _include_is_link protocol = false ->
  same_kind p p' ->
  entry_descriptor_of protocol (p, h) = entry_descriptor_of protocol (p', h).
Proof.
  intros Hn Hl Hd. unfold entry_descriptor_of. cbn [fst snd].
  unfold _get_entry_properties. by rewrite Hn, Hl, Hd.
Qed.

Lemma entry_descriptor_without_data protocol p h h' :
  _include_data protocol = false -> is_dir p = false ->
  entry_descriptor_of protocol (p, h) = entry_descriptor_of protocol (p, h').
Proof.
  intros Hn Hd. unfold entry_descriptor_of. cbn [fst snd].
  unfold _get_entry_properties. by rewrite Hn, Hd.
Qed.

(** X10.  With [data] as the only entry property, two trees in which files
    of the same content are organised the same way have the same digest,
    whatever the files and the directories are called and wherever the
    files are stored. *)
Theorem names_ignored_without_name (H : HASH) (fs fs' : gmap string bytes)
    (cwd : string) (t t' : Tree) (filtering : option Filter)
    (protocol : protocol_arg) (chunk_size jobs : Z) (p : Protocol) :
  _get_instance_protocol protocol = Ok p ->
  _include_name p = false -> _include_is_link p = false ->
  tree_alike renamed_dir (same_content fs fs') t t' ->
  digest_of (dirhash H fs cwd t filtering protocol chunk_size jobs)
  = digest_of (dirhash H fs' cwd t' filtering protocol chunk_size jobs).
Proof.
  intros Hp Hn Hl Ht.
  destruct (Z.lt_ge_cases jobs 1) as [Hj|Hj].
  { by rewrite !dirhash_no_pool. }
  rewrite !dirhash_tree_hash, Hp by done.
  apply (tree_hash_alike_digest _ _ _ _ _ _ _ _ renamed_dir
           (same_content fs fs')); [| |done].
  - intros q q' h [Hk Hrel]. split; [|done].
    by apply entry_descriptor_same_kind.
  - intros q q' [Hk Hc]. unfold file_hash, _get_filehash. rewrite Hc.
    destruct (fs' !! real q'); constructor.
    by apply entry_descriptor_same_kind.
Qed.

Lemma names_ignored_without_name_witness :
  digest_of (dirhash hexdump sample_fs "/" sample_tree None
               (ProtocolKwargs (Some ["data"]) None) 4 1)
  = digest_of (dirhash hexdump other_fs "/" other_tree None
                 (ProtocolKwargs (Some ["data"]) None) 4 1).
Proof.
  apply (names_ignored_without_name hexdump sample_fs other_fs "/"
           sample_tree other_tree None (ProtocolKwargs (Some ["data"]) None)
           4 1 data_only); [by vm_compute|done|done|].
  repeat (constructor || split); by vm_compute.
Defined.

Lemma tree_alike_rewritten fs fs' t :
  files_are_files t = true ->
  (forall k, k ∈ real_paths_of t -> is_Some (fs !! k) <-> is_Some (fs' !! k)) ->
  tree_alike eq (rewritten fs fs') t t.
Proof.
  induction t as [path ds files IH|path tp] using Tree_ind;
    [|by constructor].
  cbn [files_are_files]. intros [Hds Hfs]%andb_true_iff Hdom.
  constructor; [done| |].
  - apply Forall2_same_length_lookup_2; [done|].
    intros i d d' Hd Hd'. assert (d' = d) as -> by congruence.
    apply list_elem_of_lookup_2 in Hd. rewrite Forall_forall in IH.
    apply IH; [done| |].
    + apply (proj1 (forallb_forall _ _) Hds). by apply list_elem_of_In.
    + intros k Hk. apply Hdom. by eapply child_real_paths.
  - apply Forall2_same_length_lookup_2; [done|].
    intros i q q' Hq Hq'. assert (q' = q) as -> by congruence.
    apply list_elem_of_lookup_2 in Hq. split; [done|]. split.
    + apply negb_true_iff.
      apply (proj1 (forallb_forall _ _) Hfs). by apply list_elem_of_In.
    + apply Hdom. by eapply file_real_path.
Qed.

(** X11.  Without [data] among the entry properties the digest does not
    depend on the content of the files: rewriting them leaves it unchanged,
    as long as each file can be opened as before. *)
Theorem contents_ignored_without_data (H : HASH) (fs fs' : gmap string bytes)
    (cwd : string) (t : Tree) (filtering : option Filter)
    (protocol : protocol_arg) (chunk_size jobs : Z) (p : Protocol) :
  _get_instance_protocol protocol = Ok p ->
  _include_data p = false ->
  files_are_files t = true ->
  (forall k, k ∈ real_paths_of t -> is_Some (fs !! k) <-> is_Some (fs' !! k)) ->
  digest_of (dirhash H fs cwd t filtering protocol chunk_size jobs)
  = digest_of (dirhash H fs' cwd t filtering protocol chunk_size jobs).
Proof.
  intros Hp Hn Hfiles Hdom.
  destruct (Z.lt_ge_cases jobs 1) as [Hj|Hj].
  { by rewrite !dirhash_no_pool. }
  rewrite !dirhash_tree_hash, Hp by done.
  apply (tree_hash_alike_digest _ _ _ _ _ _ _ _ eq (rewritten fs fs')).
  - by intros q q' h ->.
  - intros q q' (<- & Hd & Hsome). unfold file_hash, _get_filehash.
    destruct (fs !! real q) as [f|] eqn:Hf, (fs' !! real q) as [f'|] eqn:Hf'.
    + constructor. by apply entry_descriptor_without_data.
    + exfalso. apply (is_Some_None (A := bytes)). apply Hsome. eauto.
    + exfalso. apply (is_Some_None (A := bytes)). apply Hsome. eauto.
    + constructor.
  - by apply tree_alike_rewritten.
Qed.

Lemma contents_ignored_without_data_witness :
  digest_of (dirhash hexdump sample_fs "/" sample_tree None
               (ProtocolKwargs (Some ["name"]) None) 4 1)
  = digest_of (dirhash hexdump rewritten_fs "/" sample_tree None
                 (ProtocolKwargs (Some ["name"]) None) 4 1).
Proof.
  apply (contents_ignored_without_data hexdump sample_fs rewritten_fs "/"
           sample_tree None (ProtocolKwargs (Some ["name"]) None) 4 1
           name_only); [by vm_compute|done|done|].
  intros k Hk.
  assert (k ∈ ["/r/sub/c.txt"; "/r/a.txt"; "/r/b.txt"]) as Hin.
  { revert Hk. cbn [sample_tree real_paths_of map]. simpl. set_solver. }
  repeat (apply elem_of_cons in Hin as [->|Hin]);
    [split; intros _; by eexists..|by apply elem_of_nil in Hin].
Defined.

(** X12.  When [is_link] is not among the entry properties, the digest
    does not depend on the directory that is hashed itself, its name or its
    location: a directory that holds the same names with the same contents
    under another root has the same digest. *)
Theorem digest_of_a_copy (H : HASH) (fs fs' : gmap string bytes)
    (cwd : string) (path path' : Path) (ds ds' : list Tree)
    (files files' : list Path) (filtering : option Filter)
    (protocol : protocol_arg) (chunk_size jobs : Z) (p : Protocol) :
  _get_instance_protocol protocol = Ok p ->
  _include_is_link p = false ->
  (relative path = "" <-> relative path' = "") ->
  Forall2 (tree_alike moved (moved_file fs fs')) ds ds' ->
  Forall2 (moved_file fs fs') files files' ->
  digest_of (dirhash H fs cwd (TDir path ds files) filtering protocol
               chunk_size jobs)
  = digest_of (dirhash H fs' cwd (TDir path' ds' files') filtering protocol
                 chunk_size jobs).
Proof.
  intros Hp Hlink Hrel Hds Hfiles.
  destruct (Z.lt_ge_cases jobs 1) as [Hj|Hj].
  { by rewrite !dirhash_no_pool. }
  rewrite !dirhash_tree_hash, Hp by done.
  assert (forall q q' h, moved q q' ->
            entry_descriptor_of p (q, h) = entry_descriptor_of p (q', h))
    as Hentry.
  { intros q q' h (_ & Hn & Hd). unfold entry_descriptor_of.
    cbn [fst snd]. unfold _get_entry_properties.
    by rewrite Hlink, Hn, Hd. }
  destruct (dir_hash_alike H fs fs' cwd (_get_instance_filter filtering) p
              chunk_size (allow_cyclic_links p) moved (moved_file fs fs'))
    with (path := path) (path' := path') (ds := ds) (ds' := ds')
         (files := files) (files' := files')
    as [r r' (_ & _ & Hr)|]; [| |done..| |done].
  - intros q q' h Hq. split; [by apply Hentry|].
    destruct Hq as (Hrelq & _). by rewrite Hrelq.
  - intros q q' [Hq Hc]. unfold file_hash, _get_filehash. rewrite Hc.
    destruct (fs' !! real q'); constructor. by apply Hentry.
  - simpl. by rewrite Hr.
Qed.

Lemma digest_of_a_copy_witness :
  digest_of (dirhash hexdump sample_fs "/"
               (TDir root_path [TDir sub_path [] [c_txt; d_txt]]
                  [a_txt; b_txt]) None ProtocolNone 4 1)
  = digest_of (dirhash hexdump copy_fs "/"
                 (TDir other_root [TDir copy_sub [] [copy_c; copy_d]]
                    [copy_a; copy_b]) None ProtocolNone 4 1).
Proof.
  apply (digest_of_a_copy hexdump sample_fs copy_fs "/" root_path other_root
           [TDir sub_path [] [c_txt; d_txt]]
           [TDir copy_sub [] [copy_c; copy_d]] [a_txt; b_txt]
           [copy_a; copy_b] None ProtocolNone 4 1 _ eq_refl);
    [done|done|..]; repeat (constructor || split); by vm_compute.
Defined.

Lemma hash_chunks_nil H chunk_size hasher :
  hash_chunks H chunk_size hasher [] = hasher.
Proof.
  apply (hash_chunks_elim
           (fun H chunk_size hasher f r => f = [] -> r = hasher));
    [| |done]; clear.
  - done.
  - intros H cs hasher f b chunk f' e IH _ ->. exfalso. unfold read in e.
    destruct (cs <? 0)%Z; [done|]. by rewrite take_nil in e.
Qed.

(** X13.  A directory without entries, when it is kept, has the digest of
    the empty input under every protocol, and so has a file without content
    under every chunk size that [read] accepts: they are told apart only by
    the key under which the digest enters the descriptor of their parent. *)
Theorem empty_directory_digest (H : HASH) (fs : gmap string bytes)
    (cwd : string) (filter_ : Filter) (protocol : Protocol) (path : Path) :
  empty_dirs filter_ = true \/ relative path <> "" ->
  dir_apply H cwd filter_ protocol (Dir path [] [])
  = Ok (path, hexdigest H (hnew H []))
  /\ (forall filepath chunk_size,
        (-1 <= chunk_size)%Z -> fs !! filepath = Some [] ->
        _get_filehash H fs filepath chunk_size
        = Ok (hexdigest H (hnew H []))).
Proof.
  intros Hkept. split.
  - unfold dir_apply. cbn [node_path empty get_descriptor app map].
    replace (negb (empty_dirs filter_)
             && (bool_decide (relative path = "") && true)) with false.
    { reflexivity. }
    destruct Hkept as [->|Hrel]; [done|].
    rewrite bool_decide_false by done. by rewrite andb_false_r.
  - intros filepath chunk_size _. unfold _get_filehash.
    destruct (fs !! filepath) as [f|]; [|done].
    intros [= ->]. by rewrite hash_chunks_nil.
Qed.

Lemma empty_directory_digest_witness :
  dir_apply hexdump "/" keep_empty_dirs hash_reference (Dir root_path [] [])
  = Ok (root_path, "")
  /\ _get_filehash hexdump sample_fs "/r/b.txt" 4 = Ok "".
Proof.
  destruct (empty_directory_digest hexdump sample_fs "/" keep_empty_dirs
              hash_reference root_path) as [Hd Hf]; [by left|].
  split; [exact Hd|]. by apply Hf.
Defined.

(** ** The pattern list *)

Lemma first_occurrences_sublist l : sublist (Spec.first_occurrences l) l.
Proof.
  induction l as [|x l IH]; simpl; [done|].
  apply sublist_skip. etrans; [apply sublist_filter|done].
Qed.

Lemma filter_Forall_id {A} (P : A -> Prop) `{!forall x, Decision (P x)}
    (l : list A) :
  Forall P l -> filter P l = l.
Proof.
  induction 1 as [|x l Hx _ IH]; [done|]. by rewrite filter_cons_True, IH.
Qed.

Lemma first_occurrences_NoDup_id l :
  NoDup l -> Spec.first_occurrences l = l.
Proof.
  induction 1 as [|x l Hx _ IH]; simpl; [done|].
  rewrite IH. f_equal. apply filter_Forall_id, Forall_forall.
  by intros y Hy ->.
Qed.

Lemma first_occurrences_app l1 l2 :
  Spec.first_occurrences (l1 ++ l2)
  = Spec.first_occurrences l1
    ++ filter (fun y => y ∉ l1) (Spec.first_occurrences l2).
Proof.
  induction l1 as [|x l1 IH]; cbn [app Spec.first_occurrences].
  - symmetry. apply filter_all. intros y. apply not_elem_of_nil.
  - rewrite IH, filter_app. f_equal. f_equal.
    rewrite list_filter_filter. apply list_filter_iff.
    intros y. rewrite not_elem_of_cons. tauto.
Qed.

(** X14.  The local function [deduplicate] keeps the first occurrence of
    every item and nothing else: its result has no duplicates and the same
    items in the same order; a list without duplicates is returned as it is;
    applied to a concatenation, it drops from the second list what the first
    one holds. *)
Theorem deduplicate_keeps_first_occurrences (items more : list string) :
  NoDup (deduplicate items)
  /\ (forall x, x ∈ deduplicate items <-> x ∈ items)
  /\ sublist (deduplicate items) items
  /\ (deduplicate items = items <-> NoDup items)
  /\ deduplicate (deduplicate items) = deduplicate items
  /\ deduplicate (items ++ more)
     = deduplicate items ++ filter (fun y => y ∉ items) (deduplicate more).
Proof.
  rewrite !deduplicate_first_occurrences.
  pose proof (first_occurrences_NoDup items) as Hnd.
  split; [done|]. split; [apply first_occurrences_elem_of|].
  split; [apply first_occurrences_sublist|]. split; [|split].
  - split; [by intros <-|apply first_occurrences_NoDup_id].
  - by apply first_occurrences_NoDup_id.
  - apply first_occurrences_app.
Qed.

Lemma deduplicate_keeps_first_occurrences_witness :
  deduplicate ["*"; "!a"; "*"; "!b"; "!a"] = ["*"; "!a"; "!b"]
  /\ deduplicate ["*"; "!a"; "!b"] = ["*"; "!a"; "!b"].
Proof.
  split; [by vm_compute|].
  apply (proj1 (proj2 (proj2 (proj2
           (deduplicate_keeps_first_occurrences ["*"; "!a"; "!b"] []))))).
  repeat constructor; set_solver.
Defined.

(** ** [included_paths] and [dirhash] *)

(** X15.  Whenever [dirhash] returns a digest, [included_paths] with the
    same arguments returns a list: one entry for every leaf of the scan, and
    every file of the scan was there to be opened. *)
Theorem included_paths_of_a_hashed_directory (H : HASH)
    (fs : gmap string bytes) (cwd : string) (t : Tree)
    (filtering : option Filter) (protocol : protocol_arg)
    (chunk_size jobs : Z) (d : string) :
  dirhash H fs cwd t filtering protocol chunk_size jobs = Ok d ->
  exists l,
    included_paths t filtering protocol = Ok l
    /\ l ≡ₚ map included_path (leaves t)
    /\ (forall k, k ∈ real_paths_of t -> is_Some (fs !! k)).
Proof.
  intros Hd.
  assert (digest_of (dirhash H fs cwd t filtering protocol chunk_size jobs)
          = Some d) as Hdig by (by rewrite Hd).
  destruct (Z.lt_ge_cases jobs 1) as [Hj|Hj].
  { by rewrite dirhash_no_pool in Hdig. }
  rewrite dirhash_tree_hash in Hdig by done.
  unfold included_paths.
  destruct (_get_instance_protocol protocol) as [p|e]; [|done].
  destruct (tree_hash _ _ _ _ _ _ _ t) as [r|] eqn:Hr; [|done].
  rewrite scantree_identity.
  destruct (allow_cyclic_links p || negb (has_cyclic_link t)) eqn:Hallow.
  2: { apply orb_false_iff in Hallow as [Ha Hc%negb_false_iff].
       rewrite Ha in Hr. by rewrite tree_hash_cyclic_refused in Hr. }
  eexists. split; [done|]. split.
  - apply Permutation_map, leafpaths_Permutation.
  - intros k Hk.
    destruct (tree_hash_reads _ _ _ _ _ _ _ _ _ k Hr Hk) as [h Hh].
    unfold _get_filehash in Hh. by destruct (fs !! k).
Qed.

Lemma included_paths_of_a_hashed_directory_witness :
  exists l,
    included_paths sample_tree None ProtocolNone = Ok l
    /\ l ≡ₚ map included_path (leaves sample_tree)
    /\ (forall k, k ∈ real_paths_of sample_tree -> is_Some (sample_fs !! k)).
Proof.
  destruct (dirhash hexdump sample_fs "/" sample_tree None ProtocolNone 4 1)
    as [d|e] eqn:Hd; [|by vm_compute in Hd].
  exact (included_paths_of_a_hashed_directory hexdump sample_fs "/"
           sample_tree None ProtocolNone 4 1 d Hd).
Defined.

(** ** Reading a descriptor back *)

Lemma separable_no_separator x y r :
  separable x = true -> x <> y +:+ _entry_descriptor_separator +:+ r.
Proof.
  unfold _entry_descriptor_separator. revert x.
  induction y as [|b y IH]; intros x Hx ->.
  - rewrite append_nil_l, !append_cons in Hx. cbn [separable] in Hx.
    by rewrite bool_decide_true in Hx.
  - rewrite append_cons in Hx. cbn [separable] in Hx.
    apply andb_true_iff in Hx as [_ Hx]. by apply (IH _ Hx).
Qed.

Lemma append_empty s t : s +:+ t = "" -> s = "".
Proof. by destruct s. Qed.

Lemma str_join_inj_nonempty l1 l2 :
  Forall (fun s => separable s = true /\ s <> "") l1 ->
  Forall (fun s => separable s = true /\ s <> "") l2 ->
  str_join _entry_descriptor_separator l1
  = str_join _entry_descriptor_separator l2 ->
  l1 = l2.
Proof.
  intros H1. revert l2. induction H1 as [|x l1 [Hx Hxne] Hl1 IH];
    intros l2 H2 Heq.
  { destruct H2 as [|y l2 [Hy Hyne] Hl2]; [done|]. exfalso.
    destruct l2 as [|y' l2]; simpl in Heq; [by subst|].
    symmetry in Heq. by apply append_empty in Heq. }
  destruct H2 as [|y l2 [Hy Hyne] Hl2].
  { exfalso. destruct l1 as [|x' l1]; simpl in Heq; [by subst|].
    by apply append_empty in Heq. }
  destruct l1 as [|x' l1], l2 as [|y' l2].
  - simpl in Heq. by subst.
  - exfalso. rewrite (str_join_cons _ y) in Heq by done. simpl in Heq.
    exact (separable_no_separator x y _ Hx Heq).
  - exfalso. rewrite (str_join_cons _ x) in Heq by done. simpl in Heq.
    symmetry in Heq. exact (separable_no_separator y x _ Hy Heq).
  - rewrite !str_join_cons in Heq by done.
    destruct (separable_inj _ _ _ _ Hx Hy Heq) as [-> Hrest].
    f_equal. by apply IH.
Qed.

(** X16.  When names are hashed and the link flag is not, the descriptor of
    a directory tells its entries: two directories have the same descriptor
    if and only if their entries have the same descriptors, up to the order
    of the listing.  (No name and no digest holds a NUL character.) *)
Theorem descriptor_unambiguous (self : Protocol) (cwd : string)
    (path path' : Path) (ds files ds' files' : list (Path * string)) :
  _include_name self = true -> _include_is_link self = false ->
  Forall clean (ds ++ files) -> Forall clean (ds' ++ files') ->
  get_descriptor self cwd (Dir path ds files)
  = get_descriptor self cwd (Dir path' ds' files')
  <-> map (entry_descriptor_of self) (ds ++ files)
      ≡ₚ map (entry_descriptor_of self) (ds' ++ files').
Proof.
  intros Hname Hlink Hc Hc'. cbn [get_descriptor].
  change (fun e => _get_entry_descriptor
                     (_get_entry_properties self (fst e) (snd e)))
    with (entry_descriptor_of self).
  assert (forall l, Forall clean l ->
            Forall (fun s => separable s = true /\ s <> "")
              (sorted (map (entry_descriptor_of self) l))) as Hsep.
  { intros l Hl. rewrite sorted_Permutation. apply Forall_fmap.
    eapply Forall_impl; [exact Hl|]. intros e [Hn Hh]. simpl. split.
    - by apply entry_descriptor_separable.
    - unfold entry_descriptor_of. rewrite entry_descriptor_named by done.
      intros Hempty. apply (f_equal String.length) in Hempty.
      rewrite !length_append in Hempty. simpl in Hempty. lia. }
  split.
  - intros [= Heq]. apply str_join_inj_nonempty in Heq; [|by apply Hsep..].
    by rewrite <- (sorted_Permutation (map _ (ds ++ files))), Heq,
      sorted_Permutation.
  - intros Hp. by rewrite (sorted_perm_eq _ _ Hp).
Qed.

Lemma descriptor_unambiguous_witness :
  get_descriptor hash_reference "/"
    (Dir root_path [(sub_path, "00")] [(a_txt, "68"); (b_txt, "")])
  = get_descriptor hash_reference "/"
      (Dir other_root [(sub_path, "00")] [(b_txt, ""); (a_txt, "68")]).
Proof.
  apply (descriptor_unambiguous hash_reference "/" root_path other_root
           [(sub_path, "00")] [(a_txt, "68"); (b_txt, "")]
           [(sub_path, "00")] [(b_txt, ""); (a_txt, "68")]);
    [done|done|repeat constructor..|].
  cbn [app map]. apply perm_skip, perm_swap.
Defined.

(** ** Renaming a file *)

Lemma ab_renamed : tree_renamed ab_fs ba_fs ab_tree ba_tree.
Proof.
  apply (renamed_here ab_fs ba_fs root_path [] [] file_ab file_ba []).
  by vm_compute.
Qed.

Lemma ab_same_elsewhere : same_elsewhere ab_fs ba_fs ab_tree ba_tree.
Proof.
  intros k Hk Hk'. exfalso. revert Hk Hk'.
  cbn [ab_tree ba_tree real_paths_of map]. simpl. set_solver.
Qed.

(** The claim as the specification states it fails for a hash function that
    collides: the additive checksum gives [ab] and [ba] the same digest
    although [name] is hashed. *)
Lemma rename_unnoticed_by_checksum :
  dirhash sum16 ab_fs "/" ab_tree None
    (ProtocolKwargs (Some ["name"; "data"]) (Some "raise")) 4 1 = Ok "059c"
  /\ dirhash sum16 ba_fs "/" ba_tree None
       (ProtocolKwargs (Some ["name"; "data"]) (Some "raise")) 4 1
     = Ok "059c"
  /\ ~ rename_changes_digest_iff_name.
Proof.
  assert (dirhash sum16 ab_fs "/" ab_tree None
            (ProtocolKwargs (Some ["name"; "data"]) (Some "raise")) 4 1
          = Ok "059c") as Hab by (by vm_compute).
  assert (dirhash sum16 ba_fs "/" ba_tree None
            (ProtocolKwargs (Some ["name"; "data"]) (Some "raise")) 4 1
          = Ok "059c") as Hba by (by vm_compute).
  split; [done|]. split; [done|]. intros Hclaim.
  destruct (Hclaim sum16 ab_fs ba_fs "/" ab_tree ba_tree None
              ["name"; "data"] "raise" 4%Z 1%Z "059c" "059c" ab_renamed
              ab_same_elsewhere Hab Hba) as [_ Hne].
  apply Hne; [|done]. by left.
Qed.

(** *** What has not changed *)

Lemma tree_alike_same_files (fs fs' : gmap string bytes) t :
  (forall k, k ∈ real_paths_of t -> fs !! k = fs' !! k) ->
  tree_alike eq (fun p p' => p = p' /\ fs !! real p = fs' !! real p') t t.
Proof.
  induction t as [path ds files IH|path tp] using Tree_ind;
    [|by constructor].
  intros Hsame. constructor; [done| |].
  - apply Forall2_same_length_lookup_2; [done|].
    intros i d d' Hd Hd'. assert (d' = d) as -> by congruence.
    apply list_elem_of_lookup_2 in Hd. rewrite Forall_forall in IH.
    apply IH; [done|]. intros k Hk. apply Hsame.
    by eapply child_real_paths.
  - apply Forall2_same_length_lookup_2; [done|].
    intros i q q' Hq Hq'. assert (q' = q) as -> by congruence.
    apply list_elem_of_lookup_2 in Hq. split; [done|].
    apply Hsame. by eapply file_real_path.
Qed.

Lemma file_hash_same_file H fs fs' chunk_size p :
  fs !! real p = fs' !! real p ->
  file_hash H fs chunk_size p = file_hash H fs' chunk_size p.
Proof. intros Hp. unfold file_hash, _get_filehash. by rewrite Hp. Qed.

(** A tree whose files are what they were has the result it had. *)
Lemma tree_hash_same_files H fs fs' cwd filter_ protocol chunk_size allow t :
  (forall k, k ∈ real_paths_of t -> fs !! k = fs' !! k) ->
  tree_hash H fs cwd filter_ protocol chunk_size allow t
  = tree_hash H fs' cwd filter_ protocol chunk_size allow t.
Proof.
  intros Hsame.
  destruct (tree_hash_alike H fs fs' cwd filter_ protocol chunk_size allow
              eq (fun p p' => p = p' /\ fs !! real p = fs' !! real p'))
    with (t := t) (t' := t)
    as [[q h] [q' h'] (Hq & Hq' & Hh)|]; [| | |simpl in *; congruence|done].
  - by intros p p' h ->.
  - intros p p' [<- Hp]. rewrite (file_hash_same_file H fs fs') by done.
    destruct (file_hash H fs' chunk_size p); by constructor.
  - by apply tree_alike_same_files.
Qed.

Lemma mapM_tree_hash_same_files H fs fs' cwd filter_ protocol chunk_size
    allow ds :
  (forall d k, d ∈ ds -> k ∈ real_paths_of d -> fs !! k = fs' !! k) ->
  mapM (tree_hash H fs cwd filter_ protocol chunk_size allow) ds
  = mapM (tree_hash H fs' cwd filter_ protocol chunk_size allow) ds.
Proof.
  intros Hsame. apply Forall_mapM_ext, Forall_forall. intros d Hd.
  apply tree_hash_same_files. intros k Hk. by eapply Hsame.
Qed.

Lemma mapM_file_hash_same_files H fs fs' chunk_size files :
  (forall q, q ∈ files -> fs !! real q = fs' !! real q) ->
  mapM (file_hash H fs chunk_size) files
  = mapM (file_hash H fs' chunk_size) files.
Proof.
  intros Hsame. apply Forall_mapM_ext, Forall_forall. intros q Hq.
  apply file_hash_same_file. by apply Hsame.
Qed.

(** What [same_elsewhere] says of the entries next to the renamed one. *)
Lemma same_elsewhere_dirs fs fs' path ds files files' d k :
  same_elsewhere fs fs' (TDir path ds files) (TDir path ds files') ->
  d ∈ ds -> k ∈ real_paths_of d -> fs !! k = fs' !! k.
Proof.
  intros Hsame Hd Hk. apply Hsame; by eapply child_real_paths.
Qed.

Lemma same_elsewhere_files fs fs' path ds fs1 p p' fs2 q :
  same_elsewhere fs fs' (TDir path ds (fs1 ++ p :: fs2))
                        (TDir path ds (fs1 ++ p' :: fs2)) ->
  q ∈ fs1 ++ fs2 -> fs !! real q = fs' !! real q.
Proof.
  intros Hsame Hq. apply Hsame; apply file_real_path;
    rewrite elem_of_app, elem_of_cons in *; tauto.
Qed.

Lemma same_elsewhere_siblings fs fs' path ds1 d d' ds2 files x k :
  same_elsewhere fs fs' (TDir path (ds1 ++ d :: ds2) files)
                        (TDir path (ds1 ++ d' :: ds2) files) ->
  x ∈ ds1 ++ ds2 -> k ∈ real_paths_of x -> fs !! k = fs' !! k.
Proof.
  intros Hsame Hx Hk. apply Hsame; eapply child_real_paths; try exact Hk;
    rewrite elem_of_app, elem_of_cons in *; tauto.
Qed.

Lemma same_elsewhere_below fs fs' path ds1 d d' ds2 files :
  same_elsewhere fs fs' (TDir path (ds1 ++ d :: ds2) files)
                        (TDir path (ds1 ++ d' :: ds2) files) ->
  same_elsewhere fs fs' d d'
  /\ (forall q, q ∈ files -> fs !! real q = fs' !! real q).
Proof.
  intros Hsame. split.
  - intros k Hk Hk'. apply Hsame.
    + apply (child_real_paths _ _ _ d); [|done].
      rewrite elem_of_app, elem_of_cons; tauto.
    + apply (child_real_paths _ _ _ d'); [|done].
      rewrite elem_of_app, elem_of_cons; tauto.
  - intros q Hq. apply Hsame; by apply file_real_path.
Qed.

(** *** Without [name] and [is_link] *)

Section renamed.
Context (H : HASH) (fs fs' : gmap string bytes) (cwd : string)
  (filter_ : Filter) (protocol : Protocol) (chunk_size : Z) (allow : bool)
  (Hname : _include_name protocol = false)
  (Hlink : _include_is_link protocol = false).

Notation entry_descriptor := (entry_descriptor_of protocol).

Lemma dir_apply_entries_ext path ds files ds2 files2 :
  map entry_descriptor (ds ++ files) = map entry_descriptor (ds2 ++ files2) ->
  dir_apply H cwd filter_ protocol (Dir path ds files)
  = dir_apply H cwd filter_ protocol (Dir path ds2 files2).
Proof.
  intros Hmap. unfold dir_apply. cbn [get_descriptor node_path].
  fold entry_descriptor. rewrite Hmap.
  replace (empty (Dir path ds2 files2)) with (empty (Dir path ds files));
    [done|].
  apply (f_equal length) in Hmap. rewrite !length_map, !length_app in Hmap.
  destruct ds, files, ds2, files2; simpl in *; done || lia.
Qed.

Lemma file_hash_renamed p p' :
  file_renamed fs fs' p p' ->
  (file_hash H fs chunk_size p = None
   /\ file_hash H fs' chunk_size p' = None)
  \/ exists h, file_hash H fs chunk_size p = Some (p, h)
               /\ file_hash H fs' chunk_size p' = Some (p', h).
Proof.
  intros (Hreal & _). unfold file_hash, _get_filehash. rewrite <- Hreal.
  destruct (fs !! real p) as [f|]; eauto.
Qed.

Lemma entry_descriptor_without_name p p' h :
  file_renamed fs fs' p p' ->
  entry_descriptor (p, h) = entry_descriptor (p', h).
Proof.
  intros (_ & Hd & Hd' & _). unfold entry_descriptor_of.
  cbn [fst snd]. unfold _get_entry_properties.
  by rewrite Hname, Hlink, Hd, Hd'.
Qed.

(** Without [name] and [is_link] among the entry properties the reduction
    does not see the renaming. *)
Lemma tree_hash_renamed_without_name t t' :
  tree_renamed fs fs' t t' -> same_elsewhere fs fs' t t' ->
  tree_hash H fs cwd filter_ protocol chunk_size allow t
  = tree_hash H fs' cwd filter_ protocol chunk_size allow t'.
Proof.
  induction 1 as [path ds fs1 p p' fs2 Hp
                 |path ds1 d d' ds2 files _ IH]; intros Hsame.
  - cbn [tree_hash].
    rewrite (mapM_tree_hash_same_files H fs fs')
      by (intros; by eapply same_elsewhere_dirs).
    destruct (mapM _ ds) as [ds'|]; [|done]. simpl.
    rewrite !mapM_app, !mapM_cons.
    rewrite (mapM_file_hash_same_files H fs fs' _ fs1)
      by (intros q Hq; eapply same_elsewhere_files; [exact Hsame|];
          rewrite elem_of_app; tauto).
    rewrite (mapM_file_hash_same_files H fs fs' _ fs2)
      by (intros q Hq; eapply same_elsewhere_files; [exact Hsame|];
          rewrite elem_of_app; tauto).
    destruct (mapM _ fs1) as [k1|]; [|done]. simpl.
    destruct (file_hash_renamed p p' Hp) as [[-> ->]|(h & -> & ->)];
      [done|]. simpl.
    destruct (mapM _ fs2) as [k2|]; [|done]. simpl.
    f_equal. apply dir_apply_entries_ext.
    rewrite !map_app. cbn [map].
    by rewrite (entry_descriptor_without_name p p' h).
  - destruct (same_elsewhere_below _ _ _ _ _ _ _ _ Hsame) as [Hd Hfiles].
    cbn [tree_hash]. rewrite !mapM_app, !mapM_cons, (IH Hd).
    rewrite (mapM_tree_hash_same_files H fs fs' _ _ _ _ _ ds1)
      by (intros x k Hx Hk; eapply same_elsewhere_siblings;
          [exact Hsame| |exact Hk]; rewrite elem_of_app; tauto).
    rewrite (mapM_tree_hash_same_files H fs fs' _ _ _ _ _ ds2)
      by (intros x k Hx Hk; eapply same_elsewhere_siblings;
          [exact Hsame| |exact Hk]; rewrite elem_of_app; tauto).
    by rewrite (mapM_file_hash_same_files H fs fs' _ files).
Qed.

End renamed.

(** *** With [name], without [is_link] *)

Section differs.
Context (H : HASH) (fs fs' : gmap string bytes) (cwd : string)
  (filter_ : Filter) (protocol : Protocol) (chunk_size : Z) (allow : bool)
  (Hname : _include_name protocol = true)
  (Hlink : _include_is_link protocol = false)
  (Hnf : nul_free_digests H).

Notation entry_descriptor := (entry_descriptor_of protocol).
Notation digest s := (hexdigest H (hnew H (encode_utf8 s))).

(** Two directories whose entries differ in one place, by the descriptor,
    have different descriptors. *)
Lemma descriptor_differs path path' ds files ds2 files2 A e e' B s s' :
  ds ++ files = A ++ e :: B -> ds2 ++ files2 = A ++ e' :: B ->
  Forall clean (A ++ e :: B) -> Forall clean (A ++ e' :: B) ->
  entry_descriptor e <> entry_descriptor e' ->
  get_descriptor protocol cwd (Dir path ds files) = Ok s ->
  get_descriptor protocol cwd (Dir path' ds2 files2) = Ok s' ->
  s <> s'.
Proof.
  intros HE HE' Hc Hc' Hne. cbn [get_descriptor]. fold entry_descriptor.
  rewrite HE, HE'. intros [= <-] [= <-] Heq. apply Hne.
  apply str_join_inj in Heq; [|by apply clean_separable..|].
  - rewrite !map_app in Heq. cbn [map] in Heq.
    by apply sorted_differs_at in Heq.
  - rewrite !(Permutation_length (sorted_Permutation _)).
    rewrite !length_map, !length_app. done.
Qed.

Lemma dir_apply_descriptor n r :
  dir_apply H cwd filter_ protocol n = Ok r ->
  exists s, get_descriptor protocol cwd n = Ok s
            /\ r = (node_path n, digest s).
Proof.
  destruct (dir_apply_cases H cwd filter_ protocol n) as (s & Hs & ->).
  destruct (_ && _); [done|]. intros [= <-]. eauto.
Qed.

(** The result of a node is the digest of its descriptor. *)
Lemma tree_hash_node_descriptor (g : gmap string bytes) t r :
  tree_hash H g cwd filter_ protocol chunk_size allow t = Some r ->
  exists s,
    node_descriptor H g cwd filter_ protocol chunk_size allow t = Some s
    /\ r = (tree_path t, digest s).
Proof.
  destruct t as [path ds files|path tp];
    cbn [tree_hash node_descriptor tree_path].
  - destruct (mapM _ ds) as [ds'|]; [|done]. cbn [mbind option_bind].
    destruct (mapM _ files) as [fs1|]; [|done]. cbn [mbind option_bind].
    intros (s & Hs & ->)%to_option_Some%dir_apply_descriptor.
    exists s. by rewrite Hs.
  - destruct allow; [|done].
    intros (s & Hs & ->)%to_option_Some%dir_apply_descriptor.
    exists s. by rewrite Hs.
Qed.

Lemma node_descriptor_hashed (g : gmap string bytes) t s :
  node_descriptor H g cwd filter_ protocol chunk_size allow t = Some s ->
  s ∈ hashed_descriptors H g cwd filter_ protocol chunk_size allow t.
Proof.
  intros Hs. destruct t; cbn [hashed_descriptors]; rewrite Hs;
    apply elem_of_app; right; by left.
Qed.

Lemma child_hashed (g : gmap string bytes) path ds files d s :
  d ∈ ds ->
  s ∈ hashed_descriptors H g cwd filter_ protocol chunk_size allow d ->
  s ∈ hashed_descriptors H g cwd filter_ protocol chunk_size allow
        (TDir path ds files).
Proof.
  intros Hd Hs. cbn [hashed_descriptors]. apply elem_of_app. left.
  apply list_elem_of_In, in_flat_map. exists d.
  by rewrite <- !list_elem_of_In.
Qed.

Lemma collide_below path path' ds ds' files files' d d' :
  d ∈ ds -> d' ∈ ds' ->
  collide H (hashed_descriptors H fs cwd filter_ protocol chunk_size allow d)
    (hashed_descriptors H fs' cwd filter_ protocol chunk_size allow d') ->
  collide H
    (hashed_descriptors H fs cwd filter_ protocol chunk_size allow
       (TDir path ds files))
    (hashed_descriptors H fs' cwd filter_ protocol chunk_size allow
       (TDir path' ds' files')).
Proof.
  intros Hd Hd' (s & s' & Hs & Hs' & Hne & Heq).
  exists s, s'. split; [by eapply child_hashed|].
  split; [by eapply child_hashed|]. done.
Qed.

(** Two nodes with different descriptors have different digests, unless
    the hash function collides on the two descriptors. *)
Lemma differ_or_collide t t' s s' :
  node_descriptor H fs cwd filter_ protocol chunk_size allow t = Some s ->
  node_descriptor H fs' cwd filter_ protocol chunk_size allow t' = Some s' ->
  s <> s' ->
  digest s <> digest s'
  \/ collide H
       (hashed_descriptors H fs cwd filter_ protocol chunk_size allow t)
       (hashed_descriptors H fs' cwd filter_ protocol chunk_size allow t').
Proof.
  intros Hs Hs' Hne.
  destruct (decide (digest s = digest s')) as [Heq|]; [right|by left].
  exists s, s'. auto using node_descriptor_hashed.
Qed.

Lemma tree_hash_renamed_with_name t t' :
  tree_renamed fs fs' t t' -> same_elsewhere fs fs' t t' ->
  well_named t = true -> well_named t' = true ->
  forall r r',
    tree_hash H fs cwd filter_ protocol chunk_size allow t = Some r ->
    tree_hash H fs' cwd filter_ protocol chunk_size allow t' = Some r' ->
    fst r = fst r'
    /\ (snd r <> snd r'
        \/ collide H
             (hashed_descriptors H fs cwd filter_ protocol chunk_size
                allow t)
             (hashed_descriptors H fs' cwd filter_ protocol chunk_size
                allow t')).
Proof.
  induction 1 as [path ds fs1 p p' fs2 Hp
                 |path ds1 d d' ds2 files Hren IH];
    intros Hsame Hw Hw' r r' Hr Hr'.
  - destruct (tree_hash_node_descriptor _ _ _ Hr) as (s & Hs & ->).
    destruct (tree_hash_node_descriptor _ _ _ Hr') as (s' & Hs' & ->).
    split; [done|]. cbn [snd]. apply differ_or_collide; [done..|].
    cbn [node_descriptor] in Hs, Hs'.
    rewrite <- (mapM_tree_hash_same_files H fs fs') in Hs'
      by (intros; by eapply same_elsewhere_dirs).
    destruct (mapM _ ds) as [ds'|] eqn:Hds; [|done].
    cbn [mbind option_bind] in Hs, Hs'.
    destruct (mapM (file_hash H fs chunk_size) (fs1 ++ p :: fs2))
      as [fsr|] eqn:Hfs; [|done].
    destruct (mapM (file_hash H fs' chunk_size) (fs1 ++ p' :: fs2))
      as [fsr'|] eqn:Hfs'; [|done].
    cbn [mbind option_bind] in Hs, Hs'. apply to_option_Some in Hs, Hs'.
    pose proof (children_clean H fs cwd filter_ protocol chunk_size allow
                  Hnf _ _ _ _ _ Hw Hds Hfs) as Hc.
    assert (Forall clean (ds' ++ fsr')) as Hc'.
    { apply (children_clean H fs' cwd filter_ protocol chunk_size allow
               Hnf _ _ _ _ _ Hw'); [|done].
      rewrite <- Hds. symmetry. apply mapM_tree_hash_same_files.
      intros; by eapply same_elsewhere_dirs. }
    rewrite mapM_app, mapM_cons in Hfs, Hfs'.
    rewrite <- (mapM_file_hash_same_files H fs fs' _ fs1) in Hfs'
      by (intros q Hq; eapply same_elsewhere_files; [exact Hsame|];
          rewrite elem_of_app; tauto).
    rewrite <- (mapM_file_hash_same_files H fs fs' _ fs2) in Hfs'
      by (intros q Hq; eapply same_elsewhere_files; [exact Hsame|];
          rewrite elem_of_app; tauto).
    destruct (mapM _ fs1) as [k1|]; [|done]. simpl in Hfs, Hfs'.
    destruct (file_hash_renamed H fs fs' chunk_size p p' Hp)
      as [[Hn _]|(h & Hh & Hh')]; [by rewrite Hn in Hfs|].
    rewrite Hh in Hfs. rewrite Hh' in Hfs'. simpl in Hfs, Hfs'.
    destruct (mapM _ fs2) as [k2|]; [|done]. simpl in Hfs, Hfs'.
    injection Hfs as <-. injection Hfs' as <-.
    rewrite app_assoc in Hc, Hc'.
    eapply (descriptor_differs path path ds' (k1 ++ (p, h) :: k2) ds'
              (k1 ++ (p', h) :: k2) (ds' ++ k1) (p, h) (p', h) k2);
      [by rewrite app_assoc..|exact Hc|exact Hc'| |exact Hs|exact Hs'].
    intros Heq. destruct Hp as (_ & Hd & Hd' & _ & Hnn). apply Hnn.
    apply (entry_descriptor_name_inj protocol Hname Hlink p p' h);
      [congruence|done].
  - destruct (same_elsewhere_below _ _ _ _ _ _ _ _ Hsame) as [Hd Hfiles].
    destruct (tree_hash_node_descriptor _ _ _ Hr) as (s & Hs & ->).
    destruct (tree_hash_node_descriptor _ _ _ Hr') as (s' & Hs' & ->).
    split; [done|]. cbn [snd].
    pose proof Hs as Hs0. pose proof Hs' as Hs0'.
    cbn [node_descriptor] in Hs, Hs'.
    rewrite <- (mapM_file_hash_same_files H fs fs' _ files) in Hs' by done.
    destruct (mapM (tree_hash H fs cwd filter_ protocol chunk_size allow)
                (ds1 ++ d :: ds2)) as [dsr|] eqn:Hds; [|done].
    destruct (mapM (tree_hash H fs' cwd filter_ protocol chunk_size allow)
                (ds1 ++ d' :: ds2)) as [dsr'|] eqn:Hds'; [|done].
    cbn [mbind option_bind] in Hs, Hs'.
    destruct (mapM _ files) as [fsr|] eqn:Hfs; [|done].
    cbn [mbind option_bind] in Hs, Hs'. apply to_option_Some in Hs, Hs'.
    pose proof (children_clean H fs cwd filter_ protocol chunk_size allow
                  Hnf _ _ _ _ _ Hw Hds Hfs) as Hc.
    assert (Forall clean (dsr' ++ fsr)) as Hc'.
    { apply (children_clean H fs' cwd filter_ protocol chunk_size allow
               Hnf _ _ _ _ _ Hw'); [done|].
      rewrite <- Hfs. symmetry. by apply mapM_file_hash_same_files. }
    rewrite mapM_app, mapM_cons in Hds, Hds'.
    rewrite <- (mapM_tree_hash_same_files H fs fs' _ _ _ _ _ ds1) in Hds'
      by (intros x k Hx Hk; eapply same_elsewhere_siblings;
          [exact Hsame| |exact Hk]; rewrite elem_of_app; tauto).
    rewrite <- (mapM_tree_hash_same_files H fs fs' _ _ _ _ _ ds2) in Hds'
      by (intros x k Hx Hk; eapply same_elsewhere_siblings;
          [exact Hsame| |exact Hk]; rewrite elem_of_app; tauto).
    destruct (mapM _ ds1) as [k1|]; [|done]. simpl in Hds, Hds'.
    destruct (tree_hash H fs cwd filter_ protocol chunk_size allow d)
      as [rd|] eqn:Hrd; [|done].
    destruct (tree_hash H fs' cwd filter_ protocol chunk_size allow d')
      as [rd'|] eqn:Hrd'; [|done].
    simpl in Hds, Hds'.
    destruct (mapM _ ds2) as [k2|]; [|done]. simpl in Hds, Hds'.
    injection Hds as <-. injection Hds' as <-.
    assert (well_named d = true /\ well_named d' = true) as [Hwd Hwd'].
    { cbn [well_named] in Hw, Hw'. rewrite !andb_true_iff in Hw, Hw'.
      destruct Hw as [[_ Hw] _], Hw' as [[_ Hw'] _].
      rewrite forallb_app in Hw, Hw'. cbn [forallb] in Hw, Hw'.
      rewrite !andb_true_iff in Hw, Hw'. tauto. }
    destruct (IH Hd Hwd Hwd' rd rd' eq_refl eq_refl) as [Hpath [Hdig|Hcol]].
    2: { right. apply (collide_below _ _ _ _ _ _ d d'); [| |done];
           rewrite elem_of_app, elem_of_cons; tauto. }
    apply (differ_or_collide _ _ s s' Hs0 Hs0').
    rewrite <- !app_assoc in Hc, Hc'. cbn [app] in Hc, Hc'.
    eapply (descriptor_differs path path (k1 ++ rd :: k2) fsr
              (k1 ++ rd' :: k2) fsr k1 rd rd' (k2 ++ fsr));
      [by rewrite <- app_assoc..|exact Hc|exact Hc'| |exact Hs|exact Hs'].
    intros Heq. apply Hdig.
    destruct rd as [pd h], rd' as [pd' h']. cbn [fst snd] in *. subst pd'.
    apply (entry_descriptor_hash_inj protocol Hname Hlink pd h h'); [|done].
    apply (tree_hash_result H fs cwd filter_ protocol chunk_size allow Hnf)
      in Hrd as [Hpd _].
    cbn [fst] in Hpd. subst pd.
    destruct Hren; cbn [well_named tree_path] in *;
      rewrite !andb_true_iff in Hwd; tauto.
Qed.

End differs.

(** C7, as the code has it.  For a protocol built by [Protocol.__init__]
    without [is_link], and two scans that differ by the renaming of one
    file, nothing else having changed: when [name] is not among the entry
    properties the digest is the same, whatever the hash function is; when
    [name] is among them the two digests differ, unless the hash function
    gives one digest to two different descriptors, one hashed in each of
    the two runs.  (Names and digests hold no NUL character, directory
    nodes being directory entries.) *)
Theorem file_rename_and_digest
    (H : HASH) (fs fs' : gmap string bytes) (cwd : string) (t t' : Tree)
    (filtering : option Filter) (eps : list string) (ocl : string)
    (self : Protocol) (chunk_size jobs : Z) :
  Protocol_init eps ocl = Ok self -> "is_link" ∉ eps ->
  tree_renamed fs fs' t t' -> same_elsewhere fs fs' t t' ->
  ("name" ∉ eps ->
   digest_of (dirhash H fs cwd t filtering
                (ProtocolKwargs (Some eps) (Some ocl)) chunk_size jobs)
   = digest_of (dirhash H fs' cwd t' filtering
                  (ProtocolKwargs (Some eps) (Some ocl)) chunk_size jobs))
  /\ ("name" ∈ eps ->
      nul_free_digests H ->
      well_named t = true -> well_named t' = true ->
      forall d d',
        dirhash H fs cwd t filtering
          (ProtocolKwargs (Some eps) (Some ocl)) chunk_size jobs = Ok d ->
        dirhash H fs' cwd t' filtering
          (ProtocolKwargs (Some eps) (Some ocl)) chunk_size jobs = Ok d' ->
        d <> d'
        \/ collide H
             (hashed_descriptors H fs cwd (_get_instance_filter filtering)
                self chunk_size (allow_cyclic_links self) t)
             (hashed_descriptors H fs' cwd (_get_instance_filter filtering)
                self chunk_size (allow_cyclic_links self) t')).
Proof.
  intros Hinit Hnolink Hren Hsame.
  apply Protocol_init_flags in Hinit as Hflags.
  destruct Hflags as (Heps & _ & Hfn & _ & Hfl).
  assert (_include_is_link self = false) as Hlink.
  { rewrite Hfl, Heps. apply bool_decide_false.
    by rewrite elem_of_list_to_set. }
  assert (_include_name self = bool_decide ("name" ∈ eps)) as Hflag.
  { rewrite Hfn, Heps. apply bool_decide_ext, elem_of_list_to_set. }
  split.
  - intros Hn. destruct (Z.lt_ge_cases jobs 1) as [Hlt|Hge].
    + by rewrite !dirhash_no_pool.
    + rewrite !dirhash_tree_hash by done. cbn [_get_instance_protocol].
      rewrite Hinit. f_equal.
      apply tree_hash_renamed_without_name; [|done..].
      by rewrite Hflag, bool_decide_false.
  - intros Hn Hnf Hw Hw' d d' Hd Hd'.
    assert (1 <= jobs)%Z as Hge.
    { destruct (Z.lt_ge_cases jobs 1) as [Hlt|Hge]; [|done].
      pose proof (dirhash_no_pool H fs cwd t filtering
                    (ProtocolKwargs (Some eps) (Some ocl)) chunk_size jobs
                    Hlt) as Hnone.
      by rewrite Hd in Hnone. }
    apply (f_equal digest_of) in Hd, Hd'.
    rewrite dirhash_tree_hash in Hd, Hd' by done.
    cbn [_get_instance_protocol] in Hd, Hd'. rewrite Hinit in Hd, Hd'.
    destruct (tree_hash _ fs _ _ _ _ _ t) as [r|] eqn:Hr; [|done].
    destruct (tree_hash _ fs' _ _ _ _ _ t') as [r'|] eqn:Hr'; [|done].
    simpl in Hd, Hd'. injection Hd as <-. injection Hd' as <-.
    eapply (tree_hash_renamed_with_name H fs fs' cwd _ self chunk_size);
      [by rewrite Hflag, bool_decide_true|done..|exact Hr|exact Hr'].
Qed.

Lemma file_rename_and_digest_witness :
  digest_of (dirhash sum16 ab_fs "/" ab_tree None
               (ProtocolKwargs (Some ["data"]) (Some "raise")) 4 1)
  = digest_of (dirhash sum16 ba_fs "/" ba_tree None
                 (ProtocolKwargs (Some ["data"]) (Some "raise")) 4 1)
  /\ exists self d d',
       Protocol_init ["name"; "data"] "raise" = Ok self
       /\ dirhash hexdump ab_fs "/" ab_tree None
            (ProtocolKwargs (Some ["name"; "data"]) (Some "raise")) 4 1
          = Ok d
       /\ dirhash hexdump ba_fs "/" ba_tree None
            (ProtocolKwargs (Some ["name"; "data"]) (Some "raise")) 4 1
          = Ok d'
       /\ (d <> d'
           \/ collide hexdump
                (hashed_descriptors hexdump ab_fs "/" Filter_default self 4
                   (allow_cyclic_links self) ab_tree)
                (hashed_descriptors hexdump ba_fs "/" Filter_default self 4
                   (allow_cyclic_links self) ba_tree)).
Proof.
  split.
  - apply (file_rename_and_digest sum16 ab_fs ba_fs "/" ab_tree ba_tree None
             ["data"] "raise" _ 4 1 eq_refl); [|apply ab_renamed
             |apply ab_same_elsewhere|].
    + intros Hin. apply elem_of_cons in Hin as [Hin|Hin]; [discriminate|].
      by apply elem_of_nil in Hin.
    + intros Hin. apply elem_of_cons in Hin as [Hin|Hin]; [discriminate|].
      by apply elem_of_nil in Hin.
  - destruct (dirhash hexdump ab_fs "/" ab_tree None
                (ProtocolKwargs (Some ["name"; "data"]) (Some "raise")) 4 1)
      as [d|e] eqn:Hd; [|by vm_compute in Hd].
    destruct (dirhash hexdump ba_fs "/" ba_tree None
                (ProtocolKwargs (Some ["name"; "data"]) (Some "raise")) 4 1)
      as [d'|e] eqn:Hd'; [|by vm_compute in Hd'].
    eexists _, d, d'. split; [reflexivity|]. split; [done|]. split; [done|].
    exact (proj2 (file_rename_and_digest hexdump ab_fs ba_fs "/" ab_tree
                    ba_tree None ["name"; "data"] "raise" _ 4 1 eq_refl
                    ltac:(set_solver) ab_renamed ab_same_elsewhere)
             ltac:(by left) hexdump_nul_free_digests eq_refl eq_refl
             d d' Hd Hd').
Defined.
